(** * Shallow embedding of the TinyInfiniTensor core: shape inference of
    MatMul and Concat, the pooled offset allocator, and the computation
    graph with topological sort, peephole optimisation and memory planning.

    Conventions.
    - [size_t] values are [Z] taken modulo 2^64 ([m64]); [int] shape
      extents are [Z] with 32-bit two's complement wrap ([wrap32]) where the
      source adds them.
    - A C++ assertion failure ([IT_ASSERT], [IT_TODO_HALT]) or an
      out-of-bounds read is [None].
    - Tensors and operators are heap objects named by [nat] identities; the
      graph holds lists of identities, and edges ([source], [targets],
      [predecessors], [successors], [inputs], [outputs]) are identities. *)

From Stdlib Require Import ZArith List Bool Lia Permutation Relations Sorting.Sorted.
Import ListNotations.
Open Scope Z_scope.

(* ------------------------------------------------------------------ *)
(** ** Machine integers *)

Definition W64 : Z := 2 ^ 64.

(** [size_t] arithmetic. *)
Definition m64 (x : Z) : Z := x mod W64.

(** [int] arithmetic as the compiler performs it (two's complement). *)
Definition wrap32 (x : Z) : Z := (x + 2 ^ 31) mod 2 ^ 32 - 2 ^ 31.

Definition in_int32 (x : Z) : bool := (- 2 ^ 31 <=? x) && (x <? 2 ^ 31).

(** [Shape = vector<int>]. *)
Definition Shape := list Z.

(** Update the element at index [n] (no effect out of range). *)
Fixpoint upd_nth {A} (n : nat) (f : A -> A) (l : list A) : list A :=
  match l, n with
  | [], _ => []
  | x :: r, O => f x :: r
  | x :: r, S n' => x :: upd_nth n' f r
  end.

(* ------------------------------------------------------------------ *)
(** ** [infer_broadcast] (utils/operator_utils.cc)

    The loop runs [i] from 0 to [maxRank-1] and writes
    [out[maxRank-1-i]]; building the output by prepending in that order
    produces the same vector. A pair of unequal extents neither of which is
    1 reaches [IT_TODO_HALT]. *)

Definition bcast_dim (dimA dimB : Z) : option Z :=
  if dimA =? dimB then Some dimA
  else if dimA =? 1 then Some dimB
  else if dimB =? 1 then Some dimA
  else None.

Definition dim_from_right (S : Shape) (rank : nat) (i : nat) : Z :=
  if (i <? rank)%nat then nth (rank - i - 1) S 0 else 1.

Definition infer_broadcast (A B : Shape) : option Shape :=
  let rankA := length A in
  let rankB := length B in
  let maxRank := Nat.max rankA rankB in
  fold_left
    (fun acc i =>
       match acc with
       | None => None
       | Some out =>
           match bcast_dim (dim_from_right A rankA i) (dim_from_right B rankB i) with
           | Some d => Some (d :: out)
           | None => None
           end
       end)
    (seq 0 maxRank) (Some []).

(* ------------------------------------------------------------------ *)
(** ** [MatmulObj] and [MatmulObj::inferShape] (operators/matmul.cc)

    The object carries [transA], [transB] and the fields [m], [n], [k]
    printed by [toString]. [inferShape] is a member function; it is
    modelled as returning the result together with the object after the
    call. *)

Record MatmulObj := mkMatmul {
  transA : bool;
  transB : bool;
  mm_m : Z;
  mm_n : Z;
  mm_k : Z
}.

Definition matmul_inferShape (op : MatmulObj) (shapeA shapeB : Shape)
  : option (list Shape) * MatmulObj :=
  let rankA := length shapeA in
  let rankB := length shapeB in
  (* shapeA[rankA - 2] and shapeB[rankB - 2] are out of bounds below rank 2 *)
  if (rankA <? 2)%nat || (rankB <? 2)%nat then (None, op) else
  let a2 := nth (rankA - 2) shapeA 0 in
  let a1 := nth (rankA - 1) shapeA 0 in
  let b2 := nth (rankB - 2) shapeB 0 in
  let b1 := nth (rankB - 1) shapeB 0 in
  let currnerK_A := if transA op then a2 else a1 in
  let currentM := if transA op then a1 else a2 in
  let currnerK_B := if transB op then b1 else b2 in
  let currentN := if transB op then b2 else b1 in
  if negb (currnerK_A =? currnerK_B) then (None, op) else
  let batchA := firstn (rankA - 2) shapeA in
  let batchB := firstn (rankB - 2) shapeB in
  match infer_broadcast batchA batchB with
  | None => (None, op)
  | Some outputShape => (Some [outputShape ++ [currentM; currentN]], op)
  end.

(* ------------------------------------------------------------------ *)
(** ** [ConcatObj::inferShape] (operators/concat.cc)

    [dim] is the normalised axis stored by the constructor. [inputs[0]] of
    an empty input list is out of bounds. *)

Definition concat_row (rank : nat) (dim : Z) (si : Shape) (dims : Shape)
  : option Shape :=
  fold_left
    (fun acc j =>
       match acc with
       | None => None
       | Some d =>
           if Z.of_nat j =? dim
           then Some (upd_nth j (fun x => wrap32 (x + nth j si 0)) d)
           else if nth j si 0 =? nth j d 0 then Some d else None
       end)
    (seq 0 rank) (Some dims).

Definition concat_inferShape (dim : Z) (inputs : list Shape)
  : option (list Shape) :=
  match inputs with
  | [] => None
  | s0 :: rest =>
      let rank := length s0 in
      match fold_left
              (fun acc si =>
                 match acc with
                 | None => None
                 | Some dims =>
                     if negb (length si =? rank)%nat then None
                     else concat_row rank dim si dims
                 end)
              rest (Some s0) with
      | Some dims => Some [dims]
      | None => None
      end
  end.

(* ------------------------------------------------------------------ *)
(** ** [Allocator] (core/allocator.cc)

    [free_blocks : std::map<size_t, size_t>] is an association list kept in
    increasing key order; [operator[]=] overwrites or inserts in order,
    [erase] drops the key. [ptr] is [None] until [getPtr] materialises the
    region; it then records the byte count requested from the runtime. *)

Definition FreeMap := list (Z * Z).

Fixpoint map_insert (k v : Z) (m : FreeMap) : FreeMap :=
  match m with
  | [] => [(k, v)]
  | (k', v') :: r =>
      if k =? k' then (k, v) :: r
      else if k <? k' then (k, v) :: (k', v') :: r
      else (k', v') :: map_insert k v r
  end.

Definition map_erase (k : Z) (m : FreeMap) : FreeMap :=
  filter (fun kv => negb (fst kv =? k)) m.

(** [std::next(find(k))]: the first entry with a larger key. *)
Definition map_next (k : Z) (m : FreeMap) : option (Z * Z) :=
  find (fun kv => k <? fst kv) m.

(** [std::prev(find(k))]: the last entry with a smaller key. *)
Definition map_prev (k : Z) (m : FreeMap) : option (Z * Z) :=
  last (map Some (filter (fun kv => fst kv <? k) m)) None.

Record Allocator := mkAllocator {
  a_used : Z;
  a_peak : Z;
  a_alignment : Z;
  a_ptr : option Z;
  a_free : FreeMap
}.

(** The constructor: [used = peak = 0], [ptr = nullptr],
    [alignment = sizeof(uint64_t)]. *)
Definition new_allocator : Allocator := mkAllocator 0 0 8 None [].

Definition getAlignedSize (a : Allocator) (size : Z) : Z :=
  m64 (m64 (m64 (size - 1) / a_alignment a + 1) * a_alignment a).

(** First entry in key order whose size is at least [size]. *)
Fixpoint first_fit (size : Z) (m : FreeMap) : option (Z * Z) :=
  match m with
  | [] => None
  | (addr, bsize) :: r => if size <=? bsize then Some (addr, bsize) else first_fit size r
  end.

Definition alloc (a : Allocator) (size0 : Z) : option (Z * Allocator) :=
  match a_ptr a with Some _ => None | None =>
  let size := getAlignedSize a size0 in
  match first_fit size (a_free a) with
  | Some (block_addr, block_size) =>
      let fb := map_erase block_addr (a_free a) in
      let remaining_size := m64 (block_size - size) in
      let fb := map_insert (m64 (block_addr + size)) remaining_size fb in
      Some (block_addr,
            mkAllocator (m64 (a_used a + size)) (a_peak a) (a_alignment a) None fb)
  | None =>
      let new_addr := a_peak a in
      Some (new_addr,
            mkAllocator (m64 (a_used a + size)) (m64 (a_peak a + size))
                        (a_alignment a) None (a_free a))
  end
  end.

Definition free (a : Allocator) (addr size0 : Z) : option Allocator :=
  match a_ptr a with Some _ => None | None =>
  let size := getAlignedSize a size0 in
  let used := m64 (a_used a - size) in
  let fb := map_insert addr size (a_free a) in
  (* coalesce with the right neighbour; [it] is (addr, cur) *)
  let '(cur, fb) :=
    match map_next addr fb with
    | Some (nk, nv) =>
        if m64 (addr + size) =? nk
        then (m64 (size + nv), map_erase nk (map_insert addr (m64 (size + nv)) fb))
        else (size, fb)
    | None => (size, fb)
    end in
  (* coalesce with the left neighbour; [it] moves to it *)
  let '(itk, its, fb) :=
    match map_prev addr fb with
    | Some (pk, pv) =>
        if m64 (pk + pv) =? addr
        then (pk, m64 (pv + cur), map_erase addr (map_insert pk (m64 (pv + cur)) fb))
        else (addr, cur, fb)
    | None => (addr, cur, fb)
    end in
  (* tail reclamation *)
  if m64 (itk + its) =? a_peak a
  then Some (mkAllocator used (m64 (a_peak a - its)) (a_alignment a) None (map_erase itk fb))
  else Some (mkAllocator used (a_peak a) (a_alignment a) None fb)
  end.

Definition getPtr (a : Allocator) : Allocator :=
  match a_ptr a with
  | Some _ => a
  | None => mkAllocator (a_used a) (a_peak a) (a_alignment a) (Some (a_peak a)) (a_free a)
  end.

(** A call sequence issued by a client, with the offsets [alloc] returns. *)
Inductive AllocCall := CAlloc (size : Z) | CFree (addr size : Z).

Fixpoint run_calls (a : Allocator) (cs : list AllocCall) : option (list Z * Allocator) :=
  match cs with
  | [] => Some ([], a)
  | CAlloc s :: r =>
      match alloc a s with
      | None => None
      | Some (off, a') =>
          match run_calls a' r with
          | None => None
          | Some (offs, a'') => Some (off :: offs, a'')
          end
      end
  | CFree ad s :: r =>
      match free a ad s with
      | None => None
      | Some a' => run_calls a' r
      end
  end.

(** [std::map] representation invariant: strictly increasing keys. *)
Fixpoint keys_sorted (m : FreeMap) : bool :=
  match m with
  | [] => true
  | (k, _) :: r =>
      match r with
      | [] => true
      | (k', _) :: _ => (k <? k') && keys_sorted r
      end
  end.

Definition in_size_t (x : Z) : bool := (0 <=? x) && (x <? W64).

(** Every field holds a [size_t] value and [free_blocks] is a map. *)
Definition alloc_wf (a : Allocator) : bool :=
  in_size_t (a_used a) && in_size_t (a_peak a) && (a_alignment a =? 8)
  && keys_sorted (a_free a)
  && forallb (fun kv => in_size_t (fst kv) && in_size_t (snd kv)) (a_free a).

(* ------------------------------------------------------------------ *)
(** ** Tensors, operators and the graph (core/tensor.h, core/graph.h)

    Objects live in two heaps keyed by identity; the graph's [tensors] and
    [ops] vectors list identities. All edges are identities, so a shared
    object is updated in one place and every holder sees the change. *)

Inductive OpType :=
| OTranspose (permute : list Z)
| OMatMul (mm : MatmulObj)
| ORelu
| OConcat (dim : Z)
| OOther.

Record TensorObj := mkTensor {
  t_id : nat;
  t_fuid : Z;
  t_shape : Shape;
  t_size : Z;          (** cached element count [_size] *)
  t_dsize : Z;         (** [dtype.getSize()] *)
  t_source : option nat;
  t_targets : list nat;
  t_data : option Z    (** blob: offset from the allocator's base pointer *)
}.

Record OperatorObj := mkOp {
  o_id : nat;
  o_type : OpType;
  o_inputs : list nat;
  o_outputs : list nat;
  o_preds : list nat;
  o_succs : list nat
}.

Record GraphObj := mkGraph {
  g_theap : list TensorObj;
  g_oheap : list OperatorObj;
  g_tensors : list nat;
  g_ops : list nat;
  g_allocator : Allocator;
  g_sorted : bool
}.

Definition lookup_t (g : GraphObj) (i : nat) : option TensorObj :=
  find (fun t => Nat.eqb (t_id t) i) (g_theap g).
Definition lookup_o (g : GraphObj) (i : nat) : option OperatorObj :=
  find (fun o => Nat.eqb (o_id o) i) (g_oheap g).

Definition upd_t (i : nat) (f : TensorObj -> TensorObj) (g : GraphObj) : GraphObj :=
  mkGraph (map (fun t => if Nat.eqb (t_id t) i then f t else t) (g_theap g))
          (g_oheap g) (g_tensors g) (g_ops g) (g_allocator g) (g_sorted g).
Definition upd_o (i : nat) (f : OperatorObj -> OperatorObj) (g : GraphObj) : GraphObj :=
  mkGraph (g_theap g) (map (fun o => if Nat.eqb (o_id o) i then f o else o) (g_oheap g))
          (g_tensors g) (g_ops g) (g_allocator g) (g_sorted g).

Definition source_of g t := match lookup_t g t with Some r => t_source r | None => None end.
Definition targets_of g t := match lookup_t g t with Some r => t_targets r | None => [] end.
Definition fuid_of g t := match lookup_t g t with Some r => t_fuid r | None => 0 end.
Definition data_of g t := match lookup_t g t with Some r => t_data r | None => None end.
Definition getBytes (r : TensorObj) : Z := m64 (t_size r * t_dsize r).
Definition bytes_of g t := match lookup_t g t with Some r => getBytes r | None => 0 end.
Definition shape_of g t := match lookup_t g t with Some r => t_shape r | None => [] end.
Definition type_of g o := match lookup_o g o with Some r => Some (o_type r) | None => None end.
Definition inputs_of g o := match lookup_o g o with Some r => o_inputs r | None => [] end.
Definition outputs_of g o := match lookup_o g o with Some r => o_outputs r | None => [] end.
Definition preds_of g o := match lookup_o g o with Some r => o_preds r | None => [] end.
Definition succs_of g o := match lookup_o g o with Some r => o_succs r | None => [] end.

(** [TensorObj::addTarget], [setSource], [removeTarget] (tensor.h),
    [setDataBlob]. *)
Definition addTarget (op : nat) (t : TensorObj) : TensorObj :=
  mkTensor (t_id t) (t_fuid t) (t_shape t) (t_size t) (t_dsize t) (t_source t)
           (t_targets t ++ [op]) (t_data t).
Definition setSource (op : nat) (t : TensorObj) : TensorObj :=
  mkTensor (t_id t) (t_fuid t) (t_shape t) (t_size t) (t_dsize t) (Some op)
           (t_targets t) (t_data t).
Definition removeTarget (op : nat) (t : TensorObj) : TensorObj :=
  mkTensor (t_id t) (t_fuid t) (t_shape t) (t_size t) (t_dsize t) (t_source t)
           (filter (fun x => negb (Nat.eqb x op)) (t_targets t)) (t_data t).
Definition setDataBlob (off : Z) (t : TensorObj) : TensorObj :=
  mkTensor (t_id t) (t_fuid t) (t_shape t) (t_size t) (t_dsize t) (t_source t)
           (t_targets t) (Some off).

(** Modelled from the spec: [OperatorObj::addPredecessors],
    [addSuccessors], [removePredecessors], [removeSuccessors] and
    [replaceInput] (core/operator.cc is not among the sources). Adding appends;
    removing drops every entry equal to the operator, as [removeTarget] does;
    [replace_input(old, new)] substitutes every occurrence of [old]. *)
Definition addPredecessors (p : nat) (o : OperatorObj) : OperatorObj :=
  mkOp (o_id o) (o_type o) (o_inputs o) (o_outputs o) (o_preds o ++ [p]) (o_succs o).
Definition addSuccessors (s : nat) (o : OperatorObj) : OperatorObj :=
  mkOp (o_id o) (o_type o) (o_inputs o) (o_outputs o) (o_preds o) (o_succs o ++ [s]).
Definition removePredecessors (p : nat) (o : OperatorObj) : OperatorObj :=
  mkOp (o_id o) (o_type o) (o_inputs o) (o_outputs o)
       (filter (fun x => negb (Nat.eqb x p)) (o_preds o)) (o_succs o).
Definition removeSuccessors (s : nat) (o : OperatorObj) : OperatorObj :=
  mkOp (o_id o) (o_type o) (o_inputs o) (o_outputs o) (o_preds o)
       (filter (fun x => negb (Nat.eqb x s)) (o_succs o)).
Definition replaceInput (t1 t2 : nat) (o : OperatorObj) : OperatorObj :=
  mkOp (o_id o) (o_type o) (map (fun x => if Nat.eqb x t1 then t2 else x) (o_inputs o))
       (o_outputs o) (o_preds o) (o_succs o).
Definition setType (ty : OpType) (o : OperatorObj) : OperatorObj :=
  mkOp (o_id o) ty (o_inputs o) (o_outputs o) (o_preds o) (o_succs o).

(** [removeOperator] / [removeTensor]: erase the first occurrence. *)
Fixpoint remove_first (x : nat) (l : list nat) : list nat :=
  match l with
  | [] => []
  | y :: r => if Nat.eqb y x then r else y :: remove_first x r
  end.

Definition removeOperator (o : nat) (g : GraphObj) : GraphObj :=
  mkGraph (g_theap g) (g_oheap g) (g_tensors g) (remove_first o (g_ops g))
          (g_allocator g) (g_sorted g).
Definition removeTensor (t : nat) (g : GraphObj) : GraphObj :=
  mkGraph (g_theap g) (g_oheap g) (remove_first t (g_tensors g)) (g_ops g)
          (g_allocator g) (g_sorted g).

(** [GraphObj(runtime)]. *)
Definition new_graph : GraphObj := mkGraph [] [] [] [] new_allocator false.

(** Modelled from the spec: the [TensorObj] constructor (core/tensor.cc is
    not among the sources): [_size] caches the product of the extents; the
    new tensor has no source, no targets and no data. *)
Definition make_tensor (id : nat) (fuid : Z) (shape : Shape) (dsize : Z) : TensorObj :=
  mkTensor id fuid shape (m64 (fold_left Z.mul shape 1)) dsize None [] None.

(** [GraphObj::addTensor(Shape, DataType)]: the new object gets identity
    [id] and functional id [fuid] from the global counters. *)
Definition addTensor (id : nat) (fuid : Z) (shape : Shape) (dsize : Z) (g : GraphObj)
  : GraphObj :=
  mkGraph (g_theap g ++ [make_tensor id fuid shape dsize]) (g_oheap g)
          (g_tensors g ++ [id]) (g_ops g) (g_allocator g) (g_sorted g).

(** [GraphObj::addOperatorAndConnect]. *)
Definition addOperatorAndConnect (op : OperatorObj) (g : GraphObj) : GraphObj :=
  let me := o_id op in
  let g := mkGraph (g_theap g) (g_oheap g ++ [op]) (g_tensors g) (g_ops g ++ [me])
                   (g_allocator g) false in
  let g := fold_left
             (fun g input =>
                let g := upd_t input (addTarget me) g in
                match source_of g input with
                | Some pred => upd_o me (addPredecessors pred) (upd_o pred (addSuccessors me) g)
                | None => g
                end)
             (o_inputs op) g in
  fold_left
    (fun g output =>
       let g := upd_t output (setSource me) g in
       fold_left (fun g succ => upd_o me (addSuccessors succ) (upd_o succ (addPredecessors me) g))
                 (targets_of g output) g)
    (o_outputs op) g.

(** A fresh operator, as its constructor leaves it before it is connected. *)
Definition make_op (id : nat) (ty : OpType) (ins outs : list nat) : OperatorObj :=
  mkOp id ty ins outs [] [].

(* ------------------------------------------------------------------ *)
(** ** [GraphObj::topo_sort]

    [flags] holds exactly the operators already appended to [sorted], so
    membership in [sorted] stands for it. Every pass of the [while] loop
    either places an operator or returns [false], so at most [|ops|] passes
    run; the fuel [|ops| + 1] is never the reason for a [None] on a graph
    the loop sorts (theorem [topo_sort_spec]). *)

Definition memb (x : nat) (l : list nat) : bool := existsb (Nat.eqb x) l.

Definition topo_ready (g : GraphObj) (sorted : list nat) (op : nat) : bool :=
  negb (memb op sorted)
  && forallb (fun input => match source_of g input with
                           | None => true
                           | Some p => memb p sorted
                           end) (inputs_of g op).

Fixpoint topo_pass (g : GraphObj) (l : list nat) (sorted : list nat) (modified : bool)
  : list nat * bool :=
  match l with
  | [] => (sorted, modified)
  | op :: r =>
      if topo_ready g sorted op then topo_pass g r (sorted ++ [op]) true
      else topo_pass g r sorted modified
  end.

Fixpoint topo_loop (g : GraphObj) (fuel : nat) (sorted : list nat) : option (list nat) :=
  match fuel with
  | O => None
  | S f =>
      if (length sorted <? length (g_ops g))%nat then
        let '(sorted', modified) := topo_pass g (g_ops g) sorted false in
        if modified then topo_loop g f sorted' else None
      else Some sorted
  end.

Definition topo_sort (g : GraphObj) : option GraphObj :=
  if g_sorted g then Some g else
  match topo_loop g (S (length (g_ops g))) [] with
  | Some s => Some (mkGraph (g_theap g) (g_oheap g) (g_tensors g) s (g_allocator g) true)
  | None => None
  end.

(* ------------------------------------------------------------------ *)
(** ** [GraphObj::optimize] *)

(** [perm[i]] with an [int] index; out-of-range reads are undefined in the
    source and count as a mismatch here. *)
Definition znth (l : list Z) (z : Z) : option Z :=
  if z <? 0 then None else nth_error l (Z.to_nat z).

(** The [isIdentity] loop: [perm2[perm1[i]] == i] for every [i]. *)
Definition isIdentity (perm1 perm2 : list Z) : bool :=
  forallb (fun i => match nth_error perm1 i with
                    | Some p => match znth perm2 p with
                                | Some q => q =? Z.of_nat i
                                | None => false
                                end
                    | None => false
                    end) (seq 0 (length perm1)).

(** The [isSwapLastTwo] check. *)
Definition isSwapLastTwo (perm : list Z) : bool :=
  let rank := length perm in
  if (rank <? 2)%nat then false
  else (nth (rank - 1) perm 0 =? Z.of_nat rank - 2)
       && (nth (rank - 2) perm 0 =? Z.of_nat rank - 1)
       && forallb (fun i => nth i perm 0 =? Z.of_nat i) (seq 0 (rank - 2)).

Definition transpose_source (g : GraphObj) (t : nat) : option (nat * list Z) :=
  match source_of g t with
  | Some p => match type_of g p with
              | Some (OTranspose perm) => Some (p, perm)
              | _ => None
              end
  | None => None
  end.

(** Rule T1 at [op]: [Some (transOp1, grandInput, t_out)] when [op] is a
    Transpose whose input [t_mid] comes from a Transpose, the permutations
    cancel, and [t_mid] has one target. ([getInputs(0)] / [getOutputs()[0]]
    of an operator without one are out of bounds.) *)
Definition t1_match (g : GraphObj) (op : nat) : option (nat * nat * nat) :=
  match type_of g op with
  | Some (OTranspose perm2) =>
      match inputs_of g op with
      | input :: _ =>
          match transpose_source g input with
          | Some (transOp1, perm1) =>
              if (length perm1 =? length perm2)%nat && isIdentity perm1 perm2
                 && (length (targets_of g input) =? 1)%nat
              then match inputs_of g transOp1, outputs_of g op with
                   | grandInput :: _, t_out :: _ => Some (transOp1, grandInput, t_out)
                   | _, _ => None
                   end
              else None
          | None => None
          end
      | [] => None
      end
  | _ => None
  end.

(** Removal of the first output of [o] from [graph.tensors]
    ([removeTensor(o->getOutput())]). *)
Definition removeOutputOf (o : nat) (g : GraphObj) : GraphObj :=
  match outputs_of g o with
  | t :: _ => removeTensor t g
  | [] => g
  end.

(** The body of the loop over [grandoutput[0]->getTargets()] (lines
    183-195), for one consumer [nextOp]; [gis] is [grandInputSource]. *)
Definition t1_reconnect (gis : option nat) (transOp2 grandInput t_out : nat)
  (g : GraphObj) (nextOp : nat) : GraphObj :=
  let g := upd_o nextOp (replaceInput t_out grandInput) g in
  let g := upd_t grandInput (addTarget nextOp) g in
  let g := upd_t t_out (removeTarget nextOp) g in
  let g := upd_o nextOp (removePredecessors transOp2) g in
  match gis with
  | Some p => upd_o p (addSuccessors nextOp) (upd_o nextOp (addPredecessors p) g)
  | None => g
  end.

(** The rewrite of rule T1 (lines 174-201). [getTargets()] returns a copy,
    so the loop runs over the targets as they were before it. *)
Definition apply_T1 (g : GraphObj) (transOp1 transOp2 grandInput t_out : nat)
  : GraphObj :=
  let gis := source_of g grandInput in
  let g := match gis with
           | Some p => upd_o p (removeSuccessors transOp1) g
           | None => g
           end in
  let g := fold_left (t1_reconnect gis transOp2 grandInput t_out) (targets_of g t_out) g in
  let g := upd_t grandInput (removeTarget transOp1) g in
  let g := removeOutputOf transOp1 g in
  let g := removeOutputOf transOp2 g in
  removeOperator transOp2 (removeOperator transOp1 g).

(** What one [t1_reconnect] step does to the operator object [j] and to
    the tensor object [j]. *)
Definition t1_op_step (gis : option nat) (transOp2 grandInput t_out nextOp j : nat)
  (r : OperatorObj) : OperatorObj :=
  let r := if Nat.eqb nextOp j
           then removePredecessors transOp2 (replaceInput t_out grandInput r) else r in
  match gis with
  | Some p =>
      let r := if Nat.eqb nextOp j then addPredecessors p r else r in
      if Nat.eqb p j then addSuccessors nextOp r else r
  | None => r
  end.

Definition t1_tensor_step (grandInput t_out nextOp j : nat) (r : TensorObj) : TensorObj :=
  let r := if Nat.eqb grandInput j then addTarget nextOp r else r in
  if Nat.eqb t_out j then removeTarget nextOp r else r.

Definition toggle (isA : bool) (mm : MatmulObj) : MatmulObj :=
  if isA then mkMatmul (negb (transA mm)) (transB mm) (mm_m mm) (mm_n mm) (mm_k mm)
  else mkMatmul (transA mm) (negb (transB mm)) (mm_m mm) (mm_n mm) (mm_k mm).

(** The fusion of a Transpose into input A ([isA]) or B of a MatMul
    (lines 248-272 and 309-333). *)
Definition fuse_transpose (isA : bool) (g : GraphObj) (matmulOp : nat) (mm : MatmulObj)
  (transOp intermediateTensor : nat) : GraphObj :=
  let g := upd_o matmulOp (setType (OMatMul (toggle isA mm))) g in
  match inputs_of g transOp with
  | [] => g
  | transInput :: _ =>
      let tis := source_of g transInput in
      let g := upd_o matmulOp (replaceInput intermediateTensor transInput) g in
      let g := upd_t transInput (addTarget matmulOp) g in
      let g := upd_t transInput (removeTarget transOp) g in
      let g := upd_t intermediateTensor (removeTarget matmulOp) g in
      let g := match tis with Some p => upd_o p (removeSuccessors transOp) g | None => g end in
      let g := upd_o matmulOp (removePredecessors transOp) g in
      let g := match tis with
               | Some p => upd_o matmulOp (addPredecessors p) (upd_o p (addSuccessors matmulOp) g)
               | None => g
               end in
      removeOperator transOp (removeTensor intermediateTensor g)
  end.

(** The MatMul branch at [op]: [Some g'] when it ends the pass with
    [refined = true] (lines 213-337), [None] when it does not fire. Note
    that [refined = true; break;] follows the fusion's [if], so the branch
    fires, with [g' = g], whenever the input's producer is a Transpose. *)
Definition matmul_step (g : GraphObj) (op : nat) : option GraphObj :=
  match type_of g op with
  | Some (OMatMul mm) =>
      match inputs_of g op with
      | a :: b :: _ =>
          match transpose_source g a with
          | Some (transOpA, permA) =>
              Some (if isSwapLastTwo permA && (length (targets_of g a) =? 1)%nat
                    then fuse_transpose true g op mm transOpA a else g)
          | None =>
              match transpose_source g b with
              | Some (transOpB, permB) =>
                  Some (if isSwapLastTwo permB && (length (targets_of g b) =? 1)%nat
                        then fuse_transpose false g op mm transOpB b else g)
              | None => None
              end
          end
      | _ => None
      end
  | _ => None
  end.

(** One pass of the [for] loop: [(refined, graph)]. *)
Fixpoint optimize_scan (g : GraphObj) (l : list nat) : bool * GraphObj :=
  match l with
  | [] => (false, g)
  | op :: r =>
      match t1_match g op with
      | Some (transOp1, grandInput, t_out) => (true, apply_T1 g transOp1 op grandInput t_out)
      | None =>
          match matmul_step g op with
          | Some g' => (true, g')
          | None => optimize_scan g r
          end
      end
  end.

(** The [do { ... } while (refined)] loop, run for at most [fuel] passes;
    [None] means the loop has not returned within [fuel] passes. *)
Fixpoint optimize (fuel : nat) (g : GraphObj) : option GraphObj :=
  match fuel with
  | O => None
  | S f =>
      let '(refined, g') := optimize_scan g (g_ops g) in
      if refined then optimize f g' else Some g'
  end.

(* ------------------------------------------------------------------ *)
(** ** [GraphObj::dataMalloc]

    [tensor_offset_map] is an association list from fuid to offset, newest
    binding first; a missing key reads as 0 ([operator[]]). *)

Fixpoint alloc_tensors (g : GraphObj) (a : Allocator) (ts : list nat)
  (m : list (Z * Z)) : option (Allocator * list (Z * Z)) :=
  match ts with
  | [] => Some (a, m)
  | t :: r =>
      match alloc a (bytes_of g t) with
      | None => None
      | Some (off, a') => alloc_tensors g a' r ((fuid_of g t, off) :: m)
      end
  end.

Definition offset_lookup (m : list (Z * Z)) (fuid : Z) : Z :=
  match find (fun kv => fst kv =? fuid) m with
  | Some (_, off) => off
  | None => 0
  end.

Definition dataMalloc (g : GraphObj) : option GraphObj :=
  match topo_sort g with
  | None => None
  | Some g =>
      match alloc_tensors g (g_allocator g) (g_tensors g) [] with
      | None => None
      | Some (a, m) =>
          let a := getPtr a in
          let g := mkGraph (g_theap g) (g_oheap g) (g_tensors g) (g_ops g) a (g_sorted g) in
          Some (fold_left (fun g t => upd_t t (setDataBlob (offset_lookup m (fuid_of g t))) g)
                          (g_tensors g) g)
      end
  end.

(* ------------------------------------------------------------------ *)
(** ** Concrete graphs built through [addTensor] and
    [addOperatorAndConnect] (outputs are created before the operator, as
    [addOp] does through the operator's [checkValid]). Extents are [int],
    element size 4 ([Float32]). *)

Section Scenarios.
Local Open Scope nat_scope.

Definition build (steps : list (GraphObj -> GraphObj)) : GraphObj :=
  fold_left (fun g f => f g) steps new_graph.

(** X[4,3,2] -> Transpose([2,1,0]) -> T1 -> Transpose([2,1,0]) -> Y -> Relu -> Z. *)
Definition g_cancel : GraphObj :=
  build [addTensor 0 0%Z [4;3;2]%Z 4%Z; addTensor 1 1%Z [2;3;4]%Z 4%Z;
         addTensor 2 2%Z [4;3;2]%Z 4%Z; addTensor 3 3%Z [4;3;2]%Z 4%Z;
         addOperatorAndConnect (make_op 10 (OTranspose [2;1;0]%Z) [0] [1]);
         addOperatorAndConnect (make_op 11 (OTranspose [2;1;0]%Z) [1] [2]);
         addOperatorAndConnect (make_op 12 ORelu [2] [3])].

(** X[2,3] -> T([1,0]) -> A -> T([1,0]) -> B -> T([1,0]) -> C -> Relu -> Z. *)
Definition g_chain : GraphObj :=
  build [addTensor 0 0%Z [2;3]%Z 4%Z; addTensor 1 1%Z [3;2]%Z 4%Z; addTensor 2 2%Z [2;3]%Z 4%Z;
         addTensor 3 3%Z [3;2]%Z 4%Z; addTensor 4 4%Z [3;2]%Z 4%Z;
         addOperatorAndConnect (make_op 10 (OTranspose [1;0]%Z) [0] [1]);
         addOperatorAndConnect (make_op 11 (OTranspose [1;0]%Z) [1] [2]);
         addOperatorAndConnect (make_op 12 (OTranspose [1;0]%Z) [2] [3]);
         addOperatorAndConnect (make_op 13 ORelu [3] [4])].

(** X[2,3,4] -> Transpose([1,0,2]) -> T[3,2,4]; MatMul(T, W[4,5]) -> Y[3,2,5]. *)
Definition g_noswap : GraphObj :=
  build [addTensor 0 0%Z [2;3;4]%Z 4%Z; addTensor 1 1%Z [3;2;4]%Z 4%Z;
         addTensor 2 2%Z [4;5]%Z 4%Z; addTensor 3 3%Z [3;2;5]%Z 4%Z;
         addOperatorAndConnect (make_op 10 (OTranspose [1;0;2]%Z) [0] [1]);
         addOperatorAndConnect (make_op 11 (OMatMul (mkMatmul false false 0%Z 0%Z 0%Z)) [1;2] [3])].

(** X[3,4] -> Transpose([1,0]) -> X_t[4,3]; MatMul(X_t, W[3,5]) -> Y[4,5]. *)
Definition g_fuse : GraphObj :=
  build [addTensor 0 0%Z [3;4]%Z 4%Z; addTensor 1 1%Z [4;3]%Z 4%Z;
         addTensor 2 2%Z [3;5]%Z 4%Z; addTensor 3 3%Z [4;5]%Z 4%Z;
         addOperatorAndConnect (make_op 10 (OTranspose [1;0]%Z) [0] [1]);
         addOperatorAndConnect (make_op 11 (OMatMul (mkMatmul false false 0%Z 0%Z 0%Z)) [1;2] [3])].

(** Two operators whose outputs feed each other's inputs. *)
Definition g_cycle : GraphObj :=
  build [addTensor 0 0%Z [2]%Z 4%Z; addTensor 1 1%Z [2]%Z 4%Z;
         addOperatorAndConnect (make_op 10 ORelu [0] [1]);
         addOperatorAndConnect (make_op 11 ORelu [1] [0])].

End Scenarios.

(* ------------------------------------------------------------------ *)
(** ** Broadcasting as the spec words it (section 4.1), for comparison
    with [infer_broadcast]: right-align the shapes (here: reverse them, so
    the last axes come first), treat missing leading axes as 1, and combine
    aligned pairs with [bcast_dim]. *)

Fixpoint bcast_aligned (n : nat) (ra rb : list Z) : option (list Z) :=
  match n with
  | O => Some []
  | S n' =>
      match bcast_dim (hd 1 ra) (hd 1 rb), bcast_aligned n' (tl ra) (tl rb) with
      | Some d, Some r => Some (d :: r)
      | _, _ => None
      end
  end.

Definition broadcast_spec (A B : Shape) : option Shape :=
  option_map (@rev Z) (bcast_aligned (Nat.max (length A) (length B)) (rev A) (rev B)).

(** Spec-side compatibility of a concat input with the first input:
    same rank and equal extents off the concat axis. *)
Definition concat_compatible (dim : Z) (s0 si : Shape) : bool :=
  (length si =? length s0)%nat
  && forallb (fun j => (Z.of_nat j =? dim) || (nth j si 0 =? nth j s0 0))
             (seq 0 (length s0)).

(** The effect of one rule-T1 rewrite as the spec words it, for [g'] the
    graph after it: both transposes and [t_mid], [t_out] leave the graph,
    every consumer of [t_out] reads [t_in] instead, [t_in] trades
    [transOp1] for those consumers, the consumers trade [transOp2] for
    [t_in]'s producer, and the producer trades [transOp1] for them. *)
Definition T1_rewritten (g : GraphObj) (o1 o2 t_in t_mid t_out : nat) (g' : GraphObj) : Prop :=
  (forall o, In o (g_ops g') <-> In o (g_ops g) /\ o <> o1 /\ o <> o2)
  /\ (forall t, In t (g_tensors g') <-> In t (g_tensors g) /\ t <> t_mid /\ t <> t_out)
  /\ (forall o, inputs_of g' o
              = if memb o (targets_of g t_out)
                then map (fun x => if Nat.eqb x t_out then t_in else x) (inputs_of g o)
                else inputs_of g o)
  /\ targets_of g' t_in
     = filter (fun x => negb (Nat.eqb x o1)) (targets_of g t_in ++ targets_of g t_out)
  /\ (forall c, In c (targets_of g t_out) ->
        ~ In o2 (preds_of g' c)
        /\ (forall p, source_of g t_in = Some p -> In p (preds_of g' c)))
  /\ (forall p, source_of g t_in = Some p ->
        succs_of g' p = filter (fun x => negb (Nat.eqb x o1)) (succs_of g p) ++ targets_of g t_out).

(** The operator dependency relation of [topo_sort]: [p] produces an
    input of the operator [o] of [graph.ops]; and the order property of a
    list of operators: every dependency of an entry sits at a smaller
    index. *)
Definition topo_dep (g : GraphObj) (p o : nat) : Prop :=
  In o (g_ops g) /\ exists t, In t (inputs_of g o) /\ source_of g t = Some p.

Definition topo_ordered (g : GraphObj) (s : list nat) : Prop :=
  forall k o, nth_error s k = Some o ->
  forall p, topo_dep g p o -> exists k', (k' < k)%nat /\ nth_error s k' = Some p.

(** Sum of the aligned byte sizes of the tensors [ts] on an allocator of
    alignment 8; and the (fuid, offset) pairs of tensors laid out one
    after the other from offset [p]. *)
Definition sum_aligned (g : GraphObj) (ts : list nat) : Z :=
  fold_right Z.add 0 (map (fun t => getAlignedSize new_allocator (bytes_of g t)) ts).

Fixpoint tail_layout (g : GraphObj) (p : Z) (ts : list nat) : list (Z * Z) :=
  match ts with
  | [] => []
  | t :: r => (fuid_of g t, p) :: tail_layout g (p + getAlignedSize new_allocator (bytes_of g t)) r
  end.

(** The invariant of the [while] loop of [topo_sort] on [sorted]: no
    duplicates, only operators of the graph, in dependency order. *)
Definition topo_inv (g : GraphObj) (s : list nat) : Prop :=
  NoDup s /\ incl s (g_ops g) /\ topo_ordered g s.

(** [w] is a walk of [R]: each entry is [R]-related to the next. *)
Fixpoint chain (R : nat -> nat -> Prop) (w : list nat) : Prop :=
  match w with
  | a :: ((b :: _) as r) => R a b /\ chain R r
  | _ => True
  end.

(* ------------------------------------------------------------------ *)
(** ** Further embedded functions, helpers and proof invariants *)

(** [get_real_axis(axis, rank)] (operator_utils): both [IT_ASSERT]s
    ([rank >= 1], [-rank <= axis <= rank - 1]) fail as [None]; a negative
    axis is shifted by [rank]. *)
Definition get_real_axis (axis rank : Z) : option Z :=
  if negb (rank >=? 1) then None
  else if negb ((axis >=? - rank) && (axis <=? rank - 1)) then None
  else if axis <? 0 then Some (rank + axis) else Some axis.

(** The axis stored by the [ConcatObj] constructor:
    [int rank = inputs[0]->getRank()] (a [size_t] converted to [int]) and
    [dim = get_real_axis(_dim, rank)]; [inputs[0]] of an empty vector is
    out of bounds. *)
Definition concat_ctor_dim (_dim : Z) (inputs : list Shape) : option Z :=
  match inputs with
  | [] => None
  | s0 :: _ => get_real_axis _dim (wrap32 (Z.of_nat (length s0)))
  end.

(** [locate_index(inputN, shape)], walking [shape] from the last axis
    ([rbegin]): [std::div(inputN, *j)] with a [size_t] and an [int]
    argument resolves to the [div(int, int)] overload (the second argument
    matches exactly), so [inputN] is converted to [int] first; the quotient
    is stored back into the [size_t] [inputN] and the remainder is the
    coordinate. A zero extent is a division by zero. [locate_rev] takes the
    reversed shape and returns the reversed coordinates. *)
Fixpoint locate_rev (inputN : Z) (rshape : list Z) : option (list Z) :=
  match rshape with
  | [] => Some []
  | d :: r =>
      if d =? 0 then None else
      let n := wrap32 inputN in
      match locate_rev (m64 (wrap32 (Z.quot n d))) r with
      | Some l => Some (Z.rem n d :: l)
      | None => None
      end
  end.

(** [locate_index]: coordinates in axis order. *)
Definition locate_index (inputN : Z) (shape : Shape) : option Shape :=
  option_map (@rev Z) (locate_rev inputN (rev shape)).

(** [delocate_index(shapeIndex, shape, stride)]: after the two size
    [IT_ASSERT]s, [ans += (shapeIndex[i] % shape[i]) * stride[i]] over the
    axes, the [int] product added to the [size_t] accumulator. A zero
    extent is a division by zero. *)
Definition delocate_index (shapeIndex shape stride : Shape) : option Z :=
  if negb (length shapeIndex =? length shape)%nat then None else
  if negb (length shape =? length stride)%nat then None else
  fold_left
    (fun acc i =>
       match acc with
       | None => None
       | Some ans =>
           let s := nth i shape 0 in
           if s =? 0 then None else
           let idx := Z.rem (nth i shapeIndex 0) s in
           Some (m64 (ans + wrap32 (idx * nth i stride 0)))
       end)
    (seq 0 (length shape)) (Some 0).

(** Helper, not source code: the number of elements of a shape. *)
Definition shape_prod (s : Shape) : Z := fold_right Z.mul 1 s.

(** Helper, not source code: the strides of a contiguous row-major
    tensor of the given shape (each axis' stride is the product of the
    later extents), the input for which [delocate_index] inverts
    [locate_index]. *)
Fixpoint row_major_strides (shape : Shape) : Shape :=
  match shape with
  | [] => []
  | _ :: r => shape_prod r :: row_major_strides r
  end.

(** Proof helper: the linear index of reversed coordinates [ri] in the
    reversed shape [rs]. *)
Fixpoint horner (ri rs : list Z) : Z :=
  match ri, rs with
  | i :: ri', d :: rs' => i + d * horner ri' rs'
  | _, _ => 0
  end.

(** Proof helper: [sum_i I[i] * T[i]], the value [delocate_index]
    accumulates. *)
Fixpoint lin3 (I S T : list Z) : Z :=
  match I, S, T with
  | i :: I', _ :: S', t :: T' => i * t + lin3 I' S' T'
  | _, _, _ => 0
  end.

(** [GraphObj::getTensor(fuid)]: the first tensor of [tensors] with
    that functional id, or [nullptr]. *)
Definition getTensor (g : GraphObj) (fuid : Z) : option nat :=
  find (fun t => fuid_of g t =? fuid) (g_tensors g).

(** [GraphObj::getInputs]: the tensors without a source, in order. *)
Definition getInputs (g : GraphObj) : list nat :=
  filter (fun t => match source_of g t with None => true | Some _ => false end) (g_tensors g).

(** [GraphObj::getOutputs]: the tensors without targets, in order. *)
Definition getOutputs (g : GraphObj) : list nat :=
  filter (fun t => match targets_of g t with [] => true | _ :: _ => false end) (g_tensors g).

(** The last loop of [GraphObj::checkValid]: the set [s] of functional
    ids seen so far; a repeated id fails the [IT_ASSERT]. *)
Definition fuid_scan (g : GraphObj) (ts : list nat) (s : list Z) : option (list Z) :=
  fold_left (fun acc t =>
               match acc with
               | None => None
               | Some s => if existsb (Z.eqb (fuid_of g t)) s then None
                           else Some (fuid_of g t :: s)
               end) ts (Some s).

(** [GraphObj::checkValid]: its [IT_ASSERT]s, each failure as [false]:
    no tensor without both source and targets, a tensor's targets and
    source are in [ops], an operator's inputs and outputs are in [tensors],
    its predecessors and successors are in [ops], and functional ids are
    pairwise distinct. *)
Definition checkValid (g : GraphObj) : bool :=
  forallb (fun t =>
             negb ((length (targets_of g t) =? 0)%nat
                   && match source_of g t with None => true | Some _ => false end)
             && forallb (fun op => memb op (g_ops g)) (targets_of g t)
             && match source_of g t with Some op => memb op (g_ops g) | None => true end)
          (g_tensors g)
  && forallb (fun op =>
                forallb (fun t => memb t (g_tensors g)) (inputs_of g op)
                && forallb (fun t => memb t (g_tensors g)) (outputs_of g op)
                && forallb (fun p => memb p (g_ops g)) (preds_of g op)
                && forallb (fun s => memb s (g_ops g)) (succs_of g op))
             (g_ops g)
  && match fuid_scan g (g_tensors g) [] with Some _ => true | None => false end.

(** The body of the input loop of [addOperatorAndConnect] for one
    input tensor. *)
Definition connect_input (me : nat) (g : GraphObj) (input : nat) : GraphObj :=
  let g := upd_t input (addTarget me) g in
  match source_of g input with
  | Some pred => upd_o me (addPredecessors pred) (upd_o pred (addSuccessors me) g)
  | None => g
  end.

(** The body of the inner loop over [output->getTargets()] of
    [addOperatorAndConnect]. *)
Definition connect_succ (me : nat) (g : GraphObj) (succ : nat) : GraphObj :=
  upd_o me (addSuccessors succ) (upd_o succ (addPredecessors me) g).

(** The body of the output loop of [addOperatorAndConnect] for one
    output tensor. *)
Definition connect_output (me : nat) (g : GraphObj) (output : nat) : GraphObj :=
  let g := upd_t output (setSource me) g in
  fold_left (connect_succ me) (targets_of g output) g.

(** Propositional reading of [checkValid]. *)
Definition graph_valid (g : GraphObj) : Prop :=
  (forall t, In t (g_tensors g) -> targets_of g t <> [] \/ source_of g t <> None)
  /\ (forall t o, In t (g_tensors g) -> In o (targets_of g t) -> In o (g_ops g))
  /\ (forall t p, In t (g_tensors g) -> source_of g t = Some p -> In p (g_ops g))
  /\ (forall o t, In o (g_ops g) -> In t (inputs_of g o) -> In t (g_tensors g))
  /\ (forall o t, In o (g_ops g) -> In t (outputs_of g o) -> In t (g_tensors g))
  /\ (forall o p, In o (g_ops g) -> In p (preds_of g o) -> In p (g_ops g))
  /\ (forall o s, In o (g_ops g) -> In s (succs_of g o) -> In s (g_ops g))
  /\ NoDup (map (fuid_of g) (g_tensors g)).

(** Proof invariant of the connection loops of [addOperatorAndConnect]:
    the id lists and inputs/outputs are untouched and every edge added
    stays inside the graph. *)
Definition connect_inv (G1 gc : GraphObj) : Prop :=
  g_tensors gc = g_tensors G1 /\ g_ops gc = g_ops G1
  /\ (forall t, fuid_of gc t = fuid_of G1 t)
  /\ (forall t, incl (targets_of G1 t) (targets_of gc t))
  /\ (forall t, source_of G1 t <> None -> source_of gc t <> None)
  /\ (forall t o, In t (g_tensors G1) -> In o (targets_of gc t) -> In o (g_ops G1))
  /\ (forall t p, In t (g_tensors G1) -> source_of gc t = Some p -> In p (g_ops G1))
  /\ (forall o, inputs_of gc o = inputs_of G1 o /\ outputs_of gc o = outputs_of G1 o)
  /\ (forall o p, In o (g_ops G1) -> In p (preds_of gc o) -> In p (g_ops G1))
  /\ (forall o s, In o (g_ops G1) -> In s (succs_of gc o) -> In s (g_ops G1)).

(** Proof helper: edges and heap objects are only ever added. *)
Definition graph_grows (gc gc' : GraphObj) : Prop :=
  (forall o, incl (preds_of gc o) (preds_of gc' o))
  /\ (forall o, incl (succs_of gc o) (succs_of gc' o))
  /\ (forall t, incl (targets_of gc t) (targets_of gc' t))
  /\ (forall o, lookup_o gc o <> None -> lookup_o gc' o <> None)
  /\ (forall t, lookup_t gc t <> None -> lookup_t gc' t <> None).

(** Modelled from the spec: the output shape of a Transpose with
    permutation [perm] ([out[i] = in[perm[i]]]); transpose.cc is not part
    of the sources. *)
Definition transpose_shape (perm : list Z) (s : Shape) : Shape :=
  map (fun p => nth (Z.to_nat p) s 0) perm.

(** Allocator client harness, not source code. A client keeps its live
    blocks as (offset, aligned size) pairs; [remove_block] drops the first
    occurrence of a block. *)
Fixpoint remove_block (b : Z * Z) (L : list (Z * Z)) : list (Z * Z) :=
  match L with
  | [] => []
  | b' :: r => if (fst b' =? fst b) && (snd b' =? snd b) then r else b' :: remove_block b r
  end.

(** Equality of blocks, as a boolean. *)
Definition block_eqb (b1 b2 : Z * Z) : bool := (fst b1 =? fst b2) && (snd b1 =? snd b2).

(** A well-behaved client of [Allocator]: it calls [alloc] and records
    the block it got, and only calls [free addr size] on a block it holds,
    with a size whose aligned size is the block's; any other [free] stops
    the run ([None]), as does a failing call. *)
Fixpoint client_run (a : Allocator) (L : list (Z * Z)) (cs : list AllocCall)
  : option (Allocator * list (Z * Z)) :=
  match cs with
  | [] => Some (a, L)
  | CAlloc s :: r =>
      match alloc a s with
      | None => None
      | Some (off, a') => client_run a' ((off, getAlignedSize a s) :: L) r
      end
  | CFree ad s :: r =>
      if existsb (block_eqb (ad, getAlignedSize a s)) L then
        match free a ad s with
        | None => None
        | Some a' => client_run a' (remove_block (ad, getAlignedSize a s) L) r
        end
      else None
  end.

(** The sum of the aligned sizes requested by the [alloc] calls. *)
Definition client_total (cs : list AllocCall) : Z :=
  fold_right (fun c acc => match c with CAlloc s => getAlignedSize new_allocator s + acc
                                       | CFree _ _ => acc end) 0 cs.

(** Byte [x] lies in the block (offset, size). *)
Definition in_block (b : Z * Z) (x : Z) : Prop := fst b <= x < fst b + snd b.

(** Total size of a list of blocks. *)
Definition sumsnd (L : list (Z * Z)) : Z := fold_right Z.add 0 (map snd L).

(** Two blocks do not overlap (an empty block overlaps nothing). *)
Definition disj (e1 e2 : Z * Z) : Prop :=
  snd e1 <= 0 \/ snd e2 <= 0 \/ fst e1 + snd e1 <= fst e2 \/ fst e2 + snd e2 <= fst e1.

(** Proof invariant of an allocator serving the live blocks [L] after
    requests whose aligned sizes add up to at most [T]. *)
Definition alloc_inv (a : Allocator) (L : list (Z * Z)) (T : Z) : Prop :=
  a_ptr a = None /\ a_alignment a = 8 /\ keys_sorted (a_free a) = true
  /\ 0 <= a_peak a <= T /\ T < W64
  /\ (forall e, In e (a_free a) ->
        0 <= fst e < W64 /\ 0 <= snd e /\ (0 < snd e -> fst e + snd e <= a_peak a))
  /\ (forall e1 e2, In e1 (a_free a) -> In e2 (a_free a) -> fst e1 <> fst e2 -> disj e1 e2)
  /\ (forall b, In b L ->
        0 <= fst b < W64 /\ 0 <= snd b /\ (0 < snd b -> fst b + snd b <= a_peak a))
  /\ ForallOrdPairs disj L
  /\ (forall b e, In b L -> In e (a_free a) -> disj b e)
  /\ a_used a = sumsnd L /\ 0 <= sumsnd L <= T.

(** Proof invariant of the coalescing steps of [free]: the block being
    merged is [(itk, its)] in the free map [fb]. *)
Definition merge_state (a : Allocator) (L' : list (Z * Z)) (itk its : Z) (fb : FreeMap) : Prop :=
  keys_sorted fb = true /\ In (itk, its) fb
  /\ 0 <= itk < W64 /\ 0 <= its /\ itk + its < W64 /\ (0 < its -> itk + its <= a_peak a)
  /\ (forall e, In e fb -> fst e <> itk -> In e (a_free a) /\ disj (itk, its) e)
  /\ (forall b, In b L' -> disj (itk, its) b).

(* ================================================================== *)
(** * Theorems *)

(* ------------------------------------------------------------------ *)
(** ** Allocator *)

(** C5: with alignment 8, [alloc(8)] three times returns 0, 8, 16 (peak 24);
    [free(8,8)] then [free(16,8)] coalesce and reclaim the tail (peak 8, no
    free block); [alloc(16)] then returns 8 from the tail and peak is 24. *)
Theorem allocator_coalescing_scenario :
  exists a3, run_calls new_allocator [CAlloc 8; CAlloc 8; CAlloc 8] = Some ([0; 8; 16], a3)
  /\ a_peak a3 = 24
  /\ exists a5, run_calls a3 [CFree 8 8; CFree 16 8] = Some ([], a5)
     /\ a_peak a5 = 8 /\ a_free a5 = []
     /\ exists a6, run_calls a5 [CAlloc 16] = Some ([8], a6) /\ a_peak a6 = 24.
Proof.
  eexists; split; [reflexivity|]; split; [reflexivity|].
  eexists; split; [reflexivity|]; split; [reflexivity|]; split; [reflexivity|].
  eexists; split; reflexivity.
Qed.

(** C2 (code bug): when the first-fit block has exactly the aligned size,
    [alloc] still writes [free_blocks[block_addr + size] = 0]: after
    [alloc(8); alloc(8); free(0,8); alloc(8)] on a fresh allocator the free
    map is [{8 -> 0}], an entry of size 0. *)
Theorem alloc_exact_fit_leaves_empty_block :
  run_calls new_allocator [CAlloc 8; CAlloc 8; CFree 0 8; CAlloc 8]
  = Some ([0; 8; 0], mkAllocator 16 16 8 None [(8, 0)])
  /\ In (8, 0) [(8, 0)].
Proof. split; [reflexivity | left; reflexivity]. Qed.

Lemma m64_small (x : Z) : 0 <= x < W64 -> m64 x = x.
Proof. intros H. unfold m64. apply Z.mod_small; exact H. Qed.

Lemma keys_sorted_head_lt (k v : Z) (r : FreeMap) :
  keys_sorted ((k, v) :: r) = true -> forall kv, In kv r -> k < fst kv.
Proof.
  revert k v. induction r as [|[k' v'] r IH]; intros k v Hs kv Hin; [destruct Hin|].
  simpl in Hs. apply andb_prop in Hs as [Hlt Hs]. apply Z.ltb_lt in Hlt.
  destruct Hin as [<-|Hin]; [simpl; exact Hlt|].
  pose proof (IH k' v' Hs kv Hin). lia.
Qed.

Lemma map_erase_absent (k : Z) (r : FreeMap) :
  (forall kv, In kv r -> k < fst kv) -> map_erase k r = r.
Proof.
  induction r as [|[k' v'] r IH]; intros H; [reflexivity|].
  unfold map_erase in *. simpl.
  assert (k < k') by (apply (H (k', v')); left; reflexivity).
  replace (k' =? k) with false by (symmetry; apply Z.eqb_neq; lia). simpl.
  f_equal. apply IH. intros kv Hin. apply H. right; exact Hin.
Qed.

Lemma map_insert_front (k v : Z) (r : FreeMap) :
  (forall kv, In kv r -> k < fst kv) -> map_insert k v r = (k, v) :: r.
Proof.
  destruct r as [|[k' v'] r]; intros H; [reflexivity|].
  assert (k < k') by (apply (H (k', v')); left; reflexivity).
  simpl. replace (k =? k') with false by (symmetry; apply Z.eqb_neq; lia).
  replace (k <? k') with true by (symmetry; apply Z.ltb_lt; lia). reflexivity.
Qed.

(** C10: [getAlignedSize(0)] wraps to 0 in [size_t], so [alloc(0)] leaves
    [used], [peak] and [free_blocks] unchanged and, when a free block
    exists, returns the offset of the first one. *)
Theorem alloc_zero_size (a : Allocator) :
  alloc_wf a = true -> a_ptr a = None ->
  getAlignedSize a 0 = 0
  /\ exists off a', alloc a 0 = Some (off, a')
     /\ a_used a' = a_used a /\ a_peak a' = a_peak a /\ a_free a' = a_free a
     /\ (forall k v r, a_free a = (k, v) :: r -> off = k).
Proof.
  intros Hwf Hptr.
  destruct a as [used peak al ptr fb]; simpl in *; subst ptr.
  unfold alloc_wf in Hwf; simpl in Hwf.
  apply andb_prop in Hwf as [Hwf Hall]. apply andb_prop in Hwf as [Hwf Hsorted].
  apply andb_prop in Hwf as [Hwf Hal]. apply andb_prop in Hwf as [Hu Hp].
  apply Z.eqb_eq in Hal; subst al.
  unfold in_size_t in Hu, Hp.
  apply andb_prop in Hu as [Hu1 Hu2]; apply andb_prop in Hp as [Hp1 Hp2].
  apply Z.leb_le in Hu1, Hp1; apply Z.ltb_lt in Hu2, Hp2.
  assert (Hz : getAlignedSize (mkAllocator used peak 8 None fb) 0 = 0) by reflexivity.
  split; [exact Hz|].
  unfold alloc; simpl; rewrite Hz.
  destruct fb as [|[k v] r].
  - simpl. exists peak; eexists; split; [reflexivity|]. simpl.
    rewrite !Z.add_0_r, !m64_small by lia. repeat split; intros; discriminate.
  - simpl in Hall. apply andb_prop in Hall as [Hkv _].
    unfold in_size_t in Hkv; simpl in Hkv.
    apply andb_prop in Hkv as [Hk Hv]; apply andb_prop in Hk as [Hk1 Hk2];
      apply andb_prop in Hv as [Hv1 Hv2].
    apply Z.leb_le in Hk1, Hv1; apply Z.ltb_lt in Hk2, Hv2.
    simpl. replace (0 <=? v) with true by (symmetry; apply Z.leb_le; lia).
    exists k; eexists; split; [reflexivity|]. simpl.
    pose proof (keys_sorted_head_lt k v r Hsorted) as Hlt.
    unfold map_erase; simpl; rewrite Z.eqb_refl; simpl.
    fold (map_erase k r). rewrite (map_erase_absent k r Hlt).
    rewrite !Z.add_0_r, Z.sub_0_r, !m64_small by lia.
    rewrite (map_insert_front k v r Hlt).
    repeat split. intros k' v' r' Heq. injection Heq; intros; subst; reflexivity.
Qed.

Lemma alloc_zero_size_witness :
  alloc_wf (mkAllocator 8 24 8 None [(8, 8)]) = true
  /\ a_ptr (mkAllocator 8 24 8 None [(8, 8)]) = None
  /\ getAlignedSize (mkAllocator 8 24 8 None [(8, 8)]) 0 = 0
  /\ exists off a', alloc (mkAllocator 8 24 8 None [(8, 8)]) 0 = Some (off, a')
     /\ a_used a' = 8 /\ a_peak a' = 24 /\ a_free a' = [(8, 8)]
     /\ (forall k v r, [(8, 8)] = (k, v) :: r -> off = k).
Proof.
  split; [reflexivity|]. split; [reflexivity|].
  apply (alloc_zero_size (mkAllocator 8 24 8 None [(8, 8)])); reflexivity.
Defined.

(* ------------------------------------------------------------------ *)
(** ** MatMul *)

(** C3 (code bug): [MatmulObj::inferShape] computes [currentM],
    [currentN] and [currnerK_A] but never stores them: the object after the
    call is the object before it, so [m], [n], [k] keep the values the
    constructor left (0 here) instead of (3, 4, 5) for A [2,3,5], B [5,4]. *)
Theorem matmul_inferShape_does_not_cache_mnk :
  (forall op sA sB, snd (matmul_inferShape op sA sB) = op)
  /\ let r := matmul_inferShape (mkMatmul false false 0 0 0) [2; 3; 5] [5; 4] in
     fst r = Some [[2; 3; 4]]
     /\ (mm_m (snd r), mm_n (snd r), mm_k (snd r)) = (0, 0, 0)
     /\ (mm_m (snd r), mm_n (snd r), mm_k (snd r)) <> (3, 4, 5).
Proof.
  split.
  - intros op sA sB. unfold matmul_inferShape.
    destruct ((length sA <? 2)%nat || (length sB <? 2)%nat); [reflexivity|].
    destruct (negb _); [reflexivity|].
    destruct (infer_broadcast _ _); reflexivity.
  - simpl. split; [reflexivity|]. split; [reflexivity|]. discriminate.
Qed.

(* ------------------------------------------------------------------ *)
(** ** optimize *)

(** C1 (code bug): on X[2,3,4] -> Transpose([1,0,2]) -> T, MatMul(T, W),
    the MatMul branch sets [refined = true] although the permutation is not
    a swap of the last two axes and nothing is rewritten; every pass returns
    the same graph with [refined = true], so [optimize] never returns,
    whatever number of passes is allowed. *)
Theorem optimize_diverges_on_nonswap_transpose :
  optimize_scan g_noswap (g_ops g_noswap) = (true, g_noswap)
  /\ forall fuel, optimize fuel g_noswap = None.
Proof.
  assert (Hscan : optimize_scan g_noswap (g_ops g_noswap) = (true, g_noswap))
    by (vm_compute; reflexivity).
  split; [exact Hscan|].
  induction fuel as [|f IH]; [reflexivity|].
  change (optimize (S f) g_noswap) with
    (let '(refined, g') := optimize_scan g_noswap (g_ops g_noswap) in
     if refined then optimize f g' else Some g').
  rewrite Hscan. exact IH.
Qed.

(* ------------------------------------------------------------------ *)
(** ** Broadcasting and MatMul shape inference *)

Lemma fold_bcast_none (A B : Shape) (l : list nat) :
  fold_left
    (fun acc i =>
       match acc with
       | None => None
       | Some out =>
           match bcast_dim (dim_from_right A (length A) i)
                           (dim_from_right B (length B) i) with
           | Some d => Some (d :: out)
           | None => None
           end
       end) l None = None.
Proof. induction l; simpl; auto. Qed.

Lemma hd_skipn {A} (d : A) (l : list A) (i : nat) : hd d (skipn i l) = nth i l d.
Proof.
  revert l; induction i as [|i IH]; intros [|x l]; simpl; auto.
Qed.

Lemma tl_skipn {A} (l : list A) (i : nat) : tl (skipn i l) = skipn (S i) l.
Proof.
  revert l; induction i as [|i IH]; intros [|x l]; simpl; auto.
Qed.

Lemma dim_from_right_rev (sh : Shape) (i : nat) :
  dim_from_right sh (length sh) i = hd 1 (skipn i (rev sh)).
Proof.
  unfold dim_from_right. rewrite hd_skipn.
  destruct (Nat.ltb_spec i (length sh)) as [H|H].
  - rewrite rev_nth by exact H.
    replace (length sh - S i)%nat with (length sh - i - 1)%nat by lia.
    apply nth_indep. lia.
  - rewrite nth_overflow; [reflexivity|]. rewrite length_rev. exact H.
Qed.

Lemma fold_bcast_aligned (A B : Shape) (m k : nat) (acc : list Z) :
  fold_left
    (fun acc i =>
       match acc with
       | None => None
       | Some out =>
           match bcast_dim (dim_from_right A (length A) i)
                           (dim_from_right B (length B) i) with
           | Some d => Some (d :: out)
           | None => None
           end
       end) (seq k m) (Some acc)
  = option_map (fun r => rev r ++ acc)
      (bcast_aligned m (skipn k (rev A)) (skipn k (rev B))).
Proof.
  revert k acc. induction m as [|m IH]; intros k acc; [reflexivity|].
  simpl seq. simpl fold_left. simpl bcast_aligned.
  rewrite !dim_from_right_rev, !tl_skipn.
  destruct (bcast_dim _ _) as [d|].
  - rewrite IH. destruct (bcast_aligned m _ _) as [r|]; simpl; [|reflexivity].
    rewrite <- app_assoc. reflexivity.
  - apply fold_bcast_none.
Qed.

(** [infer_broadcast] computes the broadcast of section 4.1. *)
Lemma infer_broadcast_refines (A B : Shape) : infer_broadcast A B = broadcast_spec A B.
Proof.
  unfold infer_broadcast, broadcast_spec.
  rewrite (fold_bcast_aligned A B _ 0 []). simpl skipn.
  destruct (bcast_aligned _ _ _); simpl; [rewrite app_nil_r|]; reflexivity.
Qed.

(** C7: for ranks at least 2, MatMul shape inference fails unless
    [kA == kB] and otherwise returns the broadcast of the batch prefixes
    followed by [mA, nB]; the two literal examples give [2,3,4]. *)
Theorem matmul_inferShape_spec (op : MatmulObj) (sA sB : Shape) :
  (2 <= length sA)%nat -> (2 <= length sB)%nat ->
  let ra := length sA in
  let rb := length sB in
  let mA := nth (if transA op then ra - 1 else ra - 2) sA 0 in
  let kA := nth (if transA op then ra - 2 else ra - 1) sA 0 in
  let kB := nth (if transB op then rb - 1 else rb - 2) sB 0 in
  let nB := nth (if transB op then rb - 2 else rb - 1) sB 0 in
  fst (matmul_inferShape op sA sB)
  = (if kA =? kB
     then option_map (fun batch => [batch ++ [mA; nB]])
            (broadcast_spec (firstn (ra - 2) sA) (firstn (rb - 2) sB))
     else None)
  /\ fst (matmul_inferShape (mkMatmul false false 0 0 0) [2; 3; 5] [5; 4]) = Some [[2; 3; 4]]
  /\ fst (matmul_inferShape (mkMatmul false true 0 0 0) [2; 3; 5] [2; 4; 5]) = Some [[2; 3; 4]].
Proof.
  intros HA HB. cbv zeta. split; [|split; reflexivity].
  unfold matmul_inferShape.
  replace ((length sA <? 2)%nat || (length sB <? 2)%nat) with false
    by (symmetry; apply orb_false_iff; split; apply Nat.ltb_ge; assumption).
  rewrite infer_broadcast_refines.
  destruct (transA op), (transB op); cbv zeta;
    match goal with |- context [negb (?x =? ?y)] => destruct (x =? y) end;
    simpl; try reflexivity;
    destruct (broadcast_spec _ _); reflexivity.
Qed.

Lemma matmul_inferShape_spec_witness :
  (2 <= length [2; 3; 5])%nat /\ (2 <= length [2; 4; 5])%nat
  /\ fst (matmul_inferShape (mkMatmul false true 0 0 0) [2; 3; 5] [2; 4; 5])
     = Some [[2; 3; 4]].
Proof.
  split; [simpl; lia|]. split; [simpl; lia|].
  destruct (matmul_inferShape_spec (mkMatmul false true 0 0 0) [2; 3; 5] [2; 4; 5])
    as [H _]; [simpl; lia | simpl; lia |].
  rewrite H. reflexivity.
Defined.

(* ------------------------------------------------------------------ *)
(** ** Concat shape inference *)

(** Input [si] agrees with [inputs[0] = s0]: same rank, and the same extent
    on every axis other than [dim]. *)
Lemma nth_upd_nth_eq {A} (n : nat) (f : A -> A) (l : list A) (d : A) :
  (n < length l)%nat -> nth n (upd_nth n f l) d = f (nth n l d).
Proof.
  revert n; induction l as [|x l IH]; intros [|n] H; simpl in *; try lia; auto.
  all: apply IH; lia.
Qed.

Lemma nth_upd_nth_ne {A} (n j : nat) (f : A -> A) (l : list A) (d : A) :
  j <> n -> nth j (upd_nth n f l) d = nth j l d.
Proof.
  revert n j; induction l as [|x l IH]; intros [|n] [|j] H; simpl; auto; try lia.
  all: apply IH; lia.
Qed.

Lemma upd_nth_upd_nth {A} (n : nat) (f g : A -> A) (l : list A) :
  upd_nth n f (upd_nth n g l) = upd_nth n (fun x => f (g x)) l.
Proof.
  revert n; induction l as [|x l IH]; intros [|n]; simpl; auto. f_equal; apply IH.
Qed.

Lemma upd_nth_self {A} (n : nat) (l : list A) (d : A) :
  upd_nth n (fun _ => nth n l d) l = l.
Proof.
  revert n; induction l as [|x l IH]; intros [|n]; simpl; auto. f_equal; apply IH.
Qed.

Lemma length_upd_nth {A} (n : nat) (f : A -> A) (l : list A) :
  length (upd_nth n f l) = length l.
Proof.
  revert n; induction l as [|x l IH]; intros [|n]; simpl; auto.
Qed.

Lemma wrap32_add_idemp (a b : Z) : wrap32 (wrap32 a + b) = wrap32 (a + b).
Proof.
  unfold wrap32.
  replace ((a + 2 ^ 31) mod 2 ^ 32 - 2 ^ 31 + b + 2 ^ 31)
    with ((a + 2 ^ 31) mod 2 ^ 32 + b) by ring.
  rewrite Zplus_mod_idemp_l.
  replace (a + 2 ^ 31 + b) with (a + b + 2 ^ 31) by ring. reflexivity.
Qed.

Lemma wrap32_small (x : Z) : in_int32 x = true -> wrap32 x = x.
Proof.
  unfold in_int32, wrap32. intros H. apply andb_prop in H as [H1 H2].
  apply Z.leb_le in H1. apply Z.ltb_lt in H2.
  rewrite Z.mod_small by lia. ring.
Qed.

Lemma forallb_ext_in' {A} (f g : A -> bool) (l : list A) :
  (forall x, In x l -> f x = g x) -> forallb f l = forallb g l.
Proof. intros H; induction l; simpl; auto.
  rewrite H by (left; auto). f_equal. apply IHl. intros; apply H; right; auto.
Qed.

Section ConcatRow.
Variables (dim : Z) (si : Shape).
Hypothesis Hdim : 0 <= dim.

Let D := Z.to_nat dim.
Let F := fun acc j =>
    match acc with
    | None => None
    | Some d =>
        if Z.of_nat j =? dim
        then Some (upd_nth j (fun x => wrap32 (x + nth j si 0)) d)
        else if nth j si 0 =? nth j d 0 then Some d else None
    end.

Lemma concat_row_none (js : list nat) : fold_left F js None = None.
Proof. induction js; simpl; auto. Qed.

Lemma eqb_dim (j : nat) : (Z.of_nat j =? dim) = Nat.eqb j D.
Proof.
    unfold D. destruct (Nat.eqb_spec j (Z.to_nat dim)) as [->|H].
    - apply Z.eqb_eq. lia.
    - apply Z.eqb_neq. lia.
Qed.

Lemma concat_row_fold (js : list nat) (d : Shape) :
    NoDup js ->
    fold_left F js (Some d)
    = if forallb (fun j => (Z.of_nat j =? dim) || (nth j si 0 =? nth j d 0)) js
      then Some (if memb D js then upd_nth D (fun x => wrap32 (x + nth D si 0)) d else d)
      else None.
Proof.
    revert d; induction js as [|j js IH]; intros d Hnd; [reflexivity|].
    inversion Hnd as [|? ? Hj Hnd']; subst.
    simpl fold_left. simpl forallb. simpl memb. rewrite !eqb_dim.
    destruct (Nat.eqb_spec j D) as [->|Hne].
    - rewrite Nat.eqb_refl. simpl orb. simpl andb.
      rewrite IH by exact Hnd'.
      assert (Hrest : forallb (fun j0 => (Z.of_nat j0 =? dim)
                                || (nth j0 si 0 =? nth j0 (upd_nth D
                                     (fun x => wrap32 (x + nth D si 0)) d) 0)) js
                      = forallb (fun j0 => (Z.of_nat j0 =? dim) || (nth j0 si 0 =? nth j0 d 0)) js).
      { apply forallb_ext_in'. intros j0 Hin. rewrite nth_upd_nth_ne; [reflexivity|].
        intros ->. contradiction. }
      assert (Hm : memb D js = false).
      { unfold memb. apply Bool.not_true_iff_false. intros Hx.
        apply existsb_exists in Hx as [x [Hx Heq]]. apply Nat.eqb_eq in Heq. subst. contradiction. }
      rewrite Hrest, Hm. reflexivity.
    - assert (Hne' : (D =? j)%nat = false) by (apply Nat.eqb_neq; congruence).
      rewrite Hne'. simpl orb.
      destruct (nth j si 0 =? nth j d 0); simpl andb.
      + rewrite IH by exact Hnd'. reflexivity.
      + apply concat_row_none.
Qed.
End ConcatRow.


Lemma concat_row_spec (dim : Z) (si s0 : Shape) (x : Z) :
  0 <= dim < Z.of_nat (length s0) -> length si = length s0 ->
  concat_row (length s0) dim si (upd_nth (Z.to_nat dim) (fun _ => x) s0)
  = if concat_compatible dim s0 si
    then Some (upd_nth (Z.to_nat dim) (fun _ => wrap32 (x + nth (Z.to_nat dim) si 0)) s0)
    else None.
Proof.
  intros Hdim Hlen. unfold concat_row.
  rewrite (concat_row_fold dim si ltac:(lia)) by apply seq_NoDup.
  unfold concat_compatible. rewrite Hlen, Nat.eqb_refl. simpl andb.
  assert (Hf : forallb (fun j => (Z.of_nat j =? dim)
                 || (nth j si 0 =? nth j (upd_nth (Z.to_nat dim) (fun _ => x) s0) 0))
                 (seq 0 (length s0))
               = forallb (fun j => (Z.of_nat j =? dim) || (nth j si 0 =? nth j s0 0))
                 (seq 0 (length s0))).
  { apply forallb_ext_in'. intros j _.
    destruct (Z.eqb_spec (Z.of_nat j) dim) as [Hj|Hj]; [reflexivity|].
    rewrite nth_upd_nth_ne; [reflexivity|]. lia. }
  rewrite Hf.
  assert (Hm : memb (Z.to_nat dim) (seq 0 (length s0)) = true).
  { unfold memb. apply existsb_exists. exists (Z.to_nat dim). split.
    - apply in_seq. lia.
    - apply Nat.eqb_refl. }
  rewrite Hm, upd_nth_upd_nth. reflexivity.
Qed.

Lemma concat_outer_none (dim : Z) (s0 : Shape) (rest : list Shape) :
  fold_left (fun acc si =>
               match acc with
               | None => None
               | Some dims =>
                   if negb (length si =? length s0)%nat then None
                   else concat_row (length s0) dim si dims
               end) rest None = None.
Proof. induction rest; simpl; auto. Qed.

Lemma concat_outer (dim : Z) (s0 : Shape) (rest : list Shape) (x : Z) :
  0 <= dim < Z.of_nat (length s0) ->
  fold_left (fun acc si =>
               match acc with
               | None => None
               | Some dims =>
                   if negb (length si =? length s0)%nat then None
                   else concat_row (length s0) dim si dims
               end) rest (Some (upd_nth (Z.to_nat dim) (fun _ => x) s0))
  = if forallb (concat_compatible dim s0) rest
    then Some (upd_nth (Z.to_nat dim)
                 (fun _ => fold_left (fun x s => wrap32 (x + nth (Z.to_nat dim) s 0)) rest x) s0)
    else None.
Proof.
  intros Hdim. revert x. induction rest as [|si rest IH]; intros x; [reflexivity|].
  simpl fold_left. simpl forallb.
  destruct (Nat.eqb_spec (length si) (length s0)) as [Hl|Hl]; simpl negb.
  - rewrite concat_row_spec by assumption.
    destruct (concat_compatible dim s0 si); simpl andb.
    + apply IH.
    + apply concat_outer_none.
  - unfold concat_compatible at 1.
    replace (length si =? length s0)%nat with false by (symmetry; apply Nat.eqb_neq; exact Hl).
    simpl andb. apply concat_outer_none.
Qed.

Lemma wrap32_fold (f : Shape -> Z) (s1 : Shape) (r : list Shape) (x : Z) :
  fold_left (fun x s => wrap32 (x + f s)) (s1 :: r) x
  = wrap32 (x + fold_right (fun s acc => f s + acc) 0 (s1 :: r)).
Proof.
  revert s1 x. induction r as [|s2 r IH]; intros s1 x.
  - simpl. rewrite Z.add_0_r. reflexivity.
  - change (fold_left (fun x s => wrap32 (x + f s)) (s2 :: r) (wrap32 (x + f s1))
            = wrap32 (x + (f s1 + fold_right (fun s acc => f s + acc) 0 (s2 :: r)))).
    rewrite IH, wrap32_add_idemp. f_equal. ring.
Qed.

Lemma fold_right_map_sum {A} (f : A -> Z) (r : list A) :
  fold_right (fun s acc => f s + acc) 0 r = fold_right Z.add 0 (map f r).
Proof. induction r; simpl; congruence. Qed.

Lemma forallb_false_iff {A} (f : A -> bool) (l : list A) :
  forallb f l = false <-> exists x, In x l /\ f x = false.
Proof.
  induction l as [|y l IH]; simpl.
  - split; [discriminate | intros [x [[] _]]].
  - split.
    + intros H. destruct (f y) eqn:Hy; simpl in H.
      * apply IH in H as [x [Hx Hf]]. exists x; auto.
      * exists y; auto.
    + intros [x [[<-|Hx] Hf]]; [rewrite Hf; reflexivity|].
      destruct (f y); simpl; [apply IH; exists x; auto | reflexivity].
Qed.

Lemma concat_compatible_false (dim : Z) (s0 si : Shape) :
  0 <= dim ->
  concat_compatible dim s0 si = false
  <-> (length si <> length s0
       \/ exists j, (j < length s0)%nat /\ j <> Z.to_nat dim /\ nth j si 0 <> nth j s0 0).
Proof.
  intros Hdim. unfold concat_compatible. rewrite andb_false_iff, forallb_false_iff.
  split.
  - intros [H|[j [Hj Hf]]].
    + left. apply Nat.eqb_neq. exact H.
    + right. apply in_seq in Hj. apply orb_false_iff in Hf as [H1 H2].
      apply Z.eqb_neq in H1. apply Z.eqb_neq in H2.
      exists j. split; [lia|]. split; [lia | exact H2].
  - intros [H|[j [Hj [Hne Hd]]]].
    + left. apply Nat.eqb_neq. exact H.
    + right. exists j. split; [apply in_seq; lia|].
      apply orb_false_iff. split; [apply Z.eqb_neq; lia | apply Z.eqb_neq; exact Hd].
Qed.

(** C8: Concat shape inference returns [inputs[0].shape] with axis [dim]
    replaced by the sum of the inputs' extents on [dim], and it fails
    exactly when some input's rank, or some extent off [dim], differs from
    [inputs[0]]'s. (The sum is required to be an [int].) *)
Theorem concat_inferShape_spec (dim : Z) (s0 : Shape) (rest : list Shape) :
  0 <= dim < Z.of_nat (length s0) ->
  in_int32 (fold_right Z.add 0 (map (fun s => nth (Z.to_nat dim) s 0) (s0 :: rest))) = true ->
  concat_inferShape dim (s0 :: rest)
  = (if forallb (concat_compatible dim s0) rest
     then Some [upd_nth (Z.to_nat dim)
                  (fun _ => fold_right Z.add 0 (map (fun s => nth (Z.to_nat dim) s 0)
                                                    (s0 :: rest))) s0]
     else None)
  /\ (concat_inferShape dim (s0 :: rest) = None
      <-> exists si, In si rest
          /\ (length si <> length s0
              \/ exists j, (j < length s0)%nat /\ j <> Z.to_nat dim /\ nth j si 0 <> nth j s0 0)).
Proof.
  intros Hdim Hsum.
  assert (Heq : concat_inferShape dim (s0 :: rest)
                = (if forallb (concat_compatible dim s0) rest
                   then Some [upd_nth (Z.to_nat dim)
                                (fun _ => fold_right Z.add 0
                                            (map (fun s => nth (Z.to_nat dim) s 0) (s0 :: rest))) s0]
                   else None)).
  { unfold concat_inferShape.
    rewrite <- (upd_nth_self (Z.to_nat dim) s0 0) at 1.
    rewrite concat_outer by exact Hdim.
    destruct (forallb _ rest); [|reflexivity].
    do 3 f_equal. apply (f_equal (fun v => fun _ : Z => v)).
    destruct rest as [|s1 r].
    - simpl. ring.
    - rewrite wrap32_fold. rewrite <- (wrap32_small _ Hsum). f_equal.
      rewrite fold_right_map_sum. reflexivity. }
  split; [exact Heq|].
  rewrite Heq.
  destruct (forallb (concat_compatible dim s0) rest) eqn:Hf.
  - split; [discriminate|]. intros [si [Hin Hbad]].
    apply (concat_compatible_false dim s0 si ltac:(lia)) in Hbad.
    rewrite forallb_forall in Hf. rewrite (Hf si Hin) in Hbad. discriminate.
  - split; [intros _|reflexivity].
    apply forallb_false_iff in Hf as [si [Hin Hbad]].
    exists si. split; [exact Hin|].
    apply (concat_compatible_false dim s0 si ltac:(lia)). exact Hbad.
Qed.

Lemma concat_inferShape_spec_witness :
  (0 <= 1 < Z.of_nat (length [2; 3; 4]))
  /\ in_int32 (fold_right Z.add 0 (map (fun s => nth 1 s 0) [[2; 3; 4]; [2; 5; 4]])) = true
  /\ concat_inferShape 1 [[2; 3; 4]; [2; 5; 4]] = Some [[2; 8; 4]].
Proof.
  split; [simpl; lia|]. split; [reflexivity|].
  destruct (concat_inferShape_spec 1 [2; 3; 4] [[2; 5; 4]]) as [H _];
    [simpl; lia | reflexivity |].
  exact (eq_trans H eq_refl).
Defined.

(* ------------------------------------------------------------------ *)
(** ** Rule T1 of [optimize]: the effect of one rewrite *)

Lemma find_map_same {A} (p : A -> bool) (F : A -> A) (l : list A) :
  (forall x, p (F x) = p x) -> find p (map F l) = option_map F (find p l).
Proof.
  intros HF. induction l as [|x l IH]; simpl; [reflexivity|].
  rewrite HF. destruct (p x); [reflexivity | exact IH].
Qed.

Lemma lookup_o_upd_o (i j : nat) (f : OperatorObj -> OperatorObj) (g : GraphObj) :
  (forall r, o_id (f r) = o_id r) ->
  lookup_o (upd_o i f g) j
  = option_map (fun r => if Nat.eqb i j then f r else r) (lookup_o g j).
Proof.
  intros Hf. unfold lookup_o, upd_o; simpl.
  rewrite find_map_same.
  - destruct (find _ (g_oheap g)) as [r|] eqn:E; [|reflexivity].
    apply find_some in E as [_ E]. apply Nat.eqb_eq in E. simpl. f_equal.
    rewrite E, Nat.eqb_sym. reflexivity.
  - intros r. destruct (Nat.eqb (o_id r) i); [rewrite Hf|]; reflexivity.
Qed.

Lemma lookup_t_upd_t (i j : nat) (f : TensorObj -> TensorObj) (g : GraphObj) :
  (forall r, t_id (f r) = t_id r) ->
  lookup_t (upd_t i f g) j
  = option_map (fun r => if Nat.eqb i j then f r else r) (lookup_t g j).
Proof.
  intros Hf. unfold lookup_t, upd_t; simpl.
  rewrite find_map_same.
  - destruct (find _ (g_theap g)) as [r|] eqn:E; [|reflexivity].
    apply find_some in E as [_ E]. apply Nat.eqb_eq in E. simpl. f_equal.
    rewrite E, Nat.eqb_sym. reflexivity.
  - intros r. destruct (Nat.eqb (t_id r) i); [rewrite Hf|]; reflexivity.
Qed.

Lemma option_map_comp {A B C} (f : B -> C) (h : A -> B) (x : option A) :
  option_map f (option_map h x) = option_map (fun a => f (h a)) x.
Proof. destruct x; reflexivity. Qed.

Lemma option_map_ext' {A B} (f h : A -> B) (x : option A) :
  (forall a, f a = h a) -> option_map f x = option_map h x.
Proof. intros H. destruct x; simpl; [rewrite H|]; reflexivity. Qed.

Lemma lookup_t_upd_o (i j : nat) (f : OperatorObj -> OperatorObj) (g : GraphObj) :
  lookup_t (upd_o i f g) j = lookup_t g j.
Proof. reflexivity. Qed.

Lemma lookup_o_upd_t (i j : nat) (f : TensorObj -> TensorObj) (g : GraphObj) :
  lookup_o (upd_t i f g) j = lookup_o g j.
Proof. reflexivity. Qed.

Lemma lookup_o_t1_reconnect gis o2 ti to g x j :
  lookup_o (t1_reconnect gis o2 ti to g x) j
  = option_map (t1_op_step gis o2 ti to x j) (lookup_o g j).
Proof.
  unfold t1_reconnect.
  destruct gis as [p|];
    repeat first [ rewrite lookup_o_upd_o by (intros; reflexivity)
                 | rewrite lookup_o_upd_t ];
    rewrite ?option_map_comp; apply option_map_ext'; intros r;
    unfold t1_op_step; destruct (Nat.eqb x j); reflexivity.
Qed.

Lemma lookup_t_t1_reconnect gis o2 ti to g x j :
  lookup_t (t1_reconnect gis o2 ti to g x) j
  = option_map (t1_tensor_step ti to x j) (lookup_t g j).
Proof.
  unfold t1_reconnect.
  destruct gis as [p|];
    repeat first [ rewrite lookup_t_upd_t by (intros; reflexivity)
                 | rewrite lookup_t_upd_o ];
    rewrite ?option_map_comp; apply option_map_ext'; intros r;
    reflexivity.
Qed.

Lemma lookup_o_t1_fold gis o2 ti to l g j :
  lookup_o (fold_left (t1_reconnect gis o2 ti to) l g) j
  = option_map (fold_left (fun r x => t1_op_step gis o2 ti to x j r) l) (lookup_o g j).
Proof.
  revert g. induction l as [|x l IH]; intros g; simpl.
  - destruct (lookup_o g j); reflexivity.
  - rewrite IH, lookup_o_t1_reconnect, option_map_comp. reflexivity.
Qed.

Lemma lookup_t_t1_fold gis o2 ti to l g j :
  lookup_t (fold_left (t1_reconnect gis o2 ti to) l g) j
  = option_map (fold_left (fun r x => t1_tensor_step ti to x j r) l) (lookup_t g j).
Proof.
  revert g. induction l as [|x l IH]; intros g; simpl.
  - destruct (lookup_t g j); reflexivity.
  - rewrite IH, lookup_t_t1_reconnect, option_map_comp. reflexivity.
Qed.

Lemma lists_t1_fold gis o2 ti to l g :
  g_ops (fold_left (t1_reconnect gis o2 ti to) l g) = g_ops g
  /\ g_tensors (fold_left (t1_reconnect gis o2 ti to) l g) = g_tensors g.
Proof.
  revert g. induction l as [|x l IH]; intros g; simpl; [auto|].
  destruct (IH (t1_reconnect gis o2 ti to g x)) as [-> ->].
  unfold t1_reconnect; destruct gis; split; reflexivity.
Qed.

Lemma removeOutputOf_parts (o : nat) (g : GraphObj) :
  g_theap (removeOutputOf o g) = g_theap g
  /\ g_oheap (removeOutputOf o g) = g_oheap g
  /\ g_ops (removeOutputOf o g) = g_ops g
  /\ g_tensors (removeOutputOf o g)
     = match outputs_of g o with t :: _ => remove_first t (g_tensors g) | [] => g_tensors g end.
Proof. unfold removeOutputOf. destruct (outputs_of g o); repeat split. Qed.

Lemma fold_reach {A B} (f : B -> A -> B) (P : B -> Prop) (l : list A) (y : A) (b : B) :
  (forall b x, P b \/ x = y -> P (f b x)) -> P b \/ In y l -> P (fold_left f l b).
Proof.
  intros Hf. revert b. induction l as [|x l IH]; intros b H; simpl.
  - destruct H as [H|[]]; exact H.
  - apply IH. destruct H as [H|[H|H]]; [left; apply Hf; auto | left; apply Hf; auto | auto].
Qed.

Lemma t1_op_step_outputs gis o2 ti to x j r :
  o_outputs (t1_op_step gis o2 ti to x j r) = o_outputs r.
Proof. unfold t1_op_step; destruct gis, (Nat.eqb x j); try destruct (Nat.eqb _ j); reflexivity. Qed.

Lemma t1_op_step_inputs gis o2 ti to x j r :
  o_inputs (t1_op_step gis o2 ti to x j r)
  = if Nat.eqb x j then map (fun y => if Nat.eqb y to then ti else y) (o_inputs r) else o_inputs r.
Proof. unfold t1_op_step; destruct gis, (Nat.eqb x j); try destruct (Nat.eqb _ j); reflexivity. Qed.

Lemma t1_op_step_preds gis o2 ti to x j r :
  o_preds (t1_op_step gis o2 ti to x j r)
  = if Nat.eqb x j
    then filter (fun y => negb (Nat.eqb y o2)) (o_preds r)
         ++ match gis with Some p => [p] | None => [] end
    else o_preds r.
Proof.
  unfold t1_op_step; destruct gis, (Nat.eqb x j); try destruct (Nat.eqb _ j);
    simpl; rewrite ?app_nil_r; reflexivity.
Qed.

Lemma t1_op_step_succs_src o2 ti to x p r :
  o_succs (t1_op_step (Some p) o2 ti to x p r) = o_succs r ++ [x].
Proof. unfold t1_op_step; rewrite Nat.eqb_refl; destruct (Nat.eqb x p); reflexivity. Qed.

Lemma t1_tensor_step_targets_in ti to x r :
  ti <> to -> t_targets (t1_tensor_step ti to x ti r) = t_targets r ++ [x].
Proof.
  intros H. unfold t1_tensor_step. rewrite Nat.eqb_refl.
  apply Nat.eqb_neq in H. rewrite Nat.eqb_sym, H. reflexivity.
Qed.

Lemma t1_fold_outputs gis o2 ti to l j r :
  o_outputs (fold_left (fun r x => t1_op_step gis o2 ti to x j r) l r) = o_outputs r.
Proof.
  revert r; induction l as [|x l IH]; intros r; cbn [fold_left]; [reflexivity|].
  rewrite IH. apply t1_op_step_outputs.
Qed.

Lemma t1_fold_inputs gis o2 ti to l j r :
  ti <> to ->
  o_inputs (fold_left (fun r x => t1_op_step gis o2 ti to x j r) l r)
  = if memb j l then map (fun y => if Nat.eqb y to then ti else y) (o_inputs r) else o_inputs r.
Proof.
  intros Hne. unfold memb.
  revert r; induction l as [|x l IH]; intros r; cbn [fold_left existsb]; [reflexivity|].
  rewrite IH, t1_op_step_inputs. rewrite (Nat.eqb_sym j x).
  destruct (Nat.eqb x j), (existsb (Nat.eqb j) l); simpl; try reflexivity.
  rewrite map_map. apply map_ext. intros y.
  destruct (Nat.eqb y to) eqn:E; [|rewrite E; reflexivity].
  apply Nat.eqb_neq in Hne. rewrite Hne. reflexivity.
Qed.

Lemma t1_fold_succs_src o2 ti to l p r :
  o_succs (fold_left (fun r x => t1_op_step (Some p) o2 ti to x p r) l r) = o_succs r ++ l.
Proof.
  revert r; induction l as [|x l IH]; intros r; cbn [fold_left]; [rewrite app_nil_r; reflexivity|].
  rewrite IH, t1_op_step_succs_src, <- app_assoc. reflexivity.
Qed.

Lemma t1_fold_preds gis o2 ti to l c r :
  gis <> Some o2 -> In c l ->
  let ps := o_preds (fold_left (fun r x => t1_op_step gis o2 ti to x c r) l r) in
  ~ In o2 ps /\ (forall p, gis = Some p -> In p ps).
Proof.
  intros Hg Hin. simpl.
  apply (fold_reach (fun r x => t1_op_step gis o2 ti to x c r)
           (fun r => ~ In o2 (o_preds r) /\ (forall p, gis = Some p -> In p (o_preds r))) l c r);
    [|right; exact Hin].
  intros b x Hb. rewrite t1_op_step_preds.
  destruct (Nat.eqb x c) eqn:E.
  - split.
    + rewrite in_app_iff, filter_In. intros [[_ H]|H].
      * rewrite Nat.eqb_refl in H. discriminate.
      * destruct gis as [q|]; [|destruct H]. destruct H as [H|[]]. subst. auto.
    + intros p ->. apply in_app_iff. right. left. reflexivity.
  - destruct Hb as [Hb|Hb]; [exact Hb|]. subst. rewrite Nat.eqb_refl in E. discriminate.
Qed.

Lemma t1_fold_targets_in ti to l r :
  ti <> to ->
  t_targets (fold_left (fun r x => t1_tensor_step ti to x ti r) l r) = t_targets r ++ l.
Proof.
  intros Hne. revert r; induction l as [|x l IH]; intros r; cbn [fold_left]; [rewrite app_nil_r; reflexivity|].
  rewrite IH, t1_tensor_step_targets_in by exact Hne. rewrite <- app_assoc. reflexivity.
Qed.

Lemma In_remove_first (x y : nat) (l : list nat) :
  NoDup l -> (In x (remove_first y l) <-> In x l /\ x <> y).
Proof.
  intros Hnd. induction Hnd as [|a l Ha Hnd IH]; simpl; [tauto|].
  destruct (Nat.eqb a y) eqn:E.
  - apply Nat.eqb_eq in E. subst. split.
    + intros H. split; [right; exact H|]. intros ->. contradiction.
    + intros [[->|H] Hne]; [contradiction|exact H].
  - apply Nat.eqb_neq in E. simpl. rewrite IH. split.
    + intros [->|[H Hne]]; [split; [left; reflexivity|exact E] | auto].
    + intros [[->|H] Hne]; [left; reflexivity | right; auto].
Qed.

Lemma NoDup_remove_first (y : nat) (l : list nat) : NoDup l -> NoDup (remove_first y l).
Proof.
  intros Hnd. induction Hnd as [|a l Ha Hnd IH]; simpl; [constructor|].
  destruct (Nat.eqb a y) eqn:E; [exact Hnd|].
  constructor; [|exact IH]. intros H. apply Ha.
  clear IH Ha. induction l as [|b l IH']; simpl in *; [exact H|].
  destruct (Nat.eqb b y); [right; exact H|].
  destruct H as [H|H]; [left; exact H | right; apply IH'; [inversion Hnd; auto | exact H]].
Qed.

Lemma t1_match_outputs g o o1 ti to :
  t1_match g o = Some (o1, ti, to) -> exists r, outputs_of g o = to :: r.
Proof.
  unfold t1_match. destruct (type_of g o) as [[]|]; try discriminate.
  destruct (inputs_of g o) as [|i _]; [discriminate|].
  destruct (transpose_source g i) as [[a pm]|]; [|discriminate].
  destruct (_ && _ && _); [|discriminate].
  destruct (inputs_of g a) as [|gi _]; [discriminate|].
  destruct (outputs_of g o) as [|t r]; [discriminate|].
  intros H. injection H as _ _ ->. exists r. reflexivity.
Qed.

Lemma apply_T1_effect (g : GraphObj) (o1 o2 t_in t_mid t_out : nat) :
  t1_match g o2 = Some (o1, t_in, t_out) ->
  hd_error (outputs_of g o1) = Some t_mid ->
  NoDup (g_ops g) -> NoDup (g_tensors g) ->
  t_in <> t_out ->
  source_of g t_in <> Some o2 ->
  lookup_t g t_in <> None ->
  (forall c, In c (targets_of g t_out) -> lookup_o g c <> None) ->
  (forall p, source_of g t_in = Some p -> lookup_o g p <> None) ->
  T1_rewritten g o1 o2 t_in t_mid t_out (apply_T1 g o1 o2 t_in t_out).
Proof.
  intros Ht1 Hmid HNo HNt Htio Hsrc Hti Hcons Hp.
  destruct (t1_match_outputs g o2 o1 t_in t_out Ht1) as [rest2 Hout2].
  unfold apply_T1. cbv zeta.
  set (gis := source_of g t_in) in *.
  set (g1 := match gis with Some p => upd_o p (removeSuccessors o1) g | None => g end).
  assert (L1t : forall j, lookup_t g1 j = lookup_t g j)
    by (intros j; unfold g1; destruct gis; reflexivity).
  assert (L1o : forall j, lookup_o g1 j
                = option_map (fun r => match gis with
                                       | Some p => if Nat.eqb p j then removeSuccessors o1 r else r
                                       | None => r end) (lookup_o g j)).
  { intros j; unfold g1; destruct gis as [p|].
    - apply lookup_o_upd_o. intros; reflexivity.
    - destruct (lookup_o g j); reflexivity. }
  assert (Lists1 : g_ops g1 = g_ops g /\ g_tensors g1 = g_tensors g)
    by (unfold g1; destruct gis; split; reflexivity).
  assert (Htg : targets_of g1 t_out = targets_of g t_out)
    by (unfold targets_of; rewrite L1t; reflexivity).
  rewrite Htg.
  set (l := targets_of g t_out) in *.
  set (g2 := fold_left (t1_reconnect gis o2 t_in t_out) l g1).
  set (g3 := upd_t t_in (removeTarget o1) g2).
  set (g4 := removeOutputOf o1 g3).
  set (g5 := removeOutputOf o2 g4).
  set (g' := removeOperator o2 (removeOperator o1 g5)).
  destruct (removeOutputOf_parts o1 g3) as (H4t & H4o & H4ops & H4ts).
  destruct (removeOutputOf_parts o2 g4) as (H5t & H5o & H5ops & H5ts).
  fold g4 in H4t, H4o, H4ops, H4ts, H5t, H5o, H5ops, H5ts. fold g5 in H5t, H5o, H5ops, H5ts.
  assert (Lo : forall j, lookup_o g' j
               = option_map (fold_left (fun r x => t1_op_step gis o2 t_in t_out x j r) l)
                            (lookup_o g1 j)).
  { intros j. unfold g', removeOperator, lookup_o; simpl. rewrite H5o, H4o.
    apply lookup_o_t1_fold. }
  assert (Lt : forall j, lookup_t g' j
               = option_map (fun r => if Nat.eqb t_in j then removeTarget o1 r else r)
                   (option_map (fold_left (fun r x => t1_tensor_step t_in t_out x j r) l)
                               (lookup_t g j))).
  { intros j. unfold g', removeOperator, lookup_t; simpl. rewrite H5t, H4t.
    fold (lookup_t g3 j). unfold g3. rewrite lookup_t_upd_t by (intros; reflexivity).
    unfold g2. rewrite lookup_t_t1_fold, L1t. reflexivity. }
  assert (Hout : forall o, outputs_of g3 o = outputs_of g o).
  { intros o. unfold outputs_of. unfold g3. rewrite lookup_o_upd_t. unfold g2.
    rewrite lookup_o_t1_fold, L1o.
    destruct (lookup_o g o) as [r|]; [|reflexivity]. simpl.
    rewrite t1_fold_outputs. destruct gis; [destruct (Nat.eqb _ o)|]; reflexivity. }
  assert (Hout4 : outputs_of g4 o2 = outputs_of g o2).
  { unfold outputs_of, lookup_o. rewrite H4o. fold (lookup_o g3 o2). apply Hout. }
  assert (Lists3 : g_ops g3 = g_ops g /\ g_tensors g3 = g_tensors g).
  { unfold g3, upd_t; simpl. unfold g2. destruct (lists_t1_fold gis o2 t_in t_out l g1) as [-> ->].
    exact Lists1. }
  destruct Lists3 as [Ops3 Ts3].
  unfold T1_rewritten. fold l gis. refine (conj _ (conj _ (conj _ (conj _ (conj _ _))))).
  - (* ops *)
    intros o. unfold g', removeOperator; simpl. rewrite H5ops, H4ops, Ops3.
    rewrite In_remove_first by (apply NoDup_remove_first; exact HNo).
    rewrite In_remove_first by exact HNo. tauto.
  - (* tensors *)
    intros t. unfold g', removeOperator; simpl. rewrite H5ts, Hout4, Hout2, H4ts, Hout, Ts3.
    destruct (outputs_of g o1) as [|tm r1]; [discriminate|]. injection Hmid as ->.
    rewrite In_remove_first by (apply NoDup_remove_first; exact HNt).
    rewrite In_remove_first by exact HNt. tauto.
  - (* inputs *)
    intros o. unfold inputs_of. rewrite Lo, L1o.
    destruct (lookup_o g o) as [r|]; simpl; [|destruct (memb o l); reflexivity].
    rewrite t1_fold_inputs by exact Htio.
    destruct gis as [p|]; [destruct (Nat.eqb p o)|]; reflexivity.
  - (* targets of t_in *)
    unfold targets_of. rewrite Lt.
    destruct (lookup_t g t_in) as [r|] eqn:E; [|contradiction]. simpl.
    rewrite Nat.eqb_refl. simpl. rewrite t1_fold_targets_in by exact Htio. reflexivity.
  - (* consumers' predecessors *)
    intros c Hc. unfold preds_of. rewrite Lo, L1o.
    destruct (lookup_o g c) as [r|] eqn:E; [|exfalso; exact (Hcons c Hc E)]. simpl.
    exact (t1_fold_preds gis o2 t_in t_out l c _ Hsrc Hc).
  - (* the producer's successors *)
    intros p Hgp. unfold succs_of. rewrite Lo, L1o. rewrite Hgp.
    destruct (lookup_o g p) as [r|] eqn:E; [|exfalso; exact (Hp p Hgp E)]. cbn [option_map].
    rewrite Nat.eqb_refl, t1_fold_succs_src. reflexivity.
Qed.

(** C4 (amended): each time the scan of [optimize] reaches a Transpose
    [o2] at which rule T1 matches (input [t_mid] produced only for [o2] by
    the Transpose [o1] with cancelling permutations), it applies one rewrite:
    [o1], [o2], [t_mid] and [t_out] leave the graph, every consumer of
    [t_out] reads [t_in] instead and all edges are repaired
    ([T1_rewritten]). In the literal scenario X[4,3,2] -> Transpose([2,1,0])
    -> T1 -> Transpose([2,1,0]) -> Y -> Relu -> Z, [optimize] returns a graph
    whose only operator is the Relu, reading X, with Z of shape [4,3,2]. *)
Theorem optimize_T1_rewrite :
  (forall (g : GraphObj) (o1 o2 t_in t_mid t_out : nat),
     t1_match g o2 = Some (o1, t_in, t_out) ->
     hd_error (outputs_of g o1) = Some t_mid ->
     NoDup (g_ops g) -> NoDup (g_tensors g) ->
     t_in <> t_out ->
     source_of g t_in <> Some o2 ->
     lookup_t g t_in <> None ->
     (forall c, In c (targets_of g t_out) -> lookup_o g c <> None) ->
     (forall p, source_of g t_in = Some p -> lookup_o g p <> None) ->
     (forall r, optimize_scan g (o2 :: r) = (true, apply_T1 g o1 o2 t_in t_out))
     /\ T1_rewritten g o1 o2 t_in t_mid t_out (apply_T1 g o1 o2 t_in t_out))
  /\ (exists g', optimize 10 g_cancel = Some g'
       /\ g_ops g' = [12%nat] /\ g_tensors g' = [0%nat; 3%nat]
       /\ type_of g' 12 = Some ORelu
       /\ inputs_of g' 12 = [0%nat] /\ outputs_of g' 12 = [3%nat]
       /\ shape_of g' 3 = [4; 3; 2]
       /\ targets_of g' 0 = [12%nat] /\ preds_of g' 12 = []).
Proof.
  split.
  - intros g o1 o2 t_in t_mid t_out Ht1 Hmid HNo HNt Htio Hsrc Hti Hcons Hp. split.
    + intros r. simpl. rewrite Ht1. reflexivity.
    + exact (apply_T1_effect g o1 o2 t_in t_mid t_out Ht1 Hmid HNo HNt Htio Hsrc Hti Hcons Hp).
  - eexists. split; [vm_compute; reflexivity|].
    vm_compute. repeat split.
Qed.

Lemma optimize_T1_rewrite_witness :
  T1_rewritten g_cancel 10 11 0 1 2 (apply_T1 g_cancel 10 11 0 2).
Proof.
  refine (proj2 (proj1 optimize_T1_rewrite g_cancel 10%nat 11%nat 0%nat 1%nat 2%nat
                   _ _ _ _ _ _ _ _ _)).
  - vm_compute. reflexivity.
  - vm_compute. reflexivity.
  - vm_compute. repeat constructor; simpl; intuition discriminate.
  - vm_compute. repeat constructor; simpl; intuition discriminate.
  - discriminate.
  - vm_compute. discriminate.
  - vm_compute. discriminate.
  - vm_compute. intros c [<-|[]]. discriminate.
  - vm_compute. discriminate.
Defined.

(** C4 (counterexample): rule T1 matches at the pair of Transposes 11 and
    12 of the chain X -> T -> T -> T -> Relu, yet the graph [optimize]
    returns still holds operator 12: the pair 10, 11 is rewritten first,
    and operator 12 no longer has a Transpose producer. *)
Lemma optimize_T1_overlapping_pair_kept :
  t1_match g_chain 12 = Some (11%nat, 1%nat, 3%nat)
  /\ exists g', optimize 10 g_chain = Some g' /\ In 12%nat (g_ops g')
                /\ type_of g' 12 = Some (OTranspose [1; 0]).
Proof.
  split; [vm_compute; reflexivity|].
  eexists. split; [vm_compute; reflexivity|].
  vm_compute. split; [left; reflexivity | reflexivity].
Qed.

(* ------------------------------------------------------------------ *)
(** ** [topo_sort] *)

Lemma memb_In (x : nat) (l : list nat) : memb x l = true <-> In x l.
Proof.
  unfold memb. rewrite existsb_exists. split.
  - intros [y [Hy E]]. apply Nat.eqb_eq in E. subst. exact Hy.
  - intros H. exists x. split; [exact H | apply Nat.eqb_refl].
Qed.

Lemma topo_ready_true g s o :
  topo_ready g s o = true -> ~ In o s /\ (forall p, topo_dep g p o -> In p s).
Proof.
  unfold topo_ready. intros H. apply andb_true_iff in H as [H1 H2]. split.
  - intros Hin. apply memb_In in Hin. rewrite Hin in H1. discriminate.
  - intros p [_ [t [Ht Hs]]]. rewrite forallb_forall in H2. specialize (H2 t Ht).
    rewrite Hs in H2. apply memb_In. exact H2.
Qed.

Lemma topo_ready_false g s o :
  In o (g_ops g) -> topo_ready g s o = false ->
  In o s \/ exists p, topo_dep g p o /\ ~ In p s.
Proof.
  unfold topo_ready. intros Ho H. apply andb_false_iff in H as [H|H].
  - left. apply memb_In. destruct (memb o s); [reflexivity | discriminate].
  - right. apply forallb_false_iff in H as [t [Ht Hf]].
    destruct (source_of g t) as [p|] eqn:E; [|discriminate].
    exists p. split; [split; [exact Ho | exists t; auto]|].
    intros Hp. apply memb_In in Hp. congruence.
Qed.

Lemma topo_ordered_snoc g s o :
  topo_ordered g s -> (forall p, topo_dep g p o -> In p s) -> topo_ordered g (s ++ [o]).
Proof.
  intros Hs Ho k o' Hk p Hp.
  destruct (Nat.lt_ge_cases k (length s)) as [Hlt|Hge].
  - rewrite nth_error_app1 in Hk by exact Hlt.
    destruct (Hs k o' Hk p Hp) as [k' [Hk' E]]. exists k'. split; [exact Hk'|].
    rewrite nth_error_app1 by lia. exact E.
  - rewrite nth_error_app2 in Hk by exact Hge.
    destruct (k - length s)%nat as [|n] eqn:E; simpl in Hk.
    + injection Hk as <-. apply Ho in Hp. apply In_nth_error in Hp as [k' Hk'].
      assert (Hl : (k' < length s)%nat) by (apply nth_error_Some; congruence).
      exists k'. split; [lia|]. rewrite nth_error_app1 by exact Hl. exact Hk'.
    + destruct n; discriminate.
Qed.

Lemma topo_inv_nil g : topo_inv g [].
Proof.
  split; [constructor|]. split; [intros x []|].
  intros k o Hk. destruct k; discriminate.
Qed.

Lemma topo_pass_inv g l : incl l (g_ops g) ->
  forall s m s' m', topo_inv g s -> topo_pass g l s m = (s', m') ->
  topo_inv g s'
  /\ (exists d, s' = s ++ d)
  /\ (m' = false -> m = false /\ s' = s /\ forall o, In o l -> topo_ready g s o = false)
  /\ (m' = true -> m = true \/ (length s < length s')%nat).
Proof.
  induction l as [|o r IH]; intros Hl s m s' m' Hs Hp; simpl in Hp.
  - injection Hp as <- <-. split; [exact Hs|]. split; [exists []; rewrite app_nil_r; reflexivity|].
    split; [intros ->; repeat split; auto; intros o []|]. auto.
  - assert (Hr : incl r (g_ops g)) by (intros x Hx; apply Hl; right; exact Hx).
    destruct (topo_ready g s o) eqn:R.
    + apply topo_ready_true in R as [Rn Rd].
      assert (Hs1 : topo_inv g (s ++ [o])).
      { destruct Hs as (Hnd & Hinc & Hord). split; [|split].
        - apply (Permutation_NoDup (Permutation_cons_append s o)). constructor; assumption.
        - intros x Hx. apply in_app_or in Hx as [Hx|[<-|[]]]; [apply Hinc; exact Hx|].
          apply Hl. left. reflexivity.
        - apply topo_ordered_snoc; assumption. }
      destruct (IH Hr _ _ _ _ Hs1 Hp) as (Hi & [d Hd] & Hf & Ht).
      split; [exact Hi|]. split; [exists (o :: d); rewrite Hd, <- app_assoc; reflexivity|].
      split.
      * intros Hm. destruct (Hf Hm) as [Ht' _]. discriminate.
      * intros _. right. rewrite Hd, !length_app. simpl. lia.
    + destruct (IH Hr _ _ _ _ Hs Hp) as (Hi & Hd & Hf & Ht).
      split; [exact Hi|]. split; [exact Hd|]. split; [|exact Ht].
      intros Hm. destruct (Hf Hm) as (Hm0 & Hs' & Hall). split; [exact Hm0|].
      split; [exact Hs'|]. intros x [<-|Hx]; [exact R | apply Hall; exact Hx].
Qed.

Lemma topo_loop_sound g f s s' :
  topo_inv g s -> topo_loop g f s = Some s' ->
  topo_inv g s' /\ (length (g_ops g) <= length s')%nat.
Proof.
  revert s. induction f as [|f IH]; intros s Hs H; simpl in H; [discriminate|].
  destruct (length s <? length (g_ops g))%nat eqn:L.
  - destruct (topo_pass g (g_ops g) s false) as [s1 m] eqn:P.
    destruct m; [|discriminate].
    destruct (topo_pass_inv g (g_ops g) (fun x h => h) s false s1 true Hs P) as (Hi & _).
    exact (IH s1 Hi H).
  - injection H as <-. split; [exact Hs|]. apply Nat.ltb_ge. exact L.
Qed.

Lemma chain_app_r R a r : chain R (a ++ r) -> chain R r.
Proof.
  induction a as [|x a IH]; simpl; [auto|].
  intros H. apply IH. destruct a as [|y a]; simpl in *.
  - destruct r; [exact I | exact (proj2 H)].
  - exact (proj2 H).
Qed.

Lemma chain_clos R x m y c : chain R (x :: m ++ y :: c) -> clos_trans nat R x y.
Proof.
  revert x. induction m as [|z m IH]; intros x H; simpl in H.
  - apply t_step. exact (proj1 H).
  - apply t_trans with z; [apply t_step; exact (proj1 H) | apply IH; exact (proj2 H)].
Qed.

Lemma not_NoDup_split (w : list nat) :
  ~ NoDup w -> exists a b c x, w = a ++ x :: b ++ x :: c.
Proof.
  induction w as [|y r IH]; intros H; [exfalso; apply H; constructor|].
  destruct (in_dec Nat.eq_dec y r) as [Hy|Hy].
  - apply in_split in Hy as [b [c ->]]. exists [], b, c, y. reflexivity.
  - destruct IH as (a & b & c & x & ->).
    + intros Hr. apply H. constructor; assumption.
    + exists (y :: a), b, c, x. reflexivity.
Qed.

(** A finite set in which every element has an [R]-predecessor holds an
    [R]-cycle. *)
Lemma cycle_of_no_minimal (R : nat -> nat -> Prop) (P : nat -> Prop) (U : list nat) (u0 : nat) :
  P u0 -> (forall x, P x -> In x U) -> (forall x, P x -> exists p, P p /\ R p x) ->
  exists x, clos_trans nat R x x.
Proof.
  intros H0 HU Hpred.
  assert (Hw : forall k, exists h w, length w = k /\ P h /\ (forall y, In y (h :: w) -> P y)
                                     /\ chain R (h :: w)).
  { induction k as [|k (h & w & Hl & Hh & Hall & Hc)].
    - exists u0, []. repeat split; auto. intros y [<-|[]]. exact H0.
    - destruct (Hpred h Hh) as [p [Hp Hr]]. exists p, (h :: w). repeat split.
      + simpl. rewrite Hl. reflexivity.
      + exact Hp.
      + intros y [<-|Hy]; [exact Hp | apply Hall; exact Hy].
      + exact Hr.
      + exact Hc. }
  destruct (Hw (length U)) as (h & w & Hl & _ & Hall & Hc).
  assert (Hnd : ~ NoDup (h :: w)).
  { intros Hnd. apply NoDup_incl_length with (l' := U) in Hnd.
    - simpl in Hnd. lia.
    - intros y Hy. apply HU, Hall. exact Hy. }
  apply not_NoDup_split in Hnd as (a & b & c & x & E).
  exists x. rewrite E in Hc. apply chain_app_r in Hc. exact (chain_clos R x b x c Hc).
Qed.

Lemma topo_loop_complete g :
  NoDup (g_ops g) ->
  (forall o t p, In o (g_ops g) -> In t (inputs_of g o) -> source_of g t = Some p ->
                 In p (g_ops g)) ->
  ~ (exists o, clos_trans nat (topo_dep g) o o) ->
  forall f s, topo_inv g s -> (length (g_ops g) - length s < f)%nat -> topo_loop g f s <> None.
Proof.
  intros HNo Hcl Hac f. induction f as [|f IH]; intros s Hs Hf; [lia|].
  simpl. destruct (length s <? length (g_ops g))%nat eqn:L; [|discriminate].
  apply Nat.ltb_lt in L.
  destruct (topo_pass g (g_ops g) s false) as [s1 m] eqn:P.
  destruct (topo_pass_inv g (g_ops g) (fun x h => h) s false s1 m Hs P)
    as (Hi & _ & Hfalse & Htrue).
  destruct m.
  - apply IH; [exact Hi|].
    destruct (Htrue eq_refl) as [H|H]; [discriminate|].
    destruct Hi as (Hnd1 & Hinc1 & _).
    pose proof (NoDup_incl_length Hnd1 Hinc1). lia.
  - exfalso. destruct (Hfalse eq_refl) as (_ & _ & Hall).
    destruct Hs as (Hnd & Hinc & _).
    destruct (forallb (fun o => memb o s) (g_ops g)) eqn:Hcov.
    + rewrite forallb_forall in Hcov.
      assert (Hsub : incl (g_ops g) s) by (intros x Hx; apply memb_In, Hcov, Hx).
      pose proof (NoDup_incl_length HNo Hsub). lia.
    + apply forallb_false_iff in Hcov as [u0 [Hu0 Hm]].
      apply Hac.
      apply (cycle_of_no_minimal (topo_dep g) (fun x => In x (g_ops g) /\ ~ In x s)
               (g_ops g) u0).
      * split; [exact Hu0|]. intros H. apply memb_In in H. congruence.
      * intros x [Hx _]. exact Hx.
      * intros x [Hx Hxs]. destruct (topo_ready_false g s x Hx (Hall x Hx)) as [H|[p [Hd Hp]]];
          [contradiction|].
        exists p. split; [|exact Hd]. split; [|exact Hp].
        destruct Hd as [_ [t [Ht Hst]]]. exact (Hcl x t p Hx Ht Hst).
Qed.

Lemma topo_ordered_clos g s x y :
  topo_ordered g s -> NoDup s -> incl (g_ops g) s -> clos_trans nat (topo_dep g) x y ->
  exists i j, (i < j)%nat /\ nth_error s i = Some x /\ nth_error s j = Some y.
Proof.
  intros Hord Hnd Hinc H. induction H as [x y Hd|x y z _ IH1 _ IH2].
  - assert (Hy : In y s) by (apply Hinc; exact (proj1 Hd)).
    apply In_nth_error in Hy as [j Hj].
    destruct (Hord j y Hj x Hd) as [i [Hij Hi]]. exists i, j. auto.
  - destruct IH1 as (i & j1 & H1 & Hi & Hj1). destruct IH2 as (j2 & k & H2 & Hj2 & Hk).
    assert (j1 = j2).
    { apply (proj1 (NoDup_nth_error s) Hnd); [apply nth_error_Some; congruence | congruence]. }
    subst. exists i, k. split; [lia|]. auto.
Qed.

(** C6: on a graph not yet marked sorted, whose [ops] are distinct, whose
    inputs' producers are operators of the graph, and whose recorded
    predecessors are producers of inputs, [topo_sort] succeeds exactly when
    the operator dependency relation has no cycle; on success it only
    reorders [graph.ops], into a permutation in which every producer of an
    input and every predecessor of an operator sits at a smaller index. *)
Theorem topo_sort_spec (g : GraphObj) :
  g_sorted g = false ->
  NoDup (g_ops g) ->
  (forall o t p, In o (g_ops g) -> In t (inputs_of g o) -> source_of g t = Some p ->
                 In p (g_ops g)) ->
  (forall o p, In o (g_ops g) -> In p (preds_of g o) -> topo_dep g p o) ->
  ((exists g', topo_sort g = Some g') <-> ~ (exists o, clos_trans nat (topo_dep g) o o))
  /\ (forall g', topo_sort g = Some g' ->
        g' = mkGraph (g_theap g) (g_oheap g) (g_tensors g) (g_ops g') (g_allocator g) true
        /\ Permutation (g_ops g) (g_ops g')
        /\ (forall o p, In o (g_ops g') -> topo_dep g p o \/ In p (preds_of g' o) ->
              exists i j, (i < j)%nat /\ nth_error (g_ops g') i = Some p
                          /\ nth_error (g_ops g') j = Some o)).
Proof.
  intros Hns HNo Hcl Hpr.
  assert (Hsucc : forall g', topo_sort g = Some g' ->
            exists s, topo_loop g (S (length (g_ops g))) [] = Some s
                      /\ g' = mkGraph (g_theap g) (g_oheap g) (g_tensors g) s (g_allocator g) true).
  { intros g' H. unfold topo_sort in H. rewrite Hns in H.
    destruct (topo_loop g _ []) as [s|]; [|discriminate].
    injection H as <-. exists s. auto. }
  assert (Hgood : forall s, topo_loop g (S (length (g_ops g))) [] = Some s ->
            Permutation (g_ops g) s /\ NoDup s /\ incl (g_ops g) s /\ topo_ordered g s).
  { intros s H. destruct (topo_loop_sound g _ [] s (topo_inv_nil g) H) as [(Hnd & Hinc & Hord) Hl].
    assert (Hp : Permutation s (g_ops g)) by (apply NoDup_Permutation_bis; assumption).
    split; [apply Permutation_sym; exact Hp|]. split; [exact Hnd|]. split; [|exact Hord].
    intros x Hx. apply (Permutation_in _ (Permutation_sym Hp)). exact Hx. }
  split.
  - split.
    + intros [g' H] [x Hx]. destruct (Hsucc g' H) as [s [Hs _]].
      destruct (Hgood s Hs) as (_ & Hnd & Hinc & Hord).
      destruct (topo_ordered_clos g s x x Hord Hnd Hinc Hx) as (i & j & Hij & Hi & Hj).
      assert (i = j) by (apply (proj1 (NoDup_nth_error s) Hnd);
                         [apply nth_error_Some; congruence | congruence]).
      lia.
    + intros Hac. unfold topo_sort. rewrite Hns.
      destruct (topo_loop g (S (length (g_ops g))) []) as [s|] eqn:E.
      * eexists. reflexivity.
      * exfalso. apply (topo_loop_complete g HNo Hcl Hac (S (length (g_ops g))) []
                          (topo_inv_nil g)); [simpl; lia | exact E].
  - intros g' H. destruct (Hsucc g' H) as [s [Hs ->]]. simpl.
    destruct (Hgood s Hs) as (Hperm & Hnd & Hinc & Hord).
    split; [reflexivity|]. split; [exact Hperm|].
    intros o p Ho Hd.
    assert (Hd' : topo_dep g p o).
    { destruct Hd as [Hd|Hd]; [exact Hd|]. apply Hpr; [|exact Hd].
      apply (Permutation_in _ (Permutation_sym Hperm)). exact Ho. }
    exact (topo_ordered_clos g s p o Hord Hnd Hinc (t_step _ _ _ _ Hd')).
Qed.

(** [g_cycle] meets the hypotheses of [topo_sort_spec], and [topo_sort]
    fails on it. *)
Lemma topo_sort_spec_witness : topo_sort g_cycle = None.
Proof.
  destruct (topo_sort g_cycle) as [g'|] eqn:E; [exfalso|reflexivity].
  assert (Hops : g_ops g_cycle = [10%nat; 11%nat]) by reflexivity.
  refine (proj1 (proj1 (topo_sort_spec g_cycle _ _ _ _)) (ex_intro _ g' E) _).
  - reflexivity.
  - rewrite Hops. repeat constructor; simpl; intuition discriminate.
  - rewrite Hops. intros o t p Ho Ht Hs. simpl in Ho.
    destruct Ho as [<-|[<-|[]]]; vm_compute in Ht; destruct Ht as [<-|[]];
      vm_compute in Hs; injection Hs as <-; simpl; auto.
  - rewrite Hops. intros o p Ho Hp. simpl in Ho.
    destruct Ho as [<-|[<-|[]]]; vm_compute in Hp; destruct Hp as [<-|[]];
      (split; [rewrite Hops; simpl; auto|]).
    + exists 0%nat. split; [vm_compute; auto | reflexivity].
    + exists 1%nat. split; [vm_compute; auto | reflexivity].
  - exists 10%nat. apply t_trans with 11%nat; apply t_step.
    + split; [rewrite Hops; simpl; auto|]. exists 1%nat. split; [vm_compute; auto | reflexivity].
    + split; [rewrite Hops; simpl; auto|]. exists 0%nat. split; [vm_compute; auto | reflexivity].
Defined.

(* ------------------------------------------------------------------ *)
(** ** [dataMalloc] *)

Lemma m64_range (x : Z) : 0 <= m64 x < W64.
Proof. unfold m64, W64. apply Z.mod_pos_bound. lia. Qed.

Lemma aligned_bounds (a : Allocator) (b : Z) :
  a_alignment a = 8 -> 0 <= b -> b + 8 <= W64 ->
  b <= getAlignedSize a b <= b + 7.
Proof.
  intros Ha Hb Hw. unfold getAlignedSize. rewrite Ha.
  destruct (Z.eq_dec b 0) as [->|Hb0]; [vm_compute; split; discriminate|].
  rewrite (m64_small (b - 1)) by lia.
  pose proof (Z.div_mod (b - 1) 8 ltac:(lia)) as Hd.
  pose proof (Z.mod_pos_bound (b - 1) 8 ltac:(lia)) as Hm.
  set (q := (b - 1) / 8) in *. set (r := (b - 1) mod 8) in *.
  rewrite (m64_small (q + 1)) by (unfold W64 in *; lia).
  rewrite (m64_small ((q + 1) * 8)) by (unfold W64 in *; lia).
  lia.
Qed.

Lemma getAlignedSize_alignment (a : Allocator) (b : Z) :
  a_alignment a = 8 -> getAlignedSize a b = getAlignedSize new_allocator b.
Proof. intros Ha. unfold getAlignedSize. rewrite Ha. reflexivity. Qed.

Lemma getAlignedSize_nonneg (b : Z) : 0 <= getAlignedSize new_allocator b.
Proof. unfold getAlignedSize. apply m64_range. Qed.

Lemma sum_aligned_nonneg g ts : 0 <= sum_aligned g ts.
Proof.
  unfold sum_aligned. induction ts as [|t ts IH]; simpl; [lia|].
  pose proof (getAlignedSize_nonneg (bytes_of g t)). lia.
Qed.

Lemma sum_aligned_cons g t ts :
  sum_aligned g (t :: ts) = getAlignedSize new_allocator (bytes_of g t) + sum_aligned g ts.
Proof. reflexivity. Qed.

Lemma alloc_tensors_tail g ts : forall u p m,
  0 <= u -> 0 <= p -> u + sum_aligned g ts < W64 -> p + sum_aligned g ts < W64 ->
  alloc_tensors g (mkAllocator u p 8 None []) ts m
  = Some (mkAllocator (u + sum_aligned g ts) (p + sum_aligned g ts) 8 None [],
          rev (tail_layout g p ts) ++ m).
Proof.
  induction ts as [|t ts IH]; intros u p m Hu Hp Hu' Hp'.
  - simpl. rewrite !Z.add_0_r. reflexivity.
  - rewrite sum_aligned_cons in *.
    pose proof (getAlignedSize_nonneg (bytes_of g t)) as HA.
    pose proof (sum_aligned_nonneg g ts) as HS.
    simpl alloc_tensors. unfold alloc. simpl a_ptr. cbv zeta.
    rewrite (getAlignedSize_alignment (mkAllocator u p 8 None []) _ eq_refl). simpl first_fit.
    cbn [a_peak a_used a_alignment a_free].
    rewrite (m64_small (u + _)) by lia. rewrite (m64_small (p + _)) by lia.
    rewrite IH by lia. simpl tail_layout. simpl rev. rewrite <- app_assoc. simpl.
    f_equal. f_equal. f_equal; lia.
Qed.

Lemma offset_lookup_unique (L : list (Z * Z)) (k v : Z) :
  NoDup (map fst L) -> In (k, v) L -> offset_lookup L k = v.
Proof.
  unfold offset_lookup. induction L as [|[k' v'] L IH]; intros Hnd Hin; [destruct Hin|].
  simpl in *. inversion Hnd as [|? ? Hk Hnd']; subst.
  destruct (Z.eqb k' k) eqn:E.
  - apply Z.eqb_eq in E. subst. destruct Hin as [Hin|Hin]; [injection Hin as ->; reflexivity|].
    exfalso. apply Hk. apply (in_map fst) in Hin. exact Hin.
  - destruct Hin as [Hin|Hin]; [injection Hin as -> ->; rewrite Z.eqb_refl in E; discriminate|].
    apply IH; assumption.
Qed.

Lemma tail_layout_fst g p ts : map fst (tail_layout g p ts) = map (fuid_of g) ts.
Proof. revert p; induction ts as [|t ts IH]; intros p; simpl; [|rewrite IH]; reflexivity. Qed.

Lemma tail_layout_nth g ts : forall p i t,
  nth_error ts i = Some t ->
  nth_error (tail_layout g p ts) i = Some (fuid_of g t, p + sum_aligned g (firstn i ts)).
Proof.
  induction ts as [|t0 ts IH]; intros p i t H; [destruct i; discriminate|].
  destruct i as [|i]; simpl in H.
  - injection H as <-. simpl. unfold sum_aligned. simpl. rewrite Z.add_0_r. reflexivity.
  - simpl. rewrite (IH _ i t H). rewrite sum_aligned_cons. do 2 f_equal. lia.
Qed.

Lemma sum_aligned_firstn_le g ts : forall k1 k2, (k1 <= k2)%nat ->
  sum_aligned g (firstn k1 ts) <= sum_aligned g (firstn k2 ts).
Proof.
  induction ts as [|t ts IH]; intros k1 k2 H.
  - rewrite !firstn_nil. lia.
  - destruct k1 as [|k1]; [simpl; apply sum_aligned_nonneg|].
    destruct k2 as [|k2]; [lia|]. simpl. rewrite !sum_aligned_cons.
    specialize (IH k1 k2 ltac:(lia)). lia.
Qed.

Lemma sum_aligned_firstn_S g ts : forall i t, nth_error ts i = Some t ->
  sum_aligned g (firstn (S i) ts)
  = sum_aligned g (firstn i ts) + getAlignedSize new_allocator (bytes_of g t).
Proof.
  induction ts as [|t0 ts IH]; intros i t H; [destruct i; discriminate|].
  destruct i as [|i]; simpl in H.
  - injection H as <-. simpl. rewrite sum_aligned_cons. unfold sum_aligned. simpl. lia.
  - change (firstn (S (S i)) (t0 :: ts)) with (t0 :: firstn (S i) ts).
    change (firstn (S i) (t0 :: ts)) with (t0 :: firstn i ts).
    rewrite !sum_aligned_cons, (IH i t H). lia.
Qed.

Lemma sum_aligned_firstn_all g ts : forall k, sum_aligned g (firstn k ts) <= sum_aligned g ts.
Proof.
  intros k. rewrite <- (firstn_all ts) at 2.
  destruct (Nat.le_ge_cases k (length ts)) as [H|H].
  - apply sum_aligned_firstn_le. exact H.
  - rewrite firstn_all2 by exact H. rewrite firstn_all. lia.
Qed.

Lemma lookup_t_setData_fold (h : Z -> Z) ts : forall g j,
  lookup_t (fold_left (fun g t => upd_t t (setDataBlob (h (fuid_of g t))) g) ts g) j
  = option_map (fun r => if memb j ts then setDataBlob (h (t_fuid r)) r else r) (lookup_t g j).
Proof.
  unfold memb. induction ts as [|t ts IH]; intros g j; simpl.
  - destruct (lookup_t g j); reflexivity.
  - rewrite IH, lookup_t_upd_t by (intros; reflexivity).
    destruct (lookup_t g j) as [r|] eqn:L; [simpl | reflexivity].
    rewrite (Nat.eqb_sym j t).
    destruct (Nat.eqb t j) eqn:E; simpl.
    + apply Nat.eqb_eq in E. subst. unfold fuid_of. rewrite L.
      destruct (existsb (Nat.eqb j) ts); reflexivity.
    + destruct (existsb (Nat.eqb j) ts); reflexivity.
Qed.

Lemma lists_setData_fold (h : Z -> Z) ts : forall g,
  g_tensors (fold_left (fun g t => upd_t t (setDataBlob (h (fuid_of g t))) g) ts g) = g_tensors g
  /\ g_allocator (fold_left (fun g t => upd_t t (setDataBlob (h (fuid_of g t))) g) ts g)
     = g_allocator g.
Proof.
  induction ts as [|t ts IH]; intros g; simpl; [auto|].
  destruct (IH (upd_t t (setDataBlob (h (fuid_of g t))) g)) as [-> ->]. auto.
Qed.

Lemma topo_sort_frame g gs : topo_sort g = Some gs ->
  g_theap gs = g_theap g /\ g_tensors gs = g_tensors g /\ g_allocator gs = g_allocator g.
Proof.
  unfold topo_sort. destruct (g_sorted g); [intros H; injection H as <-; auto|].
  destruct (topo_loop g _ []); [intros H; injection H as <-; simpl; auto | discriminate].
Qed.

Lemma bytes_of_nonneg g t : 0 <= bytes_of g t.
Proof.
  unfold bytes_of. destruct (lookup_t g t); [apply m64_range | lia].
Qed.

Lemma sum_aligned_bound g ts :
  fold_right Z.add 0 (map (fun t => bytes_of g t + 8) ts) < W64 ->
  sum_aligned g ts <= fold_right Z.add 0 (map (fun t => bytes_of g t + 8) ts).
Proof.
  induction ts as [|t ts IH]; simpl; intros H; [unfold sum_aligned; simpl; lia|].
  rewrite sum_aligned_cons.
  assert (Hr : 0 <= fold_right Z.add 0 (map (fun t => bytes_of g t + 8) ts)).
  { clear. induction ts as [|t ts IH]; simpl; [lia|]. pose proof (bytes_of_nonneg g t). lia. }
  pose proof (bytes_of_nonneg g t).
  pose proof (aligned_bounds new_allocator (bytes_of g t) eq_refl ltac:(lia) ltac:(lia)).
  specialize (IH ltac:(lia)). lia.
Qed.

Lemma sum_aligned_frame g gs ts :
  (forall j, lookup_t gs j = lookup_t g j) -> sum_aligned gs ts = sum_aligned g ts.
Proof.
  intros L. unfold sum_aligned. f_equal. apply map_ext. intros t.
  unfold bytes_of. rewrite L. reflexivity.
Qed.

Lemma tail_layout_frame g gs ts : forall p,
  (forall j, lookup_t gs j = lookup_t g j) -> tail_layout gs p ts = tail_layout g p ts.
Proof.
  induction ts as [|t ts IH]; intros p L; simpl; [reflexivity|].
  unfold fuid_of at 1, bytes_of at 1. rewrite !L. fold (fuid_of g t) (bytes_of g t).
  rewrite IH by exact L. reflexivity.
Qed.

(** C9: [dataMalloc] on a graph whose allocator is fresh, whose tensors
    have distinct fuids and live in the heap, and whose sizes fit [size_t],
    places tensor [i] of [graph.tensors] at the sum of the aligned sizes of
    tensors [0 .. i-1] (every [alloc] extends the tail, no block is ever
    freed); the byte ranges of distinct tensors are disjoint, and every range
    lies in [0, peak) of the region [getPtr] materializes. *)
Theorem dataMalloc_layout (g g' : GraphObj) :
  g_allocator g = new_allocator ->
  NoDup (map (fuid_of g) (g_tensors g)) ->
  (forall t, In t (g_tensors g) -> lookup_t g t <> None) ->
  fold_right Z.add 0 (map (fun t => bytes_of g t + 8) (g_tensors g)) < W64 ->
  dataMalloc g = Some g' ->
  g_tensors g' = g_tensors g
  /\ (forall i t, nth_error (g_tensors g) i = Some t ->
        data_of g' t = Some (sum_aligned g (firstn i (g_tensors g))))
  /\ (forall i j ti tj, i <> j ->
        nth_error (g_tensors g) i = Some ti -> nth_error (g_tensors g) j = Some tj ->
        sum_aligned g (firstn i (g_tensors g)) + bytes_of g ti
          <= sum_aligned g (firstn j (g_tensors g))
        \/ sum_aligned g (firstn j (g_tensors g)) + bytes_of g tj
          <= sum_aligned g (firstn i (g_tensors g)))
  /\ (forall i t, nth_error (g_tensors g) i = Some t ->
        0 <= sum_aligned g (firstn i (g_tensors g))
        /\ sum_aligned g (firstn i (g_tensors g)) + bytes_of g t <= a_peak (g_allocator g'))
  /\ a_peak (g_allocator g') = sum_aligned g (g_tensors g)
  /\ a_ptr (g_allocator g') = Some (a_peak (g_allocator g'))
  /\ a_free (g_allocator g') = [].
Proof.
  intros Ha Hnd Hin Hsum H.
  unfold dataMalloc in H. destruct (topo_sort g) as [gs|] eqn:Ets; [|discriminate].
  destruct (topo_sort_frame g gs Ets) as (Eh & Et & Ea).
  assert (Lk : forall j, lookup_t gs j = lookup_t g j)
    by (intros j; unfold lookup_t; rewrite Eh; reflexivity).
  set (ts := g_tensors g) in *.
  pose proof (sum_aligned_bound g ts Hsum) as Hb.
  rewrite Et, Ea, Ha in H. unfold new_allocator in H.
  rewrite (alloc_tensors_tail gs ts 0 0 []) in H
    by (try rewrite (sum_aligned_frame g gs ts Lk); lia).
  rewrite (sum_aligned_frame g gs ts Lk), (tail_layout_frame g gs ts 0 Lk), app_nil_r in H.
  injection H as Hg'. set (L := tail_layout g 0 ts) in Hg'.
  match type of Hg' with fold_left _ _ ?G0 = _ => set (g0 := G0) in Hg' end.
  subst g'.
  assert (Hts0 : g_tensors g0 = ts) by reflexivity.
  assert (Hal0 : g_allocator g0
                 = mkAllocator (0 + sum_aligned g ts) (0 + sum_aligned g ts) 8
                               (Some (0 + sum_aligned g ts)) []) by reflexivity.
  assert (Lk0 : forall j, lookup_t g0 j = lookup_t g j)
    by (intros j; unfold lookup_t; simpl; rewrite Eh; reflexivity).
  destruct (lists_setData_fold (offset_lookup (rev L)) ts g0) as [Hts Hal].
  rewrite Hts0 in Hts. rewrite Hal0 in Hal.
  assert (Hstep : forall i ti, nth_error ts i = Some ti ->
            sum_aligned g (firstn i ts) + bytes_of g ti <= sum_aligned g (firstn (S i) ts)).
  { intros i ti Hi. rewrite (sum_aligned_firstn_S g ts i ti Hi).
    pose proof (bytes_of_nonneg g ti).
    assert (bytes_of g ti + 8 <= W64).
    { apply nth_error_In in Hi. clear -Hi Hsum.
      induction ts as [|t r IH]; [destruct Hi|]. simpl in Hsum.
      assert (0 <= fold_right Z.add 0 (map (fun t => bytes_of g t + 8) r)).
      { clear. induction r as [|t r IH]; simpl; [lia|]. pose proof (bytes_of_nonneg g t). lia. }
      destruct Hi as [->|Hi]; [lia|]. pose proof (bytes_of_nonneg g t). apply IH; [lia|exact Hi]. }
    pose proof (aligned_bounds new_allocator (bytes_of g ti) eq_refl ltac:(lia) ltac:(lia)). lia. }
  refine (conj Hts (conj _ (conj _ (conj _ _)))).
  - intros i t Hi. unfold data_of. rewrite lookup_t_setData_fold.
    assert (Hm : memb t ts = true) by (apply memb_In; exact (nth_error_In _ _ Hi)).
    rewrite Hm, Lk0.
    destruct (lookup_t g t) as [r|] eqn:E; [|exfalso; exact (Hin t (nth_error_In _ _ Hi) E)].
    simpl. f_equal.
    assert (Hf : t_fuid r = fuid_of g t) by (unfold fuid_of; rewrite E; reflexivity).
    rewrite Hf. apply offset_lookup_unique.
    + rewrite map_rev. apply NoDup_rev. unfold L. rewrite tail_layout_fst. exact Hnd.
    + apply (in_rev L). apply (nth_error_In _ i). unfold L.
      rewrite (tail_layout_nth g ts 0 i t Hi). reflexivity.
  - intros i j ti tj Hij Hi Hj.
    destruct (Nat.lt_gt_cases i j) as [[Hlt|Hlt] _]; [exact Hij| |].
    + left. pose proof (Hstep i ti Hi).
      pose proof (sum_aligned_firstn_le g ts (S i) j Hlt). lia.
    + right. pose proof (Hstep j tj Hj).
      pose proof (sum_aligned_firstn_le g ts (S j) i Hlt). lia.
  - intros i t Hi. rewrite Hal. simpl. split.
    + apply sum_aligned_nonneg.
    + pose proof (Hstep i t Hi). pose proof (sum_aligned_firstn_all g ts (S i)). lia.
  - rewrite Hal. simpl. split; [lia|]. split; reflexivity.
Qed.

(** [g_cancel] meets the hypotheses of [dataMalloc_layout]: its four
    tensors of 96 bytes sit at 0, 96, 192 and 288. *)
Lemma dataMalloc_layout_witness :
  exists g', dataMalloc g_cancel = Some g'
             /\ data_of g' 3 = Some (sum_aligned g_cancel (firstn 3 (g_tensors g_cancel)))
             /\ sum_aligned g_cancel (firstn 3 (g_tensors g_cancel)) = 288.
Proof.
  destruct (dataMalloc g_cancel) as [g'|] eqn:E; [|vm_compute in E; discriminate].
  exists g'. split; [reflexivity|].
  destruct (dataMalloc_layout g_cancel g' eq_refl) as (_ & Hd & _).
  - vm_compute. repeat constructor; simpl; intuition discriminate.
  - intros t Ht. simpl in Ht. destruct Ht as [<-|[<-|[<-|[<-|[]]]]]; vm_compute; discriminate.
  - vm_compute. reflexivity.
  - exact E.
  - split; [apply (Hd 3%nat 3%nat); reflexivity | vm_compute; reflexivity].
Defined.

(* ------------------------------------------------------------------ *)
(** ** Axes, broadcasting and aligned sizes *)

Lemma get_real_axis_eq (axis rank : Z) :
  get_real_axis axis rank
  = if (1 <=? rank) && (- rank <=? axis) && (axis <? rank) then Some (axis mod rank) else None.
Proof.
  unfold get_real_axis.
  destruct (Z.geb_spec rank 1) as [H1|H1]; destruct (Z.leb_spec 1 rank); try lia; simpl.
  - destruct (Z.geb_spec axis (- rank)); destruct (Z.leb_spec (- rank) axis); try lia; simpl;
      destruct (Z.leb_spec axis (rank - 1)); destruct (Z.ltb_spec axis rank); try lia; simpl;
      try reflexivity.
    destruct (Z.ltb_spec axis 0).
    + f_equal. apply Z.mod_unique with (-1); lia.
    + f_equal. rewrite Z.mod_small; lia.
  - reflexivity.
Qed.

(** [get_real_axis axis rank] succeeds exactly when [rank >= 1] and
    [-rank <= axis < rank], and then returns [axis mod rank], the axis
    counted from 0. *)
Theorem get_real_axis_spec (axis rank : Z) :
  get_real_axis axis rank
  = if (1 <=? rank) && (- rank <=? axis) && (axis <? rank) then Some (axis mod rank) else None.
Proof. apply get_real_axis_eq. Qed.

Lemma wrap32_small' (x : Z) : - 2 ^ 31 <= x < 2 ^ 31 -> wrap32 x = x.
Proof.
  intros H. unfold wrap32. rewrite Z.mod_small by lia. lia.
Qed.

(** For a first input of rank [r < 2^31] and [0 <= d < r], the Concat
    constructor stores the axis [d] both when given [d] and when given the
    negative axis [d - r]. *)
Theorem concat_ctor_dim_negative (s0 : Shape) (rest : list Shape) (d : Z) :
  Z.of_nat (length s0) < 2 ^ 31 ->
  0 <= d < Z.of_nat (length s0) ->
  concat_ctor_dim (d - Z.of_nat (length s0)) (s0 :: rest) = Some d
  /\ concat_ctor_dim d (s0 :: rest) = Some d.
Proof.
  intros Hr Hd. unfold concat_ctor_dim.
  rewrite wrap32_small' by lia. rewrite !get_real_axis_eq.
  set (r := Z.of_nat (length s0)) in *.
  destruct (Z.leb_spec 1 r); [|lia]. destruct (Z.leb_spec (- r) (d - r)); [|lia].
  destruct (Z.ltb_spec (d - r) r); [|lia]. destruct (Z.leb_spec (- r) d); [|lia].
  destruct (Z.ltb_spec d r); [|lia]. simpl. split; f_equal.
  - symmetry. apply Z.mod_unique with (-1); lia.
  - apply Z.mod_small; lia.
Qed.

Lemma concat_ctor_dim_negative_witness :
  concat_ctor_dim (1 - Z.of_nat (length [2;3;4])) [[2;3;4]] = Some 1
  /\ concat_ctor_dim 1 [[2;3;4]] = Some 1.
Proof. apply (concat_ctor_dim_negative [2;3;4] [] 1); cbn [length]; lia. Defined.

(** With alignment 8 and [0 < size <= 2^64 - 8], [getAlignedSize] is
    the least multiple of 8 that is at least [size]. *)
Theorem getAlignedSize_spec (a : Allocator) (size : Z) :
  a_alignment a = 8 -> 0 < size <= W64 - 8 ->
  getAlignedSize a size mod 8 = 0
  /\ size <= getAlignedSize a size < size + 8
  /\ (forall m, m mod 8 = 0 -> size <= m -> getAlignedSize a size <= m).
Proof.
  intros Ha Hs. unfold getAlignedSize. rewrite Ha.
  rewrite (m64_small (size - 1)) by (unfold W64 in *; lia).
  pose proof (Z.div_mod (size - 1) 8 ltac:(lia)) as Hd.
  pose proof (Z.mod_pos_bound (size - 1) 8 ltac:(lia)) as Hm.
  set (q := (size - 1) / 8) in *. set (r := (size - 1) mod 8) in *.
  rewrite (m64_small (q + 1)) by (unfold W64 in *; lia).
  rewrite (m64_small ((q + 1) * 8)) by (unfold W64 in *; lia).
  split; [apply Z.mod_mul; lia|]. split; [lia|].
  intros m Hm8 Hsm.
  pose proof (Z.div_mod m 8 ltac:(lia)) as Hdm. rewrite Hm8 in Hdm.
  assert (q < m / 8) by lia. lia.
Qed.

Lemma getAlignedSize_spec_witness :
  getAlignedSize new_allocator 13 mod 8 = 0
  /\ 13 <= getAlignedSize new_allocator 13 < 13 + 8
  /\ (forall m, m mod 8 = 0 -> 13 <= m -> getAlignedSize new_allocator 13 <= m).
Proof. apply (getAlignedSize_spec new_allocator 13); [reflexivity | unfold W64; lia]. Defined.

Lemma bcast_dim_comm (a b : Z) : bcast_dim a b = bcast_dim b a.
Proof.
  unfold bcast_dim.
  destruct (Z.eqb_spec a b); destruct (Z.eqb_spec b a); subst; try lia; [reflexivity|].
  destruct (Z.eqb_spec a 1); destruct (Z.eqb_spec b 1); subst; try lia; reflexivity.
Qed.

Lemma bcast_aligned_comm (n : nat) : forall ra rb, bcast_aligned n ra rb = bcast_aligned n rb ra.
Proof.
  induction n as [|n IH]; intros ra rb; [reflexivity|]. simpl.
  rewrite bcast_dim_comm, IH. reflexivity.
Qed.

Lemma bcast_aligned_length (n : nat) : forall ra rb r, bcast_aligned n ra rb = Some r -> length r = n.
Proof.
  induction n as [|n IH]; intros ra rb r H; simpl in H; [injection H as <-; reflexivity|].
  destruct (bcast_dim _ _); [|discriminate]. destruct (bcast_aligned n _ _) eqn:E; [|discriminate].
  injection H as <-. simpl. f_equal. exact (IH _ _ _ E).
Qed.

Lemma bcast_aligned_self (l : list Z) : bcast_aligned (length l) l l = Some l.
Proof.
  induction l as [|x l IH]; [reflexivity|]. simpl. unfold bcast_dim at 1. rewrite Z.eqb_refl, IH.
  reflexivity.
Qed.

Lemma bcast_dim_one (x : Z) : bcast_dim x 1 = Some x.
Proof.
  unfold bcast_dim. destruct (Z.eqb_spec x 1); [subst; reflexivity|]. reflexivity.
Qed.

Lemma bcast_aligned_nil (l : list Z) : bcast_aligned (length l) l [] = Some l.
Proof.
  induction l as [|x l IH]; [reflexivity|]. simpl. rewrite bcast_dim_one, IH. reflexivity.
Qed.

(** [infer_broadcast] is symmetric, and a result has the rank of the
    larger operand. *)
Theorem infer_broadcast_comm (A B : Shape) :
  infer_broadcast A B = infer_broadcast B A
  /\ (forall C, infer_broadcast A B = Some C -> length C = Nat.max (length A) (length B)).
Proof.
  rewrite !infer_broadcast_refines. unfold broadcast_spec. split.
  - rewrite Nat.max_comm, bcast_aligned_comm. reflexivity.
  - intros C H. destruct (bcast_aligned _ _ _) eqn:E; [|discriminate].
    injection H as <-. rewrite length_rev. exact (bcast_aligned_length _ _ _ _ E).
Qed.

(** A shape broadcast with itself, with the empty shape, or (when not
    empty) with [[1]] is itself. *)
Theorem infer_broadcast_neutral (A : Shape) :
  infer_broadcast A A = Some A
  /\ infer_broadcast A [] = Some A
  /\ (A <> [] -> infer_broadcast A [1] = Some A).
Proof.
  rewrite !infer_broadcast_refines. unfold broadcast_spec.
  split; [|split].
  - rewrite Nat.max_id, <- length_rev, bcast_aligned_self. simpl. rewrite rev_involutive. reflexivity.
  - simpl. rewrite Nat.max_0_r, <- length_rev, bcast_aligned_nil. simpl. rewrite rev_involutive.
    reflexivity.
  - intros HA. simpl length.
    destruct (rev A) as [|x r] eqn:E.
    + exfalso. apply HA. rewrite <- (rev_involutive A), E. reflexivity.
    + replace (Nat.max (length A) 1) with (length (x :: r)).
      2:{ rewrite <- E, length_rev. destruct A; [contradiction|]. simpl. lia. }
      simpl. rewrite bcast_dim_one, bcast_aligned_nil. simpl.
      change (rev r ++ [x]) with (rev (x :: r)). rewrite <- E, rev_involutive. reflexivity.
Qed.

(* ------------------------------------------------------------------ *)
(** ** Index linearisation *)

Lemma shape_prod_pos (s : Shape) : Forall (fun d => 0 < d) s -> 0 < shape_prod s.
Proof.
  induction 1 as [|x l Hx _ IH]; [reflexivity|].
  change (shape_prod (x :: l)) with (x * shape_prod l). nia.
Qed.

Lemma shape_prod_app (a b : Shape) : shape_prod (a ++ b) = shape_prod a * shape_prod b.
Proof. unfold shape_prod. induction a as [|x a IH]; cbn [app fold_right]; [ring|]. rewrite IH. ring. Qed.

Lemma shape_prod_rev (s : Shape) : shape_prod (rev s) = shape_prod s.
Proof.
  induction s as [|x s IH]; [reflexivity|]. simpl. rewrite shape_prod_app, IH.
  unfold shape_prod. simpl. ring.
Qed.

Lemma horner_app (x y : Z) : forall a b, length a = length b ->
  horner (a ++ [x]) (b ++ [y]) = horner a b + shape_prod b * x.
Proof.
  induction a as [|i a IH]; intros [|d b] H; simpl in H; try discriminate.
  - cbn [app horner]. unfold shape_prod. cbn [fold_right]. ring.
  - cbn [app horner]. rewrite IH by lia. unfold shape_prod. cbn [fold_right]. ring.
Qed.

Lemma Forall2_rev' {A B} (P : A -> B -> Prop) (l1 : list A) (l2 : list B) :
  Forall2 P l1 l2 -> Forall2 P (rev l1) (rev l2).
Proof.
  induction 1; simpl; [constructor|]. apply Forall2_app; [exact IHForall2|].
  constructor; [exact H|constructor].
Qed.

Lemma horner_bound (ri rs : list Z) :
  Forall2 (fun i d => 0 <= i < d) ri rs -> 0 <= horner ri rs < shape_prod rs.
Proof.
  induction 1 as [|i d ri rs Hid Hf IH]; [simpl; unfold shape_prod; simpl; lia|].
  change (shape_prod (d :: rs)) with (d * shape_prod rs). cbn [horner]. nia.
Qed.

Lemma locate_rev_ok (rs : list Z) : forall n,
  Forall (fun d => 0 < d) rs -> shape_prod rs <= 2 ^ 31 -> 0 <= n < shape_prod rs ->
  exists ri, locate_rev n rs = Some ri
             /\ Forall2 (fun i d => 0 <= i < d) ri rs /\ horner ri rs = n.
Proof.
  induction rs as [|d rs IH]; intros n Hpos Hp Hn.
  - exists []. change (shape_prod []) with 1 in Hn. split; [reflexivity|]. split; [constructor|]. simpl. lia.
  - inversion Hpos as [|? ? Hd Hpos']; subst.
    pose proof (shape_prod_pos _ Hpos') as Hp'.
    change (shape_prod (d :: rs)) with (d * shape_prod rs) in Hp, Hn.
    simpl. replace (d =? 0) with false by (symmetry; apply Z.eqb_neq; lia).
    rewrite (wrap32_small' n) by lia.
    rewrite Z.quot_div_nonneg, Z.rem_mod_nonneg by lia.
    assert (Hq : 0 <= n / d < shape_prod rs).
    { split; [apply Z.div_pos; lia|]. apply Z.div_lt_upper_bound; lia. }
    rewrite (wrap32_small' (n / d)) by nia. rewrite m64_small by (unfold W64; nia).
    destruct (IH (n / d) Hpos' ltac:(nia) Hq) as [ri [Hr [Hf Hh]]].
    rewrite Hr. exists (n mod d :: ri). split; [reflexivity|]. split.
    + constructor; [|exact Hf]. pose proof (Z.mod_pos_bound n d). lia.
    + simpl. rewrite Hh. pose proof (Z.div_mod n d). lia.
Qed.

Lemma locate_rev_horner (ri rs : list Z) :
  Forall2 (fun i d => 0 <= i < d) ri rs -> shape_prod rs <= 2 ^ 31 ->
  locate_rev (horner ri rs) rs = Some ri.
Proof.
  induction 1 as [|i d ri rs Hid Hf IH]; intros Hp; [reflexivity|].
  pose proof (horner_bound ri rs Hf) as Hb.
  change (shape_prod (d :: rs)) with (d * shape_prod rs) in Hp.
  simpl. replace (d =? 0) with false by (symmetry; apply Z.eqb_neq; lia).
  set (n := i + d * horner ri rs).
  rewrite (wrap32_small' n) by (unfold n; nia).
  rewrite Z.quot_div_nonneg, Z.rem_mod_nonneg by (unfold n; nia).
  assert (Hdiv : n / d = horner ri rs) by (unfold n; symmetry; apply Z.div_unique with i; lia).
  assert (Hmod : n mod d = i) by (unfold n; symmetry; apply Z.mod_unique with (horner ri rs); lia).
  rewrite Hdiv, Hmod. rewrite (wrap32_small' (horner ri rs)) by nia.
  rewrite m64_small by (unfold W64; nia). rewrite IH by nia. reflexivity.
Qed.

Lemma fold_left_seq_shift {B} (f : B -> nat -> B) (k m : nat) (b : B) :
  fold_left f (seq (S k) m) b = fold_left (fun b i => f b (S i)) (seq k m) b.
Proof.
  rewrite <- seq_shift. generalize (seq k m) b. intros l; induction l as [|x l IH]; intros b';
    simpl; auto.
Qed.

Lemma delocate_fold (I S T : list Z) : forall acc,
  length I = length S -> length S = length T ->
  Forall2 (fun i d => 0 <= i < d) I S -> Forall (fun t => 0 <= t) T ->
  0 <= acc -> acc + lin3 I S T < 2 ^ 31 ->
  fold_left
    (fun acc i =>
       match acc with
       | None => None
       | Some ans =>
           let s := nth i S 0 in
           if s =? 0 then None else
           let idx := Z.rem (nth i I 0) s in
           Some (m64 (ans + wrap32 (idx * nth i T 0)))
       end)
    (seq 0 (length S)) (Some acc) = Some (acc + lin3 I S T).
Proof.
  revert S T. induction I as [|i I IH]; intros [|s S] [|t T] acc HIS HST Hb HT Hacc Hsum;
    simpl in HIS, HST; try discriminate; inversion Hb as [|? ? ? ? Hi Hb']; subst.
  - simpl. f_equal. lia.
  - inversion HT as [|? ? Ht HT']; subst.
    simpl in Hsum. pose proof (horner_bound I S) as _.
    assert (Hl : 0 <= lin3 I S T).
    { clear -Hb' HT'. revert S T Hb' HT'. induction I as [|i I IH]; intros [|s S] [|t T] Hb HT;
        simpl; try lia; inversion Hb; inversion HT; subst. specialize (IH S T ltac:(assumption) ltac:(assumption)). nia. }
    cbn [length seq fold_left nth].
    replace (s =? 0) with false by (symmetry; apply Z.eqb_neq; lia).
    rewrite Z.rem_small by lia. rewrite wrap32_small' by nia.
    rewrite m64_small by (unfold W64; nia).
    rewrite fold_left_seq_shift. cbn [nth].
    rewrite (IH S T) by (try lia; assumption). simpl. f_equal. ring.
Qed.

Lemma lin3_row_major (I S : list Z) : length I = length S ->
  lin3 I S (row_major_strides S) = horner (rev I) (rev S).
Proof.
  revert S. induction I as [|i I IH]; intros [|s S] H; simpl in H; try discriminate; [reflexivity|].
  simpl. rewrite horner_app by (rewrite !length_rev; lia). rewrite IH by lia. rewrite shape_prod_rev. ring.
Qed.

Lemma length_row_major_strides (S : list Z) : length (row_major_strides S) = length S.
Proof. induction S; simpl; auto. Qed.

Lemma row_major_strides_nonneg (S : list Z) :
  Forall (fun d => 0 < d) S -> Forall (fun t => 0 <= t) (row_major_strides S).
Proof.
  induction 1; simpl; constructor; [|assumption]. pose proof (shape_prod_pos _ H0). lia.
Qed.

Lemma Forall2_length' {A B} (P : A -> B -> Prop) l1 l2 : Forall2 P l1 l2 -> length l1 = length l2.
Proof. induction 1; simpl; auto. Qed.

Lemma Forall2_pos (I S : list Z) : Forall2 (fun i d => 0 <= i < d) I S -> Forall (fun d => 0 < d) S.
Proof. induction 1; constructor; [lia|assumption]. Qed.

(** For positive extents whose product [P] fits in an [int], every
    [0 <= n < P] is located by [locate_index] at in-range coordinates, and
    [delocate_index] with the row-major strides maps them back to [n]. *)
Theorem locate_delocate (n : Z) (shape : Shape) :
  Forall (fun d => 0 < d) shape -> shape_prod shape < 2 ^ 31 -> 0 <= n < shape_prod shape ->
  exists idx, locate_index n shape = Some idx
              /\ Forall2 (fun i d => 0 <= i < d) idx shape
              /\ delocate_index idx shape (row_major_strides shape) = Some n.
Proof.
  intros Hpos Hp Hn.
  destruct (locate_rev_ok (rev shape) n) as [ri [Hr [Hf Hh]]];
    [apply Forall_rev; exact Hpos | rewrite shape_prod_rev; lia | rewrite shape_prod_rev; lia |].
  exists (rev ri). unfold locate_index. rewrite Hr. split; [reflexivity|].
  pose proof (Forall2_rev' _ _ _ Hf) as Hf'. rewrite rev_involutive in Hf'.
  split; [exact Hf'|].
  pose proof (Forall2_length' _ _ _ Hf') as Hl.
  unfold delocate_index. rewrite Hl, Nat.eqb_refl, length_row_major_strides, Nat.eqb_refl. simpl.
  rewrite delocate_fold; [|exact Hl | symmetry; apply length_row_major_strides | exact Hf'
    | apply row_major_strides_nonneg; exact Hpos | lia | ].
  - rewrite lin3_row_major by exact Hl. rewrite rev_involutive, Hh. reflexivity.
  - rewrite lin3_row_major by exact Hl. rewrite rev_involutive, Hh. lia.
Qed.

Lemma locate_delocate_witness :
  exists idx, locate_index 4 [2;3] = Some idx
              /\ Forall2 (fun i d => 0 <= i < d) idx [2;3]
              /\ delocate_index idx [2;3] (row_major_strides [2;3]) = Some 4.
Proof.
  apply (locate_delocate 4 [2;3]);
    [repeat constructor; lia | vm_compute; reflexivity | vm_compute; split; congruence].
Defined.

(** For in-range coordinates of a shape whose element count [P] fits in
    an [int], [delocate_index] with row-major strides returns an [n] in
    [[0, P)] and [locate_index n] gives the coordinates back. *)
Theorem delocate_locate (idx shape : Shape) :
  Forall2 (fun i d => 0 <= i < d) idx shape -> shape_prod shape < 2 ^ 31 ->
  exists n, delocate_index idx shape (row_major_strides shape) = Some n
            /\ 0 <= n < shape_prod shape
            /\ locate_index n shape = Some idx.
Proof.
  intros Hf Hp.
  pose proof (Forall2_length' _ _ _ Hf) as Hl.
  pose proof (Forall2_rev' _ _ _ Hf) as Hr.
  pose proof (horner_bound _ _ Hr) as Hb. rewrite shape_prod_rev in Hb.
  exists (horner (rev idx) (rev shape)).
  split; [|split; [exact Hb|]].
  - unfold delocate_index. rewrite Hl, Nat.eqb_refl, length_row_major_strides, Nat.eqb_refl. simpl.
    rewrite delocate_fold; [|exact Hl | symmetry; apply length_row_major_strides | exact Hf
      | apply row_major_strides_nonneg; exact (Forall2_pos _ _ Hf) | lia | ].
    + rewrite lin3_row_major by exact Hl. reflexivity.
    + rewrite lin3_row_major by exact Hl. lia.
  - unfold locate_index. rewrite locate_rev_horner; [|exact Hr | rewrite shape_prod_rev; lia].
    simpl. rewrite rev_involutive. reflexivity.
Qed.

Lemma delocate_locate_witness :
  exists n, delocate_index [1;1] [2;3] (row_major_strides [2;3]) = Some n
            /\ 0 <= n < shape_prod [2;3]
            /\ locate_index n [2;3] = Some [1;1].
Proof. apply (delocate_locate [1;1] [2;3]); [repeat constructor; lia | vm_compute; reflexivity]. Defined.

(* ------------------------------------------------------------------ *)
(** ** Graph queries and checkValid *)

Lemma forallb_In_iff {A} (f : A -> bool) (l : list A) :
  forallb f l = true <-> (forall x, In x l -> f x = true).
Proof. apply forallb_forall. Qed.

Lemma fuid_scan_iff (g : GraphObj) (ts : list nat) : forall s,
  fuid_scan g ts s <> None
  <-> NoDup (map (fuid_of g) ts) /\ (forall t, In t ts -> ~ In (fuid_of g t) s).
Proof.
  unfold fuid_scan. induction ts as [|t ts IH]; intros s; simpl.
  - split; [intros _; split; [constructor | tauto] | discriminate].
  - destruct (existsb (Z.eqb (fuid_of g t)) s) eqn:E.
    + assert (Hn : forall l, fold_left (fun acc t =>
               match acc with
               | None => None
               | Some s => if existsb (Z.eqb (fuid_of g t)) s then None
                           else Some (fuid_of g t :: s)
               end) l None = None) by (induction l; simpl; auto).
      rewrite Hn. split; [tauto|]. intros [_ H]. exfalso.
      apply existsb_exists in E as [z [Hz Ez]]. apply Z.eqb_eq in Ez. subst z.
      exact (H t (or_introl eq_refl) Hz).
    + rewrite IH. split.
      * intros [Hnd Hs]. split.
        -- constructor; [|exact Hnd]. intros Hin. apply in_map_iff in Hin as [t' [Ht' Hin]].
           apply (Hs t' Hin). rewrite Ht'. left; reflexivity.
        -- intros t' [Heq|Hin] Hs'.
           ++ subst t'. assert (existsb (Z.eqb (fuid_of g t)) s = true)
                by (apply existsb_exists; exists (fuid_of g t); split; [exact Hs' | apply Z.eqb_refl]).
              congruence.
           ++ apply (Hs t' Hin). right; exact Hs'.
      * intros [Hnd Hs]. inversion Hnd as [|? ? Hni Hnd']; subst. split; [exact Hnd'|].
        intros t' Hin [Heq|Hs'].
        -- apply Hni. rewrite Heq. apply in_map. exact Hin.
        -- exact (Hs t' (or_intror Hin) Hs').
Qed.

Lemma checkValid_iff (g : GraphObj) : checkValid g = true <-> graph_valid g.
Proof.
  unfold checkValid, graph_valid.
  rewrite !andb_true_iff, !forallb_In_iff.
  pose proof (fuid_scan_iff g (g_tensors g) []) as Hf.
  split.
  - intros [[H1 H2] H3].
    destruct (fuid_scan g (g_tensors g) []) as [s|] eqn:Es; [|discriminate].
    assert (Hnd : NoDup (map (fuid_of g) (g_tensors g))) by (apply Hf; discriminate).
    repeat split; try exact Hnd.
    + intros t Ht. specialize (H1 t Ht). rewrite !andb_true_iff in H1. destruct H1 as [[Ha _] _].
      destruct (targets_of g t) as [|x l]; [|left; discriminate].
      destruct (source_of g t) as [p|]; [right; discriminate | discriminate].
    + intros t o Ht Ho. specialize (H1 t Ht). rewrite !andb_true_iff, forallb_In_iff in H1.
      apply memb_In. apply (proj2 (proj1 H1)). exact Ho.
    + intros t p Ht Hp. specialize (H1 t Ht). rewrite !andb_true_iff in H1.
      destruct H1 as [_ H1]. rewrite Hp in H1. apply memb_In. exact H1.
    + intros o t Ho Ht. specialize (H2 o Ho). rewrite !andb_true_iff, !forallb_In_iff in H2.
      destruct H2 as [[[Hi Hou] Hp] Hs]. apply memb_In. auto.
    + intros o t Ho Ht. specialize (H2 o Ho). rewrite !andb_true_iff, !forallb_In_iff in H2.
      destruct H2 as [[[Hi Hou] Hp] Hs]. apply memb_In. auto.
    + intros o t Ho Ht. specialize (H2 o Ho). rewrite !andb_true_iff, !forallb_In_iff in H2.
      destruct H2 as [[[Hi Hou] Hp] Hs]. apply memb_In. auto.
    + intros o t Ho Ht. specialize (H2 o Ho). rewrite !andb_true_iff, !forallb_In_iff in H2.
      destruct H2 as [[[Hi Hou] Hp] Hs]. apply memb_In. auto.
  - intros [V1 [V2 [V3 [V4 [V5 [V6 [V7 V8]]]]]]]. split; [split|].
    + intros t Ht. rewrite !andb_true_iff, forallb_In_iff. split; [split|].
      * destruct (V1 t Ht) as [H|H].
        -- destruct (targets_of g t); [contradiction|reflexivity].
        -- destruct (source_of g t); [|contradiction]. rewrite andb_false_r. reflexivity.
      * intros o Ho. apply memb_In. exact (V2 t o Ht Ho).
      * destruct (source_of g t) as [p|] eqn:Ep; [|reflexivity]. apply memb_In. exact (V3 t p Ht Ep).
    + intros o Ho. rewrite !andb_true_iff, !forallb_In_iff.
      repeat split; intros x Hx; apply memb_In; eauto.
    + destruct (fuid_scan g (g_tensors g) []) eqn:Es; [reflexivity|].
      exfalso. apply (proj2 Hf); [|reflexivity]. split; [exact V8 | intros t _ []].
Qed.

Lemma find_some_iff_getTensor (g : GraphObj) (f : Z) (t : nat) :
  getTensor g f = Some t -> In t (g_tensors g) /\ fuid_of g t = f.
Proof.
  unfold getTensor. intros H. apply find_some in H as [H1 H2]. apply Z.eqb_eq in H2. auto.
Qed.

Lemma getTensor_NoDup (g : GraphObj) (t : nat) :
  NoDup (map (fuid_of g) (g_tensors g)) -> In t (g_tensors g) -> getTensor g (fuid_of g t) = Some t.
Proof.
  unfold getTensor. generalize (g_tensors g). intros l. induction l as [|x l IH]; intros Hnd Hin;
    [destruct Hin|]. simpl in Hnd. inversion Hnd as [|? ? Hni Hnd']; subst. simpl.
  destruct Hin as [<-|Hin]; [rewrite Z.eqb_refl; reflexivity|].
  destruct (Z.eqb_spec (fuid_of g x) (fuid_of g t)) as [E|E].
  - exfalso. apply Hni. rewrite E. apply in_map. exact Hin.
  - apply IH; assumption.
Qed.

(** [getTensor g f] is [nullptr] exactly when no tensor of [g] has
    functional id [f]; a tensor it returns belongs to [g] and has id [f];
    and in a graph passing [checkValid] every tensor is found by its own
    functional id. *)
Theorem getTensor_spec (g : GraphObj) (f : Z) :
  (getTensor g f = None <-> forall t, In t (g_tensors g) -> fuid_of g t <> f)
  /\ (forall t, getTensor g f = Some t -> In t (g_tensors g) /\ fuid_of g t = f)
  /\ (forall t, checkValid g = true -> In t (g_tensors g) -> getTensor g (fuid_of g t) = Some t).
Proof.
  split; [|split].
  - unfold getTensor. split.
    + intros H t Ht E. destruct (find _ _) eqn:F in H; [discriminate|].
      pose proof (find_none _ _ F t Ht) as Hn. simpl in Hn. rewrite E, Z.eqb_refl in Hn. discriminate.
    + intros H. destruct (find _ _) as [t|] eqn:F; [|reflexivity].
      apply find_some in F as [Ht E]. apply Z.eqb_eq in E. exfalso. exact (H t Ht E).
  - apply find_some_iff_getTensor.
  - intros t Hv Ht. apply checkValid_iff in Hv. apply getTensor_NoDup; [apply Hv | exact Ht].
Qed.

(* ------------------------------------------------------------------ *)
(** ** addOperatorAndConnect keeps the graph valid *)

Lemma addOperatorAndConnect_folds (op : OperatorObj) (g : GraphObj) :
  addOperatorAndConnect op g
  = fold_left (connect_output (o_id op)) (o_outputs op)
      (fold_left (connect_input (o_id op)) (o_inputs op)
         (mkGraph (g_theap g) (g_oheap g ++ [op]) (g_tensors g) (g_ops g ++ [o_id op])
                  (g_allocator g) false)).
Proof. reflexivity. Qed.

Lemma targets_of_addTarget i x gc j o :
  In o (targets_of (upd_t i (addTarget x) gc) j) -> In o (targets_of gc j) \/ o = x.
Proof.
  unfold targets_of. rewrite lookup_t_upd_t by reflexivity.
  destruct (lookup_t gc j) as [r|]; simpl; [|tauto].
  destruct (Nat.eqb i j); simpl; [|tauto]. rewrite in_app_iff. simpl. intuition.
Qed.

Lemma targets_of_addTarget_incl i x gc j :
  incl (targets_of gc j) (targets_of (upd_t i (addTarget x) gc) j).
Proof.
  unfold targets_of. rewrite lookup_t_upd_t by reflexivity.
  destruct (lookup_t gc j) as [r|]; simpl; [|apply incl_refl].
  destruct (Nat.eqb i j); simpl; [apply incl_appl, incl_refl | apply incl_refl].
Qed.

Lemma targets_of_addTarget_self i x gc :
  lookup_t gc i <> None -> In x (targets_of (upd_t i (addTarget x) gc) i).
Proof.
  unfold targets_of. rewrite lookup_t_upd_t by reflexivity. rewrite Nat.eqb_refl.
  destruct (lookup_t gc i) as [r|]; [|contradiction]. intros _. simpl.
  apply in_or_app. right; left; reflexivity.
Qed.

Lemma source_of_addTarget i x gc j :
  source_of (upd_t i (addTarget x) gc) j = source_of gc j.
Proof.
  unfold source_of. rewrite lookup_t_upd_t by reflexivity.
  destruct (lookup_t gc j) as [r|]; simpl; [destruct (Nat.eqb i j)|]; reflexivity.
Qed.

Lemma targets_of_setSource i x gc j :
  targets_of (upd_t i (setSource x) gc) j = targets_of gc j.
Proof.
  unfold targets_of. rewrite lookup_t_upd_t by reflexivity.
  destruct (lookup_t gc j) as [r|]; simpl; [destruct (Nat.eqb i j)|]; reflexivity.
Qed.

Lemma source_of_setSource i x gc j p :
  source_of (upd_t i (setSource x) gc) j = Some p -> source_of gc j = Some p \/ p = x.
Proof.
  unfold source_of. rewrite lookup_t_upd_t by reflexivity.
  destruct (lookup_t gc j) as [r|]; simpl; [|discriminate].
  destruct (Nat.eqb i j); simpl; [intros H; injection H; auto | auto].
Qed.

Lemma source_of_setSource_some i x gc j :
  source_of gc j <> None -> source_of (upd_t i (setSource x) gc) j <> None.
Proof.
  unfold source_of. rewrite lookup_t_upd_t by reflexivity.
  destruct (lookup_t gc j) as [r|]; simpl; [|auto].
  destruct (Nat.eqb i j); simpl; [discriminate | auto].
Qed.

Lemma source_of_setSource_self i x gc :
  lookup_t gc i <> None -> source_of (upd_t i (setSource x) gc) i = Some x.
Proof.
  unfold source_of. rewrite lookup_t_upd_t by reflexivity. rewrite Nat.eqb_refl.
  destruct (lookup_t gc i) as [r|]; [reflexivity|contradiction].
Qed.

Lemma fuid_of_upd_t i f gc j :
  (forall r, t_id (f r) = t_id r) -> (forall r, t_fuid (f r) = t_fuid r) ->
  fuid_of (upd_t i f gc) j = fuid_of gc j.
Proof.
  intros Hi Hf. unfold fuid_of. rewrite lookup_t_upd_t by exact Hi.
  destruct (lookup_t gc j) as [r|]; simpl; [destruct (Nat.eqb i j); [apply Hf|]|]; reflexivity.
Qed.

Lemma lookup_t_upd_t_none i f gc j :
  (forall r, t_id (f r) = t_id r) -> (lookup_t (upd_t i f gc) j = None <-> lookup_t gc j = None).
Proof.
  intros Hi. rewrite lookup_t_upd_t by exact Hi. destruct (lookup_t gc j); simpl; split; congruence.
Qed.

Lemma preds_of_addPred i x gc j p :
  In p (preds_of (upd_o i (addPredecessors x) gc) j) -> In p (preds_of gc j) \/ p = x.
Proof.
  unfold preds_of. rewrite lookup_o_upd_o by reflexivity.
  destruct (lookup_o gc j) as [r|]; simpl; [|tauto].
  destruct (Nat.eqb i j); simpl; [|tauto]. rewrite in_app_iff. simpl. intuition.
Qed.

Lemma preds_of_addPred_incl i x gc j :
  incl (preds_of gc j) (preds_of (upd_o i (addPredecessors x) gc) j).
Proof.
  unfold preds_of. rewrite lookup_o_upd_o by reflexivity.
  destruct (lookup_o gc j) as [r|]; simpl; [|apply incl_refl].
  destruct (Nat.eqb i j); simpl; [apply incl_appl, incl_refl | apply incl_refl].
Qed.

Lemma preds_of_addPred_self i x gc :
  lookup_o gc i <> None -> In x (preds_of (upd_o i (addPredecessors x) gc) i).
Proof.
  unfold preds_of. rewrite lookup_o_upd_o by reflexivity. rewrite Nat.eqb_refl.
  destruct (lookup_o gc i) as [r|]; [|contradiction]. intros _. simpl.
  apply in_or_app. right; left; reflexivity.
Qed.

Lemma succs_of_addPred i x gc j :
  succs_of (upd_o i (addPredecessors x) gc) j = succs_of gc j.
Proof.
  unfold succs_of. rewrite lookup_o_upd_o by reflexivity.
  destruct (lookup_o gc j) as [r|]; simpl; [destruct (Nat.eqb i j)|]; reflexivity.
Qed.

Lemma succs_of_addSucc i x gc j s :
  In s (succs_of (upd_o i (addSuccessors x) gc) j) -> In s (succs_of gc j) \/ s = x.
Proof.
  unfold succs_of. rewrite lookup_o_upd_o by reflexivity.
  destruct (lookup_o gc j) as [r|]; simpl; [|tauto].
  destruct (Nat.eqb i j); simpl; [|tauto]. rewrite in_app_iff. simpl. intuition.
Qed.

Lemma succs_of_addSucc_incl i x gc j :
  incl (succs_of gc j) (succs_of (upd_o i (addSuccessors x) gc) j).
Proof.
  unfold succs_of. rewrite lookup_o_upd_o by reflexivity.
  destruct (lookup_o gc j) as [r|]; simpl; [|apply incl_refl].
  destruct (Nat.eqb i j); simpl; [apply incl_appl, incl_refl | apply incl_refl].
Qed.

Lemma succs_of_addSucc_self i x gc :
  lookup_o gc i <> None -> In x (succs_of (upd_o i (addSuccessors x) gc) i).
Proof.
  unfold succs_of. rewrite lookup_o_upd_o by reflexivity. rewrite Nat.eqb_refl.
  destruct (lookup_o gc i) as [r|]; [|contradiction]. intros _. simpl.
  apply in_or_app. right; left; reflexivity.
Qed.

Lemma preds_of_addSucc i x gc j :
  preds_of (upd_o i (addSuccessors x) gc) j = preds_of gc j.
Proof.
  unfold preds_of. rewrite lookup_o_upd_o by reflexivity.
  destruct (lookup_o gc j) as [r|]; simpl; [destruct (Nat.eqb i j)|]; reflexivity.
Qed.

Lemma io_of_upd_o i f gc j :
  (forall r, o_id (f r) = o_id r) ->
  (forall r, o_inputs (f r) = o_inputs r) -> (forall r, o_outputs (f r) = o_outputs r) ->
  inputs_of (upd_o i f gc) j = inputs_of gc j /\ outputs_of (upd_o i f gc) j = outputs_of gc j.
Proof.
  intros Hi Hin Hout. unfold inputs_of, outputs_of. rewrite lookup_o_upd_o by exact Hi.
  destruct (lookup_o gc j) as [r|]; simpl; [destruct (Nat.eqb i j); [rewrite Hin, Hout|]|];
    split; reflexivity.
Qed.

Lemma lookup_o_upd_o_none i f gc j :
  (forall r, o_id (f r) = o_id r) -> (lookup_o (upd_o i f gc) j = None <-> lookup_o gc j = None).
Proof.
  intros Hi. rewrite lookup_o_upd_o by exact Hi. destruct (lookup_o gc j); simpl; split; congruence.
Qed.

Lemma inv_addTarget G1 gc i x :
  connect_inv G1 gc -> In x (g_ops G1) -> connect_inv G1 (upd_t i (addTarget x) gc).
Proof.
  intros (H1 & H2 & H3 & H4 & H5 & H6 & H7 & H8 & H9 & H10) Hx.
  repeat split; auto.
  - intros t. rewrite fuid_of_upd_t by reflexivity. apply H3.
  - intros t. eapply incl_tran; [apply H4 | apply targets_of_addTarget_incl].
  - intros t Ht. rewrite source_of_addTarget. apply H5. exact Ht.
  - intros t o Ht Ho. apply targets_of_addTarget in Ho as [Ho| ->]; [eapply H6; eauto | exact Hx].
  - intros t p Ht Hp. rewrite source_of_addTarget in Hp. eapply H7; eauto.
  - apply H8.
  - apply H8.
Qed.

Lemma inv_setSource G1 gc i x :
  connect_inv G1 gc -> In x (g_ops G1) -> connect_inv G1 (upd_t i (setSource x) gc).
Proof.
  intros (H1 & H2 & H3 & H4 & H5 & H6 & H7 & H8 & H9 & H10) Hx.
  repeat split; auto.
  - intros t. rewrite fuid_of_upd_t by reflexivity. apply H3.
  - intros t. rewrite targets_of_setSource. apply H4.
  - intros t Ht. apply source_of_setSource_some. apply H5. exact Ht.
  - intros t o Ht Ho. rewrite targets_of_setSource in Ho. eapply H6; eauto.
  - intros t p Ht Hp. apply source_of_setSource in Hp as [Hp| ->]; [eapply H7; eauto | exact Hx].
  - apply H8.
  - apply H8.
Qed.

Lemma inv_addPred G1 gc i x :
  connect_inv G1 gc -> In x (g_ops G1) -> connect_inv G1 (upd_o i (addPredecessors x) gc).
Proof.
  intros (H1 & H2 & H3 & H4 & H5 & H6 & H7 & H8 & H9 & H10) Hx.
  repeat split; auto.
  - rewrite (proj1 (io_of_upd_o i (addPredecessors x) gc o ltac:(reflexivity) ltac:(reflexivity) ltac:(reflexivity))).
    apply H8.
  - rewrite (proj2 (io_of_upd_o i (addPredecessors x) gc o ltac:(reflexivity) ltac:(reflexivity) ltac:(reflexivity))).
    apply H8.
  - intros o p Ho Hp. apply preds_of_addPred in Hp as [Hp| ->]; [eapply H9; eauto | exact Hx].
  - intros o s Ho Hs. rewrite succs_of_addPred in Hs. eapply H10; eauto.
Qed.

Lemma inv_addSucc G1 gc i x :
  connect_inv G1 gc -> In x (g_ops G1) -> connect_inv G1 (upd_o i (addSuccessors x) gc).
Proof.
  intros (H1 & H2 & H3 & H4 & H5 & H6 & H7 & H8 & H9 & H10) Hx.
  repeat split; auto.
  - rewrite (proj1 (io_of_upd_o i (addSuccessors x) gc o ltac:(reflexivity) ltac:(reflexivity) ltac:(reflexivity))).
    apply H8.
  - rewrite (proj2 (io_of_upd_o i (addSuccessors x) gc o ltac:(reflexivity) ltac:(reflexivity) ltac:(reflexivity))).
    apply H8.
  - intros o p Ho Hp. rewrite preds_of_addSucc in Hp. eapply H9; eauto.
  - intros o s Ho Hs. apply succs_of_addSucc in Hs as [Hs| ->]; [eapply H10; eauto | exact Hx].
Qed.

Lemma inv_connect_input G1 gc me input :
  connect_inv G1 gc -> In me (g_ops G1) -> In input (g_tensors G1) ->
  connect_inv G1 (connect_input me gc input).
Proof.
  intros Hq Hme Hin. unfold connect_input.
  pose proof (inv_addTarget G1 gc input me Hq Hme) as Hq2.
  destruct (source_of (upd_t input (addTarget me) gc) input) as [pred|] eqn:Es; [|exact Hq2].
  assert (Hp : In pred (g_ops G1)) by (destruct Hq2 as (_&_&_&_&_&_&H7&_); eapply H7; eauto).
  apply inv_addPred; [apply inv_addSucc|]; assumption.
Qed.

Lemma inv_connect_output G1 gc me output :
  connect_inv G1 gc -> In me (g_ops G1) -> In output (g_tensors G1) ->
  connect_inv G1 (connect_output me gc output).
Proof.
  intros Hq Hme Hout. unfold connect_output.
  pose proof (inv_setSource G1 gc output me Hq Hme) as Hq2.
  assert (Hs : forall s, In s (targets_of (upd_t output (setSource me) gc) output) -> In s (g_ops G1))
    by (intros s Hs; destruct Hq2 as (_&_&_&_&_&H6&_); eapply H6; eauto).
  revert Hq2 Hs. generalize (upd_t output (setSource me) gc) as g2. intros g2 Hq2 Hs.
  set (l := targets_of g2 output) in *. clearbody l.
  revert g2 Hq2. induction l as [|s l IH]; intros g2 Hq2; simpl; [exact Hq2|].
  apply IH; [intros x Hx; apply Hs; right; exact Hx|].
  unfold connect_succ. apply inv_addSucc; [apply inv_addPred|]; try assumption. apply Hs. left; reflexivity.
Qed.

Lemma inv_fold_input G1 me (l : list nat) : forall g0,
  In me (g_ops G1) -> (forall t, In t l -> In t (g_tensors G1)) ->
  connect_inv G1 g0 -> connect_inv G1 (fold_left (connect_input me) l g0).
Proof.
  induction l as [|x l IH]; intros g0 Hme Hl Q; simpl; [exact Q|].
  apply IH; [exact Hme | intros t Ht; apply Hl; right; exact Ht|].
  apply inv_connect_input; [exact Q | exact Hme | apply Hl; left; reflexivity].
Qed.

Lemma inv_fold_output G1 me (l : list nat) : forall g0,
  In me (g_ops G1) -> (forall t, In t l -> In t (g_tensors G1)) ->
  connect_inv G1 g0 -> connect_inv G1 (fold_left (connect_output me) l g0).
Proof.
  induction l as [|x l IH]; intros g0 Hme Hl Q; simpl; [exact Q|].
  apply IH; [exact Hme | intros t Ht; apply Hl; right; exact Ht|].
  apply inv_connect_output; [exact Q | exact Hme | apply Hl; left; reflexivity].
Qed.

Lemma find_app' {A} (p : A -> bool) (l1 l2 : list A) :
  find p (l1 ++ l2) = match find p l1 with Some x => Some x | None => find p l2 end.
Proof. induction l1 as [|x l1 IH]; simpl; [reflexivity|]. destruct (p x); [reflexivity|exact IH]. Qed.

Lemma lookup_o_app_op (g : GraphObj) (op : OperatorObj) (o : nat) :
  lookup_o (mkGraph (g_theap g) (g_oheap g ++ [op]) (g_tensors g) (g_ops g ++ [o_id op])
                    (g_allocator g) false) o
  = match lookup_o g o with Some r => Some r | None => if Nat.eqb (o_id op) o then Some op else None end.
Proof.
  unfold lookup_o. simpl. rewrite find_app'. destruct (find _ (g_oheap g)); [reflexivity|].
  simpl. destruct (Nat.eqb (o_id op) o); reflexivity.
Qed.

(** Adding a fresh operator whose inputs and outputs are tensors of a
    valid graph, and whose own predecessor and successor lists name
    operators of the graph or itself, keeps [checkValid] true. *)
Theorem addOperatorAndConnect_checkValid (op : OperatorObj) (g : GraphObj) :
  checkValid g = true ->
  lookup_o g (o_id op) = None ->
  incl (o_inputs op) (g_tensors g) -> incl (o_outputs op) (g_tensors g) ->
  incl (o_preds op) (g_ops g ++ [o_id op]) -> incl (o_succs op) (g_ops g ++ [o_id op]) ->
  checkValid (addOperatorAndConnect op g) = true.
Proof.
  intros Hv Hfresh Hin Hout Hpr Hsu.
  apply checkValid_iff in Hv. destruct Hv as (V1 & V2 & V3 & V4 & V5 & V6 & V7 & V8).
  apply checkValid_iff. rewrite addOperatorAndConnect_folds.
  set (G1 := mkGraph (g_theap g) (g_oheap g ++ [op]) (g_tensors g) (g_ops g ++ [o_id op])
                     (g_allocator g) false).
  assert (HL : forall o, lookup_o G1 o
            = match lookup_o g o with Some r => Some r
              | None => if Nat.eqb (o_id op) o then Some op else None end)
    by (intros o; apply lookup_o_app_op).
  assert (Hme : In (o_id op) (g_ops G1)) by (simpl; apply in_or_app; right; left; reflexivity).
  assert (Hsub : forall o, In o (g_ops g) -> In o (g_ops G1)) by (intros o Ho; simpl; apply in_or_app; left; exact Ho).
  assert (HG1 : forall o, In o (g_ops G1) ->
            ((forall t, In t (inputs_of G1 o) -> In t (g_tensors g))
             /\ (forall t, In t (outputs_of G1 o) -> In t (g_tensors g))
             /\ (forall p, In p (preds_of G1 o) -> In p (g_ops G1))
             /\ (forall s, In s (succs_of G1 o) -> In s (g_ops G1)))).
  { intros o Ho. unfold inputs_of, outputs_of, preds_of, succs_of. rewrite HL.
    destruct (lookup_o g o) as [r|] eqn:Er.
    - simpl in Ho. apply in_app_or in Ho as [Ho|[Ho|[]]].
      + assert (Hi := V4 o). assert (Hou := V5 o). assert (Hp := V6 o). assert (Hs := V7 o).
        unfold inputs_of, outputs_of, preds_of, succs_of in Hi, Hou, Hp, Hs. rewrite Er in Hi, Hou, Hp, Hs.
        repeat split; intros; eauto.
      + subst o. congruence.
    - destruct (Nat.eqb_spec (o_id op) o) as [<-|Hne].
      + repeat split; intros x Hx; auto.
      + repeat split; intros x Hx; destruct Hx. }
  assert (Q0 : connect_inv G1 G1).
  { repeat split; auto.
    - intros t. apply incl_refl.
    - intros t o Ht Ho. apply Hsub. exact (V2 t o Ht Ho).
    - intros t p Ht Hp. apply Hsub. exact (V3 t p Ht Hp).
    - intros o p Ho Hp. exact (proj1 (proj2 (proj2 (HG1 o Ho))) p Hp).
    - intros o s Ho Hs. exact (proj2 (proj2 (proj2 (HG1 o Ho))) s Hs). }
  assert (Q2 : connect_inv G1 (fold_left (connect_output (o_id op)) (o_outputs op)
                 (fold_left (connect_input (o_id op)) (o_inputs op) G1))).
  { apply inv_fold_output; [exact Hme | intros t Ht; apply Hout; exact Ht |].
    apply inv_fold_input; [exact Hme | intros t Ht; apply Hin; exact Ht | exact Q0]. }
  revert Q2. generalize (fold_left (connect_output (o_id op)) (o_outputs op)
                 (fold_left (connect_input (o_id op)) (o_inputs op) G1)) as g'.
  intros g' (H1 & H2 & H3 & H4 & H5 & H6 & H7 & H8 & H9 & H10).
  unfold graph_valid. rewrite H1, H2. change (g_tensors G1) with (g_tensors g).
  repeat split.
  - intros t Ht. destruct (V1 t Ht) as [Hx|Hx].
    + left. intros E. destruct (targets_of g t) as [|y r] eqn:Et; [contradiction|].
      assert (HH := H4 t). change (targets_of G1 t) with (targets_of g t) in HH.
      rewrite Et, E in HH. exact (HH y (or_introl eq_refl)).
    + right. apply H5. exact Hx.
  - intros t o Ht Ho. exact (H6 t o Ht Ho).
  - intros t p Ht Hp. exact (H7 t p Ht Hp).
  - intros o t Ho Ht. rewrite (proj1 (H8 o)) in Ht. exact (proj1 (HG1 o Ho) t Ht).
  - intros o t Ho Ht. rewrite (proj2 (H8 o)) in Ht. exact (proj1 (proj2 (HG1 o Ho)) t Ht).
  - intros o p Ho Hp. exact (H9 o p Ho Hp).
  - intros o s Ho Hs. exact (H10 o s Ho Hs).
  - replace (map (fuid_of g') (g_tensors g)) with (map (fuid_of g) (g_tensors g)); [exact V8|].
    apply map_ext. intros t. rewrite H3. reflexivity.
Qed.

Lemma addOperatorAndConnect_checkValid_witness :
  checkValid (addOperatorAndConnect (make_op 13 ORelu [1%nat] []) g_cancel) = true.
Proof.
  apply (addOperatorAndConnect_checkValid (make_op 13 ORelu [1%nat] []) g_cancel).
  - vm_compute. reflexivity.
  - vm_compute. reflexivity.
  - intros x Hx. vm_compute in Hx |- *. tauto.
  - intros x [].
  - intros x [].
  - intros x [].
Defined.

(* ------------------------------------------------------------------ *)
(** ** addOperatorAndConnect wiring *)

Lemma lookup_t_upd_t_some i f gc j :
  (forall r, t_id (f r) = t_id r) -> lookup_t gc j <> None -> lookup_t (upd_t i f gc) j <> None.
Proof. intros Hi H Hc. apply H. apply (lookup_t_upd_t_none i f gc j Hi). exact Hc. Qed.

Lemma lookup_o_upd_o_some i f gc j :
  (forall r, o_id (f r) = o_id r) -> lookup_o gc j <> None -> lookup_o (upd_o i f gc) j <> None.
Proof. intros Hi H Hc. apply H. apply (lookup_o_upd_o_none i f gc j Hi). exact Hc. Qed.

Lemma grows_refl g : graph_grows g g.
Proof. repeat split; intros; try apply incl_refl; auto. Qed.

Lemma grows_trans g1 g2 g3 : graph_grows g1 g2 -> graph_grows g2 g3 -> graph_grows g1 g3.
Proof.
  intros (A1 & A2 & A3 & A4 & A5) (B1 & B2 & B3 & B4 & B5).
  repeat split; intros; eauto using incl_tran.
Qed.

Lemma grows_addTarget g i x : graph_grows g (upd_t i (addTarget x) g).
Proof.
  repeat split; intros.
  - apply incl_refl.
  - apply incl_refl.
  - apply targets_of_addTarget_incl.
  - exact H.
  - apply lookup_t_upd_t_some; [reflexivity|]. exact H.
Qed.

Lemma grows_setSource g i x : graph_grows g (upd_t i (setSource x) g).
Proof.
  repeat split; intros.
  - apply incl_refl.
  - apply incl_refl.
  - rewrite targets_of_setSource. apply incl_refl.
  - exact H.
  - apply lookup_t_upd_t_some; [reflexivity|]. exact H.
Qed.

Lemma grows_addPred g i x : graph_grows g (upd_o i (addPredecessors x) g).
Proof.
  repeat split; intros.
  - apply preds_of_addPred_incl.
  - rewrite succs_of_addPred. apply incl_refl.
  - apply incl_refl.
  - apply lookup_o_upd_o_some; [reflexivity|]. exact H.
  - exact H.
Qed.

Lemma grows_addSucc g i x : graph_grows g (upd_o i (addSuccessors x) g).
Proof.
  repeat split; intros.
  - rewrite preds_of_addSucc. apply incl_refl.
  - apply succs_of_addSucc_incl.
  - apply incl_refl.
  - apply lookup_o_upd_o_some; [reflexivity|]. exact H.
  - exact H.
Qed.

Lemma grows_connect_input me g x : graph_grows g (connect_input me g x).
Proof.
  unfold connect_input. eapply grows_trans; [apply grows_addTarget|].
  destruct (source_of _ x); [|apply grows_refl].
  eapply grows_trans; [apply grows_addSucc | apply grows_addPred].
Qed.

Lemma grows_fold {A} (f : GraphObj -> A -> GraphObj) (l : list A) :
  (forall g x, graph_grows g (f g x)) -> forall g, graph_grows g (fold_left f l g).
Proof.
  intros Hf. induction l as [|x l IH]; intros g; simpl; [apply grows_refl|].
  eapply grows_trans; [apply Hf | apply IH].
Qed.

Lemma grows_connect_succ me g x : graph_grows g (connect_succ me g x).
Proof. unfold connect_succ. eapply grows_trans; [apply grows_addPred | apply grows_addSucc]. Qed.

Lemma grows_connect_output me g x : graph_grows g (connect_output me g x).
Proof.
  unfold connect_output. eapply grows_trans; [apply grows_setSource|].
  apply grows_fold. apply grows_connect_succ.
Qed.

Lemma source_of_setSource_same i x gc j :
  source_of gc j = Some x -> source_of (upd_t i (setSource x) gc) j = Some x.
Proof.
  unfold source_of. rewrite lookup_t_upd_t by reflexivity.
  destruct (lookup_t gc j) as [r|]; simpl; [|discriminate].
  destruct (Nat.eqb i j); simpl; auto.
Qed.

Lemma source_of_connect_output me gc x t :
  source_of gc t = Some me -> source_of (connect_output me gc x) t = Some me.
Proof.
  unfold connect_output. intros H. apply (source_of_setSource_same x) in H.
  revert H. generalize (upd_t x (setSource me) gc). intros g2.
  generalize (targets_of g2 x). intros l. revert g2. induction l as [|c l IH]; intros g2 H; simpl; [exact H|].
  apply IH. exact H.
Qed.

Lemma source_of_connect_input me gc x t :
  source_of (connect_input me gc x) t = source_of gc t.
Proof.
  unfold connect_input. destruct (source_of _ x); [|apply source_of_addTarget].
  unfold source_of. rewrite !lookup_t_upd_o. apply source_of_addTarget.
Qed.

Lemma fold_split {A B} (f : B -> A -> B) (l : list A) (y : A) (b : B) :
  In y l -> exists l1 l2, fold_left f l b = fold_left f l2 (f (fold_left f l1 b) y).
Proof.
  intros Hin. apply in_split in Hin as [l1 [l2 ->]]. exists l1, l2.
  rewrite fold_left_app. reflexivity.
Qed.

(** After [addOperatorAndConnect op], each output tensor of [op] present
    in the graph has [op] as its source and so is no graph input, and each
    input tensor present has [op] among its targets and so is no graph
    output. *)
Theorem addOperatorAndConnect_io (op : OperatorObj) (g : GraphObj) :
  let g' := addOperatorAndConnect op g in
  (forall t, In t (o_outputs op) -> lookup_t g t <> None ->
     source_of g' t = Some (o_id op) /\ ~ In t (getInputs g'))
  /\ (forall t, In t (o_inputs op) -> lookup_t g t <> None ->
     In (o_id op) (targets_of g' t) /\ ~ In t (getOutputs g')).
Proof.
  intros g'. unfold g'. rewrite addOperatorAndConnect_folds.
  set (me := o_id op).
  set (G1 := mkGraph (g_theap g) (g_oheap g ++ [op]) (g_tensors g) (g_ops g ++ [me])
                     (g_allocator g) false).
  set (G2 := fold_left (connect_input me) (o_inputs op) G1).
  assert (Hsrc : forall t, source_of (fold_left (connect_output me) (o_outputs op) G2) t = Some me ->
                 ~ In t (getInputs (fold_left (connect_output me) (o_outputs op) G2))).
  { intros t Hs Hin. unfold getInputs in Hin. apply filter_In in Hin as [_ Hin]. rewrite Hs in Hin.
    discriminate. }
  assert (Htg : forall t, In me (targets_of (fold_left (connect_output me) (o_outputs op) G2) t) ->
                 ~ In t (getOutputs (fold_left (connect_output me) (o_outputs op) G2))).
  { intros t Hs Hin. unfold getOutputs in Hin. apply filter_In in Hin as [_ Hin].
    destruct (targets_of _ t); [destruct Hs | discriminate]. }
  split.
  - intros t Ht Hl. assert (Hs : source_of (fold_left (connect_output me) (o_outputs op) G2) t = Some me).
    2:{ split; [exact Hs | apply Hsrc; exact Hs]. }
    destruct (fold_split (connect_output me) (o_outputs op) t G2 Ht) as [l1 [l2 ->]].
    set (ga := fold_left (connect_output me) l1 G2).
    assert (Hla : lookup_t ga t <> None).
    { apply (grows_fold (connect_output me) l1 (grows_connect_output me) G2).
      apply (grows_fold (connect_input me) (o_inputs op) (grows_connect_input me) G1). exact Hl. }
    assert (Hs1 : source_of (connect_output me ga t) t = Some me).
    { unfold connect_output. pose proof (source_of_setSource_self t me ga Hla) as H.
      revert H. generalize (upd_t t (setSource me) ga). intros g2.
      generalize (targets_of g2 t). intros l. revert g2. induction l as [|c l IH]; intros g2 H; simpl; auto. }
    revert Hs1. generalize (connect_output me ga t). intros gb.
    revert gb. induction l2 as [|x l2 IH]; intros gb Hb; simpl; [exact Hb|].
    apply IH. apply source_of_connect_output. exact Hb.
  - intros t Ht Hl. assert (Hs : In me (targets_of (fold_left (connect_output me) (o_outputs op) G2) t)).
    2:{ split; [exact Hs | apply Htg; exact Hs]. }
    apply (grows_fold (connect_output me) (o_outputs op) (grows_connect_output me) G2).
    unfold G2. destruct (fold_split (connect_input me) (o_inputs op) t G1 Ht) as [l1 [l2 ->]].
    apply (grows_fold (connect_input me) l2 (grows_connect_input me)).
    set (ga := fold_left (connect_input me) l1 G1).
    assert (Hla : lookup_t ga t <> None)
      by (apply (grows_fold (connect_input me) l1 (grows_connect_input me) G1); exact Hl).
    unfold connect_input. pose proof (targets_of_addTarget_self t me ga Hla) as H.
    destruct (source_of _ t); [|exact H].
    unfold targets_of in *. rewrite !lookup_t_upd_o. exact H.
Qed.

(** [addOperatorAndConnect] wires the operator graph both ways: the
    producer of each input becomes a predecessor of the new operator (and
    the new operator its successor), and each existing consumer of an
    output becomes its successor (and it their predecessor). *)
Theorem addOperatorAndConnect_wiring (op : OperatorObj) (g : GraphObj) :
  lookup_o g (o_id op) = None ->
  let g' := addOperatorAndConnect op g in
  (forall t p, In t (o_inputs op) -> source_of g t = Some p -> lookup_o g p <> None ->
     In p (preds_of g' (o_id op)) /\ In (o_id op) (succs_of g' p))
  /\ (forall t c, In t (o_outputs op) -> In c (targets_of g t) -> lookup_o g c <> None ->
     In c (succs_of g' (o_id op)) /\ In (o_id op) (preds_of g' c)).
Proof.
  intros Hfresh g'. unfold g'. rewrite addOperatorAndConnect_folds.
  set (me := o_id op).
  set (G1 := mkGraph (g_theap g) (g_oheap g ++ [op]) (g_tensors g) (g_ops g ++ [me])
                     (g_allocator g) false).
  assert (HG1o : forall o, lookup_o g o <> None -> lookup_o G1 o <> None).
  { intros o H. unfold G1. rewrite lookup_o_app_op. destruct (lookup_o g o); [discriminate|contradiction]. }
  assert (HG1me : lookup_o G1 me <> None).
  { unfold G1, me. rewrite lookup_o_app_op, Hfresh, Nat.eqb_refl. discriminate. }
  set (G2 := fold_left (connect_input me) (o_inputs op) G1).
  assert (Hfin : forall gx, graph_grows gx (fold_left (connect_output me) (o_outputs op) gx))
    by (intros gx; apply grows_fold, grows_connect_output).
  split.
  - intros t p Ht Hp Hlp.
    assert (H : In p (preds_of G2 me) /\ In me (succs_of G2 p)).
    2:{ destruct (Hfin G2) as (F1 & F2 & _). split; [apply F1 | apply F2]; apply H. }
    unfold G2. destruct (fold_split (connect_input me) (o_inputs op) t G1 Ht) as [l1 [l2 ->]].
    set (ga := fold_left (connect_input me) l1 G1).
    assert (Hga : graph_grows G1 ga) by apply grows_fold, grows_connect_input.
    assert (Hsa : source_of ga t = Some p).
    { unfold ga. clear -Hp. revert Hp. change (source_of g t) with (source_of G1 t).
      generalize G1. induction l1 as [|x l1 IH]; intros g0 H; simpl; [exact H|].
      apply IH. rewrite source_of_connect_input. exact H. }
    assert (H : In p (preds_of (connect_input me ga t) me) /\ In me (succs_of (connect_input me ga t) p)).
    { unfold connect_input. rewrite source_of_addTarget, Hsa.
      destruct Hga as (_ & _ & _ & Ho & _).
      split.
      - apply preds_of_addPred_self. apply lookup_o_upd_o_some; [reflexivity|].
        rewrite lookup_o_upd_t. apply Ho. exact HG1me.
      - rewrite succs_of_addPred. apply succs_of_addSucc_self. rewrite lookup_o_upd_t.
        apply Ho. apply HG1o. exact Hlp. }
    destruct (grows_fold (connect_input me) l2 (grows_connect_input me) (connect_input me ga t))
      as (F1 & F2 & _).
    split; [apply F1 | apply F2]; apply H.
  - intros t c Ht Hc Hlc.
    destruct (fold_split (connect_output me) (o_outputs op) t G2 Ht) as [l1 [l2 ->]].
    set (ga := fold_left (connect_output me) l1 G2).
    assert (Hga : graph_grows G1 ga).
    { eapply grows_trans; [apply (grows_fold (connect_input me)), grows_connect_input
                          | apply (grows_fold (connect_output me)), grows_connect_output]. }
    assert (H : In c (succs_of (connect_output me ga t) me) /\ In me (preds_of (connect_output me ga t) c)).
    { unfold connect_output.
      destruct Hga as (_ & _ & Gt & Go & _).
      assert (Hin : In c (targets_of (upd_t t (setSource me) ga) t)).
      { rewrite targets_of_setSource. apply Gt. exact Hc. }
      assert (Hlc' : lookup_o (upd_t t (setSource me) ga) c <> None)
        by (rewrite lookup_o_upd_t; apply Go, HG1o; exact Hlc).
      assert (Hlm' : lookup_o (upd_t t (setSource me) ga) me <> None)
        by (rewrite lookup_o_upd_t; apply Go; exact HG1me).
      revert Hin Hlc' Hlm'. generalize (upd_t t (setSource me) ga). intros g2 Hin Hlc' Hlm'.
      revert Hin. generalize (targets_of g2 t). intros l Hin.
      apply in_split in Hin as [k1 [k2 ->]]. rewrite fold_left_app. simpl.
      set (gk := fold_left (connect_succ me) k1 g2).
      assert (Hk : graph_grows g2 gk) by apply grows_fold, grows_connect_succ.
      destruct Hk as (_ & _ & _ & Ko & _).
      assert (H : In c (succs_of (connect_succ me gk c) me) /\ In me (preds_of (connect_succ me gk c) c)).
      { unfold connect_succ. split.
        - apply succs_of_addSucc_self. apply lookup_o_upd_o_some; [reflexivity|]. apply Ko. exact Hlm'.
        - rewrite preds_of_addSucc. apply preds_of_addPred_self. apply Ko. exact Hlc'. }
      destruct (grows_fold (connect_succ me) k2 (grows_connect_succ me) (connect_succ me gk c))
        as (F1 & F2 & _).
      split; [apply F2 | apply F1]; apply H. }
    destruct (grows_fold (connect_output me) l2 (grows_connect_output me) (connect_output me ga t))
      as (F1 & F2 & _).
    split; [apply F2 | apply F1]; apply H.
Qed.

Lemma addOperatorAndConnect_wiring_witness :
  let op := make_op 13 ORelu [1%nat] [] in
  let g' := addOperatorAndConnect op g_cancel in
  (forall t p, In t (o_inputs op) -> source_of g_cancel t = Some p -> lookup_o g_cancel p <> None ->
     In p (preds_of g' (o_id op)) /\ In (o_id op) (succs_of g' p))
  /\ (forall t c, In t (o_outputs op) -> In c (targets_of g_cancel t) -> lookup_o g_cancel c <> None ->
     In c (succs_of g' (o_id op)) /\ In (o_id op) (preds_of g' c)).
Proof. apply (addOperatorAndConnect_wiring (make_op 13 ORelu [1%nat] []) g_cancel). vm_compute. reflexivity. Defined.

(* ------------------------------------------------------------------ *)
(** ** addTensor, dataMalloc and the allocator tail *)

(** A tensor just added by [addTensor] has neither source nor targets,
    so [checkValid] fails until an operator is connected to it. *)
Theorem addTensor_fresh_invalid (id : nat) (fuid : Z) (shape : Shape) (dsize : Z) (g : GraphObj) :
  lookup_t g id = None -> checkValid (addTensor id fuid shape dsize g) = false.
Proof.
  intros Hf. destruct (checkValid _) eqn:E; [|reflexivity].
  apply checkValid_iff in E. destruct E as [H1 _].
  assert (Hl : lookup_t (addTensor id fuid shape dsize g) id = Some (make_tensor id fuid shape dsize)).
  { unfold lookup_t in *. simpl. rewrite find_app', Hf. simpl. rewrite Nat.eqb_refl. reflexivity. }
  destruct (H1 id) as [H|H].
  - simpl. apply in_or_app. right. left. reflexivity.
  - unfold targets_of in H. rewrite Hl in H. simpl in H. contradiction.
  - unfold source_of in H. rewrite Hl in H. simpl in H. contradiction.
Qed.

Lemma addTensor_fresh_invalid_witness :
  checkValid (addTensor 4 4 [2] 4 g_cancel) = false.
Proof. apply (addTensor_fresh_invalid 4 4 [2] 4 g_cancel). vm_compute. reflexivity. Defined.

Lemma topo_sort_sorted (g gs : GraphObj) : topo_sort g = Some gs -> g_sorted gs = true.
Proof.
  unfold topo_sort. destruct (g_sorted g) eqn:E.
  - intros H. injection H as <-. exact E.
  - destruct (topo_loop _ _ _); intros H; [injection H as <-; reflexivity | discriminate].
Qed.

Lemma fold_upd_t_frame (l : list nat) (F : GraphObj -> nat -> TensorObj -> TensorObj) (g : GraphObj) :
  let g' := fold_left (fun g t => upd_t t (F g t) g) l g in
  g_tensors g' = g_tensors g /\ g_sorted g' = g_sorted g /\ g_allocator g' = g_allocator g
  /\ g_ops g' = g_ops g /\ g_oheap g' = g_oheap g.
Proof.
  revert g. induction l as [|t l IH]; intros g; simpl; [repeat split|].
  destruct (IH (upd_t t (F g t) g)) as (A & B & C & D & E). simpl in *.
  repeat split; assumption.
Qed.

(** [dataMalloc] can be run once: it ends with [getPtr], after which
    [alloc] fails its [IT_ASSERT(ptr == nullptr)], so a second
    [dataMalloc] on a graph with tensors fails. *)
Theorem dataMalloc_once (g g' : GraphObj) :
  dataMalloc g = Some g' -> g_tensors g' <> [] -> dataMalloc g' = None.
Proof.
  unfold dataMalloc at 1. destruct (topo_sort g) as [gs|] eqn:Et; [|discriminate].
  destruct (alloc_tensors gs (g_allocator gs) (g_tensors gs) []) as [[a m]|]; [|discriminate].
  intros H. injection H as <-.
  match goal with |- context [fold_left ?f ?l ?g0] =>
    change f with (fun g t => upd_t t ((fun g t => setDataBlob (offset_lookup m (fuid_of g t))) g t) g);
    destruct (fold_upd_t_frame l (fun g t => setDataBlob (offset_lookup m (fuid_of g t))) g0)
      as (Ht & Hs & Ha & _ & _);
    set (g1 := fold_left _ l g0) in * end.
  simpl in Ht, Hs, Ha. intros Hne.
  unfold dataMalloc, topo_sort. rewrite Hs, (topo_sort_sorted g gs Et).
  rewrite Ha. destruct (g_tensors g1) as [|t r]; [contradiction|].
  simpl. unfold alloc. unfold getPtr. destruct (a_ptr a) eqn:E; simpl; rewrite ?E; reflexivity.
Qed.

Lemma dataMalloc_once_witness :
  exists g', dataMalloc g_cancel = Some g' /\ g_tensors g' <> [] /\ dataMalloc g' = None.
Proof.
  assert (Ht : option_map g_tensors (dataMalloc g_cancel) = Some [0;1;2;3]%nat)
    by (vm_compute; reflexivity).
  destruct (dataMalloc g_cancel) as [g'|] eqn:E; [|discriminate].
  injection Ht as Ht. exists g'. split; [reflexivity|].
  assert (Hn : g_tensors g' <> []) by (rewrite Ht; discriminate).
  split; [exact Hn | exact (dataMalloc_once g_cancel g' E Hn)].
Defined.

Lemma map_insert_last (k v : Z) (r : FreeMap) :
  (forall kv, In kv r -> fst kv < k) -> map_insert k v r = r ++ [(k, v)].
Proof.
  induction r as [|[k' v'] r IH]; intros H; [reflexivity|].
  assert (Hk : k' < k) by (apply (H (k', v')); left; reflexivity).
  simpl. replace (k =? k') with false by (symmetry; apply Z.eqb_neq; lia).
  replace (k <? k') with false by (symmetry; apply Z.ltb_ge; lia).
  rewrite IH; [reflexivity|]. intros kv Hin. apply H. right. exact Hin.
Qed.

Lemma last_map_Some_In {A} (l : list A) (x : A) : last (map Some l) None = Some x -> In x l.
Proof.
  induction l as [|y l IH]; simpl; [discriminate|].
  destruct l as [|z l].
  - intros H. injection H as ->. left. reflexivity.
  - intros H. right. apply IH. exact H.
Qed.

Lemma m64_add_sub (x d : Z) : 0 <= x < W64 -> m64 (m64 (x + d) - d) = x.
Proof.
  intros H. unfold m64. rewrite Zminus_mod_idemp_l. replace (x + d - d) with x by lia.
  apply Z.mod_small. exact H.
Qed.

Lemma map_next_last (k v : Z) (r : FreeMap) :
  (forall kv, In kv r -> fst kv < k) -> map_next k (r ++ [(k, v)]) = None.
Proof.
  unfold map_next. induction r as [|[k' v'] r IH]; intros H; simpl.
  - rewrite Z.ltb_irrefl. reflexivity.
  - assert (Hk : k' < k) by (apply (H (k', v')); left; reflexivity).
    replace (k <? k') with false by (symmetry; apply Z.ltb_ge; lia).
    apply IH. intros kv Hin. apply H. right. exact Hin.
Qed.

Lemma filter_below (k v : Z) (r : FreeMap) :
  (forall kv, In kv r -> fst kv < k) ->
  filter (fun kv => fst kv <? k) (r ++ [(k, v)]) = r
  /\ map_erase k (r ++ [(k, v)]) = r.
Proof.
  unfold map_erase. induction r as [|[k' v'] r IH]; intros H; simpl.
  - rewrite Z.ltb_irrefl, Z.eqb_refl. split; reflexivity.
  - assert (Hk : k' < k) by (apply (H (k', v')); left; reflexivity).
    replace (k' <? k) with true by (symmetry; apply Z.ltb_lt; lia).
    replace (k' =? k) with false by (symmetry; apply Z.eqb_neq; lia).
    destruct IH as [A B]; [intros kv Hin; apply H; right; exact Hin|].
    rewrite A, B. split; reflexivity.
Qed.

(** When no free block fits and no free block ends at the peak, [alloc]
    returns the old peak, and freeing that block again gives back exactly
    the allocator before the call. *)
Theorem alloc_free_tail (a : Allocator) (s : Z) :
  alloc_wf a = true -> a_ptr a = None ->
  first_fit (getAlignedSize a s) (a_free a) = None ->
  (forall kv, In kv (a_free a) -> fst kv < a_peak a /\ m64 (fst kv + snd kv) <> a_peak a) ->
  exists a', alloc a s = Some (a_peak a, a') /\ free a' (a_peak a) s = Some a.
Proof.
  intros Hwf Hp Hff Hkeys.
  destruct a as [u p al ptr F]. simpl in *. subst ptr.
  unfold alloc_wf in Hwf. simpl in Hwf. rewrite !andb_true_iff in Hwf.
  destruct Hwf as [[[[Hu Hpk] _] _] _].
  unfold in_size_t in Hu, Hpk. rewrite andb_true_iff, Z.leb_le, Z.ltb_lt in Hu, Hpk.
  unfold alloc. simpl. set (sz := getAlignedSize (mkAllocator u p al None F) s) in *.
  rewrite Hff. eexists. split; [reflexivity|].
  unfold free. simpl.
  change (getAlignedSize (mkAllocator (m64 (u + sz)) (m64 (p + sz)) al None F) s) with sz.
  assert (Hlt : forall kv, In kv F -> fst kv < p) by (intros kv Hin; apply Hkeys; exact Hin).
  rewrite (map_insert_last p sz F Hlt), (map_next_last p sz F Hlt).
  destruct (filter_below p sz F Hlt) as [Hf He].
  assert (Hpr : map_prev p (F ++ [(p, sz)]) = last (map Some F) None)
    by (unfold map_prev; rewrite Hf; reflexivity).
  rewrite Hpr.
  assert (Hfin : (m64 (p + sz) =? m64 (p + sz)) = true) by apply Z.eqb_refl.
  destruct (last (map Some F) None) as [[pk pv]|] eqn:El.
  - apply last_map_Some_In in El. apply Hkeys in El. simpl in El.
    replace (m64 (pk + pv) =? p) with false by (symmetry; apply Z.eqb_neq; tauto).
    rewrite Hfin, He, !m64_add_sub by lia. reflexivity.
  - rewrite Hfin, He, !m64_add_sub by lia. reflexivity.
Qed.

Lemma alloc_free_tail_witness :
  exists a', alloc (mkAllocator 8 16 8 None [(0, 8)]) 10 = Some (16, a')
             /\ free a' 16 10 = Some (mkAllocator 8 16 8 None [(0, 8)]).
Proof.
  apply (alloc_free_tail (mkAllocator 8 16 8 None [(0, 8)]) 10).
  - vm_compute. reflexivity.
  - reflexivity.
  - vm_compute. reflexivity.
  - intros kv [<-|[]]. vm_compute. split; [reflexivity | discriminate].
Defined.

(* ------------------------------------------------------------------ *)
(** ** Transpose fusion *)

Lemma lookup_o_removeOperator o g j : lookup_o (removeOperator o g) j = lookup_o g j.
Proof. reflexivity. Qed.

Lemma lookup_t_removeOperator o g j : lookup_t (removeOperator o g) j = lookup_t g j.
Proof. reflexivity. Qed.

Lemma lookup_o_removeTensor t g j : lookup_o (removeTensor t g) j = lookup_o g j.
Proof. reflexivity. Qed.

Lemma lookup_t_removeTensor t g j : lookup_t (removeTensor t g) j = lookup_t g j.
Proof. reflexivity. Qed.

Lemma In_filter_neq (x y : nat) (l : list nat) :
  In x (filter (fun z => negb (Nat.eqb z y)) l) <-> In x l /\ x <> y.
Proof.
  rewrite filter_In, negb_true_iff, Nat.eqb_neq. tauto.
Qed.

Ltac heap_rw :=
  repeat first [ rewrite lookup_o_removeOperator | rewrite lookup_t_removeOperator
               | rewrite lookup_o_removeTensor | rewrite lookup_t_removeTensor
               | rewrite lookup_o_upd_o by reflexivity | rewrite lookup_t_upd_t by reflexivity
               | rewrite lookup_o_upd_t | rewrite lookup_t_upd_o ].

(** The effect of fusing a swap Transpose into a MatMul: the Transpose
    operator and its output tensor leave the graph, the MatMul's transpose
    flag is toggled and it reads the Transpose's input instead, that input
    lists the MatMul and no longer the Transpose as a target, and the
    operator edges are rerouted from the input's producer (if any) to the
    MatMul. *)
Theorem fuse_transpose_effect (isA : bool) (g : GraphObj) (matmulOp : nat) (mm : MatmulObj)
  (transOp t_mid t_in : nat) :
  hd_error (inputs_of g transOp) = Some t_in ->
  NoDup (g_ops g) -> NoDup (g_tensors g) ->
  matmulOp <> transOp -> t_in <> t_mid ->
  lookup_o g matmulOp <> None -> lookup_t g t_in <> None ->
  let g' := fuse_transpose isA g matmulOp mm transOp t_mid in
  (forall o, In o (g_ops g') <-> In o (g_ops g) /\ o <> transOp)
  /\ (forall t, In t (g_tensors g') <-> In t (g_tensors g) /\ t <> t_mid)
  /\ type_of g' matmulOp = Some (OMatMul (toggle isA mm))
  /\ inputs_of g' matmulOp
     = map (fun x => if Nat.eqb x t_mid then t_in else x) (inputs_of g matmulOp)
  /\ In matmulOp (targets_of g' t_in) /\ ~ In transOp (targets_of g' t_in)
  /\ (source_of g t_in = None -> ~ In transOp (preds_of g' matmulOp))
  /\ (forall p, source_of g t_in = Some p -> p <> transOp -> lookup_o g p <> None ->
        In p (preds_of g' matmulOp) /\ ~ In transOp (preds_of g' matmulOp)
        /\ In matmulOp (succs_of g' p) /\ ~ In transOp (succs_of g' p)).
Proof.
  intros Hin HNo HNt Hmt Htm Hlm Hlt g'.
  destruct (inputs_of g transOp) as [|x rest] eqn:Ein; [discriminate|].
  injection Hin as ->.
  assert (E1 : inputs_of (upd_o matmulOp (setType (OMatMul (toggle isA mm))) g) transOp
               = t_in :: rest).
  { unfold inputs_of in *. heap_rw. destruct (lookup_o g transOp); [|discriminate].
    simpl. destruct (Nat.eqb matmulOp transOp); exact Ein. }
  assert (Es : source_of (upd_o matmulOp (setType (OMatMul (toggle isA mm))) g) t_in
               = source_of g t_in) by reflexivity.
  assert (Hneq : forall a b, a <> b -> Nat.eqb a b = false) by (intros a b; apply Nat.eqb_neq).
  assert (Hops : g_ops g' = remove_first transOp (g_ops g)).
  { unfold g', fuse_transpose. rewrite E1, Es. destruct (source_of g t_in); reflexivity. }
  assert (Hts : g_tensors g' = remove_first t_mid (g_tensors g)).
  { unfold g', fuse_transpose. rewrite E1, Es. destruct (source_of g t_in); reflexivity. }
  destruct (lookup_o g matmulOp) as [rm|] eqn:Lm; [|contradiction].
  destruct (lookup_t g t_in) as [rt|] eqn:Lt; [|contradiction].
  unfold g', fuse_transpose in *. rewrite E1, Es in *.
  split; [intros o; rewrite Hops; apply In_remove_first; exact HNo|].
  split; [intros t; rewrite Hts; apply In_remove_first; exact HNt|].
  assert (Hfin : forall l : list nat, In matmulOp (filter (fun z => negb (Nat.eqb z transOp)) (l ++ [matmulOp]))
                 /\ ~ In transOp (filter (fun z => negb (Nat.eqb z transOp)) (l ++ [matmulOp]))).
  { intros l. rewrite !In_filter_neq, in_app_iff. simpl. intuition congruence. }
  destruct (source_of g t_in) as [p|] eqn:Hsrc.
  - cbv beta iota zeta.
    match goal with |- context [preds_of ?G matmulOp] => set (gf := G) end.
    assert (Hp : forall p', Some p = Some p' -> p' <> transOp -> lookup_o g p' <> None ->
        In p' (preds_of gf matmulOp) /\ ~ In transOp (preds_of gf matmulOp)
        /\ In matmulOp (succs_of gf p') /\ ~ In transOp (succs_of gf p')).
    { intros p' Hp' Hpt Hlp. injection Hp' as <-.
      destruct (lookup_o g p) as [rp|] eqn:Lp; [|contradiction].
      unfold gf, preds_of, succs_of. heap_rw. rewrite Lm, Lp. simpl. rewrite !Nat.eqb_refl.
      destruct (Nat.eqb p matmulOp) eqn:Epm.
      - apply Nat.eqb_eq in Epm. subst p. rewrite Lm in Lp. injection Lp as <-. simpl.
        rewrite !Nat.eqb_refl. simpl. rewrite !in_app_iff, !In_filter_neq. simpl. intuition congruence.
      - rewrite (Nat.eqb_sym matmulOp p), Epm. simpl.
        rewrite !in_app_iff, !In_filter_neq. simpl. intuition congruence. }
    split; [|split; [|split; [|split; [|split]]]]; try exact Hp; try (intros; discriminate);
      unfold gf.
    + unfold type_of. heap_rw. rewrite Lm. simpl. rewrite !Nat.eqb_refl.
      destruct (Nat.eqb p matmulOp); reflexivity.
    + unfold inputs_of. heap_rw. rewrite Lm. simpl. rewrite !Nat.eqb_refl.
      destruct (Nat.eqb p matmulOp); reflexivity.
    + unfold targets_of. heap_rw. rewrite Lt. simpl. rewrite !Nat.eqb_refl, (Hneq t_mid t_in) by congruence.
      apply Hfin.
    + unfold targets_of. heap_rw. rewrite Lt. simpl. rewrite !Nat.eqb_refl, (Hneq t_mid t_in) by congruence.
      apply Hfin.
  - cbv beta iota zeta.
    split; [|split; [|split; [|split; [|split]]]]; try (intros; discriminate).
    + unfold type_of. heap_rw. rewrite Lm. simpl. rewrite !Nat.eqb_refl. reflexivity.
    + unfold inputs_of. heap_rw. rewrite Lm. simpl. rewrite !Nat.eqb_refl. reflexivity.
    + unfold targets_of. heap_rw. rewrite Lt. simpl. rewrite !Nat.eqb_refl, (Hneq t_mid t_in) by congruence.
      apply Hfin.
    + unfold targets_of. heap_rw. rewrite Lt. simpl. rewrite !Nat.eqb_refl, (Hneq t_mid t_in) by congruence.
      apply Hfin.
    + intros _. unfold preds_of. heap_rw. rewrite Lm. simpl. rewrite !Nat.eqb_refl. simpl.
      rewrite In_filter_neq. tauto.
Qed.

Lemma fuse_transpose_effect_witness :
  let mm := mkMatmul false false 0 0 0 in
  let g' := fuse_transpose true g_fuse 11 mm 10 1 in
  (forall o, In o (g_ops g') <-> In o (g_ops g_fuse) /\ o <> 10%nat)
  /\ (forall t, In t (g_tensors g') <-> In t (g_tensors g_fuse) /\ t <> 1%nat)
  /\ type_of g' 11 = Some (OMatMul (toggle true mm))
  /\ inputs_of g' 11
     = map (fun x => if Nat.eqb x 1 then 0%nat else x) (inputs_of g_fuse 11)
  /\ In 11%nat (targets_of g' 0) /\ ~ In 10%nat (targets_of g' 0)
  /\ (source_of g_fuse 0 = None -> ~ In 10%nat (preds_of g' 11))
  /\ (forall p, source_of g_fuse 0 = Some p -> p <> 10%nat -> lookup_o g_fuse p <> None ->
        In p (preds_of g' 11) /\ ~ In 10%nat (preds_of g' 11)
        /\ In 11%nat (succs_of g' p) /\ ~ In 10%nat (succs_of g' p)).
Proof.
  apply (fuse_transpose_effect true g_fuse 11 (mkMatmul false false 0 0 0) 10 1 0).
  - vm_compute. reflexivity.
  - vm_compute. repeat constructor; simpl; intuition discriminate.
  - vm_compute. repeat constructor; simpl; intuition discriminate.
  - discriminate.
  - discriminate.
  - vm_compute. discriminate.
  - vm_compute. discriminate.
Defined.

Lemma isSwapLastTwo_nth (perm : list Z) :
  isSwapLastTwo perm = true ->
  (2 <= length perm)%nat
  /\ nth (length perm - 1) perm 0 = Z.of_nat (length perm) - 2
  /\ nth (length perm - 2) perm 0 = Z.of_nat (length perm) - 1
  /\ (forall i, (i < length perm - 2)%nat -> nth i perm 0 = Z.of_nat i).
Proof.
  unfold isSwapLastTwo. destruct (length perm <? 2)%nat eqn:E; [discriminate|].
  apply Nat.ltb_ge in E. rewrite !andb_true_iff, !Z.eqb_eq, forallb_forall.
  intros [[H1 H2] H3]. repeat split; try assumption.
  intros i Hi. apply Z.eqb_eq. apply H3. apply in_seq. lia.
Qed.

Lemma transpose_shape_nth (perm s : list Z) (i : nat) :
  (i < length perm)%nat -> nth i (transpose_shape perm s) 0 = nth (Z.to_nat (nth i perm 0)) s 0.
Proof.
  intros Hi. unfold transpose_shape.
  rewrite (nth_indep _ 0 ((fun p => nth (Z.to_nat p) s 0) 0)) by (rewrite length_map; exact Hi).
  apply (map_nth (fun p => nth (Z.to_nat p) s 0)).
Qed.

Lemma swap_shape (perm s : list Z) :
  isSwapLastTwo perm = true -> length perm = length s ->
  let n := length s in
  let T := transpose_shape perm s in
  length T = n /\ nth (n - 2) T 0 = nth (n - 1) s 0 /\ nth (n - 1) T 0 = nth (n - 2) s 0
  /\ firstn (n - 2) T = firstn (n - 2) s.
Proof.
  intros Hs Hl n T. destruct (isSwapLastTwo_nth perm Hs) as (H2 & Ha & Hb & Hc).
  rewrite Hl in H2, Ha, Hb, Hc. fold n in H2, Ha, Hb, Hc.
  assert (LT : length T = n) by (unfold T, transpose_shape; rewrite length_map; exact Hl).
  split; [exact LT|].
  split; [unfold T; rewrite transpose_shape_nth by lia; rewrite Hb; f_equal; lia|].
  split; [unfold T; rewrite transpose_shape_nth by lia; rewrite Ha; f_equal; lia|].
  apply nth_ext with (d := 0) (d' := 0).
  - rewrite !length_firstn. lia.
  - intros i Hi. rewrite length_firstn in Hi.
    rewrite !nth_firstn. destruct (i <? n - 2)%nat eqn:E; [|reflexivity].
    unfold T. rewrite transpose_shape_nth by lia. rewrite Hc by lia. rewrite Nat2Z.id. reflexivity.
Qed.

(** Toggling the MatMul's [transA] (resp. [transB]) flag infers the same
    output shape as feeding it the operand transposed by a permutation that
    swaps the last two axes, so the fusion preserves the output shape. *)
Theorem fuse_transpose_shape (perm : list Z) (mm : MatmulObj) (sA sB : Shape) :
  isSwapLastTwo perm = true ->
  (length perm = length sA ->
     fst (matmul_inferShape (toggle true mm) sA sB)
     = fst (matmul_inferShape mm (transpose_shape perm sA) sB))
  /\ (length perm = length sB ->
     fst (matmul_inferShape (toggle false mm) sA sB)
     = fst (matmul_inferShape mm sA (transpose_shape perm sB))).
Proof.
  intros Hs. pose proof (proj1 (isSwapLastTwo_nth perm Hs)) as H2. split; intros Hl.
  - destruct (swap_shape perm sA Hs Hl) as (L & N2 & N1 & F).
    unfold matmul_inferShape. rewrite L, N2, N1, F.
    destruct mm as [ta tb m0 n0 k0]; destruct ta, tb; simpl;
      repeat match goal with |- context [match ?x with _ => _ end] => destruct x end; reflexivity.
  - destruct (swap_shape perm sB Hs Hl) as (L & N2 & N1 & F).
    unfold matmul_inferShape. rewrite L, N2, N1, F.
    destruct mm as [ta tb m0 n0 k0]; destruct ta, tb; simpl;
      repeat match goal with |- context [match ?x with _ => _ end] => destruct x end; reflexivity.
Qed.

Lemma fuse_transpose_shape_witness :
  (length [1;0] = length [3;5] ->
     fst (matmul_inferShape (toggle true (mkMatmul false false 0 0 0)) [3;5] [3;4])
     = fst (matmul_inferShape (mkMatmul false false 0 0 0) (transpose_shape [1;0] [3;5]) [3;4]))
  /\ (length [1;0] = length [3;4] ->
     fst (matmul_inferShape (toggle false (mkMatmul false false 0 0 0)) [3;5] [3;4])
     = fst (matmul_inferShape (mkMatmul false false 0 0 0) [3;5] (transpose_shape [1;0] [3;4]))).
Proof. apply (fuse_transpose_shape [1;0] (mkMatmul false false 0 0 0) [3;5] [3;4]). reflexivity. Defined.

(* ------------------------------------------------------------------ *)
(** ** optimize, removal, graph inputs and outputs *)

Lemma optimize_scan_false (g g' : GraphObj) (l : list nat) :
  optimize_scan g l = (false, g') ->
  g' = g /\ (forall o, In o l -> t1_match g o = None /\ matmul_step g o = None).
Proof.
  induction l as [|o l IH]; simpl.
  - intros H. injection H as <-. split; [reflexivity | intros o []].
  - destruct (t1_match g o) as [[[a b] c]|] eqn:E1; [discriminate|].
    destruct (matmul_step g o) as [g2|] eqn:E2; [discriminate|].
    intros H. destruct (IH H) as [-> Hr]. split; [reflexivity|].
    intros o' [<-|Hin]; [split; assumption | exact (Hr o' Hin)].
Qed.

(** When [optimize] finishes, no rewrite rule applies to any operator of
    the result, and a further round of [optimize] leaves it unchanged. *)
Theorem optimize_fixpoint (fuel : nat) (g g' : GraphObj) :
  optimize fuel g = Some g' ->
  (forall o, In o (g_ops g') -> t1_match g' o = None /\ matmul_step g' o = None)
  /\ optimize 1 g' = Some g'.
Proof.
  revert g. induction fuel as [|f IH]; intros g; simpl; [discriminate|].
  destruct (optimize_scan g (g_ops g)) as [[|] g2] eqn:E; [apply IH|].
  intros H. injection H as <-.
  destruct (optimize_scan_false g g2 (g_ops g) E) as [-> Hr].
  split; [exact Hr|]. rewrite E. reflexivity.
Qed.

Lemma optimize_fixpoint_witness :
  exists g', optimize 10 g_cancel = Some g'
    /\ (forall o, In o (g_ops g') -> t1_match g' o = None /\ matmul_step g' o = None)
    /\ optimize 1 g' = Some g'.
Proof.
  destruct (optimize 10 g_cancel) as [g'|] eqn:E; [|vm_compute in E; discriminate].
  exists g'. split; [reflexivity | exact (optimize_fixpoint 10 g_cancel g' E)].
Defined.




(** In a graph passing [checkValid] no tensor is both a graph input and
    a graph output. *)
Theorem checkValid_inputs_outputs_disjoint (g : GraphObj) :
  checkValid g = true -> forall t, In t (getInputs g) -> ~ In t (getOutputs g).
Proof.
  intros Hv t Hi Ho. apply checkValid_iff in Hv. destruct Hv as [H1 _].
  unfold getInputs, getOutputs in *. apply filter_In in Hi as [Ht Hs]. apply filter_In in Ho as [_ Hd].
  destruct (H1 t Ht) as [H|H].
  - destruct (targets_of g t); [contradiction | discriminate].
  - destruct (source_of g t); [discriminate | contradiction].
Qed.

Lemma checkValid_inputs_outputs_disjoint_witness :
  checkValid g_cancel = true
  /\ forall t, In t (getInputs g_cancel) -> ~ In t (getOutputs g_cancel).
Proof.
  assert (H : checkValid g_cancel = true) by (vm_compute; reflexivity).
  split; [exact H | exact (checkValid_inputs_outputs_disjoint g_cancel H)].
Defined.

(* ------------------------------------------------------------------ *)
(** ** Allocator safety under a well-behaved client *)

Lemma keys_sorted_Sorted (m : FreeMap) :
  keys_sorted m = true <-> Sorted (fun e1 e2 => fst e1 < fst e2) m.
Proof.
  induction m as [|[k v] r IH]; [split; intros; [constructor | reflexivity]|].
  destruct r as [|[k' v'] r'].
  - split; intros; [repeat constructor | reflexivity].
  - change (keys_sorted ((k, v) :: (k', v') :: r')) with ((k <? k') && keys_sorted ((k', v') :: r')).
    rewrite andb_true_iff, Z.ltb_lt, IH. split.
    + intros [H1 H2]. constructor; [exact H2 | constructor; exact H1].
    + intros H. inversion H as [|? ? Hs Hh]; subst. inversion Hh; subst. split; assumption.
Qed.

Lemma keys_sorted_SS (m : FreeMap) :
  keys_sorted m = true <-> StronglySorted (fun e1 e2 => fst e1 < fst e2) m.
Proof.
  rewrite keys_sorted_Sorted. split; [apply Sorted_StronglySorted | apply StronglySorted_Sorted].
  intros x y z; lia.
Qed.

Lemma In_map_insert_sub (k v : Z) (m : FreeMap) e :
  In e (map_insert k v m) -> e = (k, v) \/ In e m.
Proof.
  induction m as [|[k' v'] r IH]; simpl; [intuition|].
  destruct (k =? k'); [simpl; intuition|].
  destruct (k <? k'); simpl; intuition.
Qed.

Lemma In_map_insert (k v : Z) (m : FreeMap) e :
  keys_sorted m = true -> (In e (map_insert k v m) <-> e = (k, v) \/ (In e m /\ fst e <> k)).
Proof.
  rewrite keys_sorted_SS. intros Hs. induction Hs as [|[k' v'] r Hs IH Hf]; simpl; [intuition|].
  rewrite Forall_forall in Hf. simpl in Hf.
  destruct (k =? k') eqn:E1; [apply Z.eqb_eq in E1; subst k'|].
  - simpl. split.
    + intros [<-|H]; [left; reflexivity|]. right. split; [right; exact H|]. specialize (Hf e H). lia.
    + intros [<-|[[<-|H] Hne]]; [left; reflexivity | simpl in Hne; lia | right; exact H].
  - apply Z.eqb_neq in E1. destruct (k <? k') eqn:E2.
    + apply Z.ltb_lt in E2. simpl. split.
      * intros [<-|[<-|H]]; [left; reflexivity | right; split; [left; reflexivity | simpl; lia] |].
        right. split; [right; exact H|]. specialize (Hf e H). lia.
      * intros [<-|[[<-|H] Hne]]; [left; reflexivity | right; left; reflexivity | right; right; exact H].
    + simpl. rewrite IH. split.
      * intros [<-|[<-|[H Hne]]]; [right; split; [left; reflexivity | simpl; lia] | left; reflexivity |].
        right. split; [right; exact H | exact Hne].
      * intros [<-|[[<-|H] Hne]]; [right; left; reflexivity | left; reflexivity | right; right; tauto].
Qed.

Lemma In_map_erase (k : Z) (m : FreeMap) e : In e (map_erase k m) <-> In e m /\ fst e <> k.
Proof.
  unfold map_erase. rewrite filter_In, negb_true_iff, Z.eqb_neq. reflexivity.
Qed.

Lemma sorted_map_insert (k v : Z) (m : FreeMap) :
  keys_sorted m = true -> keys_sorted (map_insert k v m) = true.
Proof.
  intros H. pose proof H as H0. rewrite keys_sorted_SS in *. clear H0.
  induction H as [|[k' v'] r Hs IH Hf]; simpl; [repeat constructor|].
  rewrite Forall_forall in Hf. simpl in Hf.
  destruct (k =? k') eqn:E1; [apply Z.eqb_eq in E1; subst k'|].
  - constructor; [exact Hs|]. apply Forall_forall. intros e He. simpl. apply Hf. exact He.
  - apply Z.eqb_neq in E1. destruct (k <? k') eqn:E2.
    + apply Z.ltb_lt in E2. constructor; [constructor; [exact Hs | apply Forall_forall; exact Hf]|].
      constructor; [simpl; lia|]. apply Forall_forall. intros e He. simpl. specialize (Hf e He). lia.
    + apply Z.ltb_ge in E2. constructor; [exact IH|]. apply Forall_forall. intros e He.
      apply In_map_insert_sub in He as [->|He]; simpl; [lia | apply Hf; exact He].
Qed.

Lemma sorted_map_erase (k : Z) (m : FreeMap) :
  keys_sorted m = true -> keys_sorted (map_erase k m) = true.
Proof.
  rewrite !keys_sorted_SS. intros H. unfold map_erase.
  induction H as [|x r Hs IH Hf]; simpl; [constructor|].
  destruct (negb (fst x =? k)); [|exact IH].
  constructor; [exact IH|]. apply Forall_forall. intros e He. apply filter_In in He as [He _].
  rewrite Forall_forall in Hf. apply Hf. exact He.
Qed.

Lemma map_next_some (k : Z) (m : FreeMap) e : map_next k m = Some e -> In e m /\ k < fst e.
Proof.
  unfold map_next. intros H. pose proof (find_some _ _ H) as [Hin Hp].
  apply Z.ltb_lt in Hp. split; assumption.
Qed.

Lemma map_prev_some (k : Z) (m : FreeMap) e : map_prev k m = Some e -> In e m /\ fst e < k.
Proof.
  unfold map_prev. intros H.
  assert (Hin : In e (filter (fun kv => fst kv <? k) m)).
  { revert H. generalize (filter (fun kv => fst kv <? k) m). intros l.
    induction l as [|y l IH]; simpl; [discriminate|].
    destruct l as [|z l]; [intros H; injection H as ->; left; reflexivity|].
    intros H. right. apply IH. exact H. }
  apply filter_In in Hin as [Hin Hp]. apply Z.ltb_lt in Hp. split; assumption.
Qed.

Lemma first_fit_some (size : Z) (m : FreeMap) k v :
  first_fit size m = Some (k, v) -> In (k, v) m /\ size <= v.
Proof.
  induction m as [|[k' v'] r IH]; simpl; [discriminate|].
  destruct (size <=? v') eqn:E.
  - intros H. injection H as -> ->. apply Z.leb_le in E. split; [left; reflexivity | exact E].
  - intros H. destruct (IH H). split; [right|]; assumption.
Qed.

Lemma remove_block_incl (b : Z * Z) (L : list (Z * Z)) : incl (remove_block b L) L.
Proof.
  induction L as [|b' r IH]; simpl; [apply incl_refl|].
  destruct (_ && _); [apply incl_tl, incl_refl|].
  apply incl_cons; [left; reflexivity | apply incl_tl, IH].
Qed.

Lemma block_eqb_true (b b' : Z * Z) : (fst b' =? fst b) && (snd b' =? snd b) = true -> b' = b.
Proof.
  destruct b, b'. simpl. rewrite andb_true_iff, !Z.eqb_eq. intros [-> ->]. reflexivity.
Qed.

Lemma remove_block_sum (b : Z * Z) (L : list (Z * Z)) :
  In b L -> sumsnd L = snd b + sumsnd (remove_block b L).
Proof.
  unfold sumsnd. induction L as [|b' r IH]; simpl; [intros []|].
  intros Hin. destruct (_ && _) eqn:E.
  - apply block_eqb_true in E. subst. reflexivity.
  - simpl. destruct Hin as [->|Hin].
    + destruct b as [x y]. simpl in E. rewrite !Z.eqb_refl in E. discriminate.
    + rewrite (IH Hin). lia.
Qed.

Lemma remove_block_sum_nonneg (L : list (Z * Z)) : (forall b, In b L -> 0 <= snd b) -> 0 <= sumsnd L.
Proof.
  unfold sumsnd. induction L as [|b r IH]; simpl; [lia|]. intros H.
  pose proof (H b (or_introl eq_refl)). pose proof (IH (fun b' Hb => H b' (or_intror Hb))). lia.
Qed.

Lemma FOP_remove (R : Z * Z -> Z * Z -> Prop) (b : Z * Z) (L : list (Z * Z)) :
  ForallOrdPairs R L -> ForallOrdPairs R (remove_block b L).
Proof.
  induction 1 as [|b' r Hf Hr IH]; simpl; [constructor|].
  destruct (_ && _); [exact Hr|]. constructor; [|exact IH].
  rewrite Forall_forall in *. intros x Hx. apply Hf. apply remove_block_incl in Hx. exact Hx.
Qed.

Lemma FOP_remove_other (R : Z * Z -> Z * Z -> Prop) (b : Z * Z) (L : list (Z * Z)) :
  ForallOrdPairs R L -> In b L -> forall b', In b' (remove_block b L) -> R b b' \/ R b' b.
Proof.
  induction 1 as [|c r Hf Hr IH]; simpl; [intros []|].
  intros Hin b' Hb'. rewrite Forall_forall in Hf.
  destruct (_ && _) eqn:E.
  - apply block_eqb_true in E. subst c. left. apply Hf. exact Hb'.
  - destruct Hin as [->|Hin].
    + destruct b as [x y]. simpl in E. rewrite !Z.eqb_refl in E. discriminate.
    + destruct Hb' as [<-|Hb'].
      * right. apply Hf. exact Hin.
      * apply IH; assumption.
Qed.

Lemma existsb_block (b : Z * Z) (L : list (Z * Z)) : existsb (block_eqb b) L = true -> In b L.
Proof.
  rewrite existsb_exists. intros [b' [Hin E]]. unfold block_eqb in E.
  destruct b as [x y], b' as [x' y']. simpl in E. rewrite andb_true_iff, !Z.eqb_eq in E.
  destruct E as [-> ->]. exact Hin.
Qed.

Lemma getAlignedSize_range' (a : Allocator) (s : Z) : 0 <= getAlignedSize a s < W64.
Proof. unfold getAlignedSize. apply m64_range. Qed.

Lemma inv_alloc (a : Allocator) (L : list (Z * Z)) (T s off : Z) (a' : Allocator) :
  alloc_inv a L T -> T + getAlignedSize a s < W64 -> alloc a s = Some (off, a') ->
  alloc_inv a' ((off, getAlignedSize a s) :: L) (T + getAlignedSize a s).
Proof.
  intros (Hp & Hal & Hs & HP & HT & V3 & V4 & V5 & V6 & V7 & HU & HL) HT' Ha.
  pose proof (getAlignedSize_range' a s) as Hsz.
  set (sz := getAlignedSize a s) in *.
  unfold alloc in Ha. rewrite Hp in Ha. fold sz in Ha.
  assert (HU' : m64 (a_used a + sz) = a_used a + sz) by (apply m64_small; lia).
  destruct (first_fit sz (a_free a)) as [[k v]|] eqn:Ef.
  - injection Ha as <- <-. apply first_fit_some in Ef as [Hkv Hle].
    destruct (V3 _ Hkv) as (Hk & Hv & Hkp). simpl in Hk, Hv, Hkp.
    assert (Hks : 0 <= k + sz < W64) by (destruct (Z.lt_ge_cases 0 v); [specialize (Hkp H)|]; lia).
    rewrite (m64_small (k + sz)) by exact Hks.
    rewrite (m64_small (v - sz)) by lia.
    set (F' := map_insert (k + sz) (v - sz) (map_erase k (a_free a))).
    assert (HF' : forall e, In e F' <-> e = (k + sz, v - sz) \/ (In e (a_free a) /\ fst e <> k /\ fst e <> k + sz)).
    { intros e. unfold F'. rewrite In_map_insert by (apply sorted_map_erase; exact Hs).
      rewrite In_map_erase. tauto. }
    unfold alloc_inv; simpl. rewrite HU'.
    split; [reflexivity|]. split; [exact Hal|].
    split; [apply sorted_map_insert, sorted_map_erase; exact Hs|].
    split; [lia|]. split; [lia|].
    split.
    { intros e He. apply HF' in He as [->|(He & _ & _)]; simpl.
      - destruct (Z.lt_ge_cases 0 v); [specialize (Hkp H)|]; lia.
      - apply V3. exact He. }
    split.
    { intros e1 e2 H1 H2 Hne. apply HF' in H1, H2.
      destruct H1 as [->|(H1 & H1k & H1s)], H2 as [->|(H2 & H2k & H2s)].
      - simpl in Hne. contradiction.
      - pose proof (V4 _ _ Hkv H2 (fun E => H2k (eq_sym E))). unfold disj in *. simpl in *. lia.
      - pose proof (V4 _ _ Hkv H1 (fun E => H1k (eq_sym E))). unfold disj in *. simpl in *. lia.
      - apply V4; assumption. }
    split.
    { intros b [<-|Hb]; simpl.
      - split; [lia|]. split; [lia|]. intros H0. assert (Hv0 : 0 < v) by lia. specialize (Hkp Hv0). lia.
      - apply V5. exact Hb. }
    split.
    { constructor; [|exact V6]. apply Forall_forall. intros b Hb.
      pose proof (V7 b _ Hb Hkv). unfold disj in *. simpl in *. lia. }
    split.
    { intros b e [<-|Hb] He; apply HF' in He.
      - destruct He as [->|(He & Hek & _)]; unfold disj; simpl; [lia|].
        pose proof (V4 _ _ Hkv He (fun E => Hek (eq_sym E))). unfold disj in *. simpl in *. lia.
      - destruct He as [->|(He & _ & _)]; [|apply V7; assumption].
        pose proof (V7 b _ Hb Hkv). unfold disj in *. simpl in *. lia. }
    unfold sumsnd in *. simpl. lia.
  - injection Ha as <- <-.
    assert (HP' : m64 (a_peak a + sz) = a_peak a + sz) by (apply m64_small; lia).
    unfold alloc_inv; simpl. rewrite HU', HP'.
    split; [reflexivity|]. split; [exact Hal|]. split; [exact Hs|].
    split; [lia|]. split; [lia|].
    split.
    { intros e He. destruct (V3 e He) as (A & B & C). split; [exact A|]. split; [exact B|].
      intros H0. specialize (C H0). lia. }
    split; [exact V4|].
    split.
    { intros b [<-|Hb]; simpl; [lia|]. destruct (V5 b Hb) as (A & B & C).
      split; [exact A|]. split; [exact B|]. intros H0. specialize (C H0). lia. }
    split.
    { constructor; [|exact V6]. apply Forall_forall. intros b Hb.
      destruct (V5 b Hb) as (A & B & C). unfold disj. simpl.
      destruct (Z.lt_ge_cases 0 (snd b)); [specialize (C H)|]; lia. }
    split.
    { intros b e [<-|Hb] He; [|apply V7; assumption].
      destruct (V3 e He) as (A & B & C). unfold disj. simpl.
      destruct (Z.lt_ge_cases 0 (snd e)); [specialize (C H)|]; lia. }
    unfold sumsnd in *. simpl. lia.
Qed.

Lemma merge_next (a : Allocator) (L L' : list (Z * Z)) (T ad sz : Z) (fb : FreeMap) cur fb2 :
  alloc_inv a L T -> incl L' L -> merge_state a L' ad sz fb ->
  match map_next ad fb with
  | Some (nk, nv) =>
      if m64 (ad + sz) =? nk
      then (m64 (sz + nv), map_erase nk (map_insert ad (m64 (sz + nv)) fb))
      else (sz, fb)
  | None => (sz, fb)
  end = (cur, fb2) ->
  merge_state a L' ad cur fb2.
Proof.
  intros (Hp & Hal & Hs & HP & HT & V3 & V4 & V5 & V6 & V7 & HU & HL) Hincl HM E.
  destruct (map_next ad fb) as [[nk nv]|] eqn:En; [|injection E as <- <-; exact HM].
  destruct (m64 (ad + sz) =? nk) eqn:Eq; [|injection E as <- <-; exact HM].
  injection E as <- <-. destruct HM as (Ms & Min & Mk & Ms0 & Mw & Mp & Mf & Ml).
  apply map_next_some in En as [Hin Hlt]. simpl in Hlt.
  destruct (Mf _ Hin ltac:(simpl; lia)) as [HinF Hd].
  apply Z.eqb_eq in Eq. rewrite m64_small in Eq by lia. subst nk.
  destruct (V3 _ HinF) as (A & B & C). simpl in A, B, C.
  assert (Hb : 0 <= sz + nv < W64 /\ (0 < sz + nv -> ad + (sz + nv) <= a_peak a)).
  { destruct (Z.lt_ge_cases 0 nv) as [Hn|Hn]; [specialize (C Hn); lia|].
    destruct (Z.lt_ge_cases 0 sz) as [Hz|Hz]; [specialize (Mp Hz); lia|]. lia. }
  rewrite m64_small by lia.
  set (fb' := map_erase (ad + sz) (map_insert ad (sz + nv) fb)).
  assert (Hfb : forall e, In e fb' <-> (e = (ad, sz + nv) \/ (In e fb /\ fst e <> ad)) /\ fst e <> ad + sz).
  { intros e. unfold fb'. rewrite In_map_erase, In_map_insert by exact Ms. tauto. }
  unfold merge_state.
  split; [apply sorted_map_erase, sorted_map_insert; exact Ms|].
  split; [apply Hfb; split; [left; reflexivity | simpl; lia]|].
  split; [lia|]. split; [lia|]. split; [lia|]. split; [tauto|].
  split.
  - intros e He Hne. apply Hfb in He as [[->|[He Hne']] Hne2]; [simpl in Hne; contradiction|].
    destruct (Mf e He Hne') as [HeF Hde]. split; [exact HeF|].
    pose proof (V4 _ _ HinF HeF ltac:(simpl; lia)). unfold disj in *. simpl in *. lia.
  - intros b Hb'. pose proof (Ml b Hb'). pose proof (V7 b _ (Hincl b Hb') HinF).
    unfold disj in *. simpl in *. lia.
Qed.

Lemma merge_prev (a : Allocator) (L L' : list (Z * Z)) (T ad cur : Z) (fb : FreeMap) itk its fb3 :
  alloc_inv a L T -> incl L' L -> merge_state a L' ad cur fb ->
  match map_prev ad fb with
  | Some (pk, pv) =>
      if m64 (pk + pv) =? ad
      then (pk, m64 (pv + cur), map_erase ad (map_insert pk (m64 (pv + cur)) fb))
      else (ad, cur, fb)
  | None => (ad, cur, fb)
  end = (itk, its, fb3) ->
  merge_state a L' itk its fb3.
Proof.
  intros (Hp & Hal & Hs & HP & HT & V3 & V4 & V5 & V6 & V7 & HU & HL) Hincl HM E.
  destruct (map_prev ad fb) as [[pk pv]|] eqn:En; [|injection E as <- <- <-; exact HM].
  destruct (m64 (pk + pv) =? ad) eqn:Eq; [|injection E as <- <- <-; exact HM].
  injection E as <- <- <-. destruct HM as (Ms & Min & Mk & Ms0 & Mw & Mp & Mf & Ml).
  apply map_prev_some in En as [Hin Hlt]. simpl in Hlt.
  destruct (Mf _ Hin ltac:(simpl; lia)) as [HinF Hd].
  destruct (V3 _ HinF) as (A & B & C). simpl in A, B, C.
  apply Z.eqb_eq in Eq.
  assert (Hpv : 0 < pv).
  { destruct (Z.lt_ge_cases 0 pv) as [Hn|Hn]; [exact Hn|].
    assert (pv = 0) by lia. subst pv. rewrite Z.add_0_r, m64_small in Eq by lia. lia. }
  specialize (C Hpv). rewrite m64_small in Eq by lia. subst ad.
  assert (Hb : 0 <= pv + cur < W64 /\ pk + (pv + cur) <= a_peak a).
  { destruct (Z.lt_ge_cases 0 cur) as [Hz|Hz]; [specialize (Mp Hz); lia|]. lia. }
  rewrite m64_small by lia.
  set (fb' := map_erase (pk + pv) (map_insert pk (pv + cur) fb)).
  assert (Hfb : forall e, In e fb' <-> (e = (pk, pv + cur) \/ (In e fb /\ fst e <> pk)) /\ fst e <> pk + pv).
  { intros e. unfold fb'. rewrite In_map_erase, In_map_insert by exact Ms. tauto. }
  unfold merge_state.
  split; [apply sorted_map_erase, sorted_map_insert; exact Ms|].
  split; [apply Hfb; split; [left; reflexivity | simpl; lia]|].
  split; [lia|]. split; [lia|]. split; [lia|]. split; [intros _; lia|].
  split.
  - intros e He Hne. apply Hfb in He as [[->|[He Hne']] Hne2]; [simpl in Hne; contradiction|].
    destruct (Mf e He Hne2) as [HeF Hde]. split; [exact HeF|].
    pose proof (V4 _ _ HinF HeF ltac:(simpl; lia)). unfold disj in *. simpl in *. lia.
  - intros b Hb'. pose proof (Ml b Hb'). pose proof (V7 b _ (Hincl b Hb') HinF).
    unfold disj in *. simpl in *. lia.
Qed.

Lemma keys_sorted_unique (m : FreeMap) e1 e2 :
  keys_sorted m = true -> In e1 m -> In e2 m -> fst e1 = fst e2 -> e1 = e2.
Proof.
  rewrite keys_sorted_SS. intros Ms. induction Ms as [|x r Hr IH Hf]; [intros []|].
  rewrite Forall_forall in Hf. intros [<-|H1] [<-|H2] Hk.
  - reflexivity.
  - specialize (Hf _ H2). lia.
  - specialize (Hf _ H1). lia.
  - apply IH; assumption.
Qed.

Lemma inv_free (a : Allocator) (L : list (Z * Z)) (T ad s : Z) (a' : Allocator) :
  alloc_inv a L T -> In (ad, getAlignedSize a s) L -> free a ad s = Some a' ->
  alloc_inv a' (remove_block (ad, getAlignedSize a s) L) T.
Proof.
  intros Hinv Hb Hf. pose proof Hinv as (Hp & Hal & Hs & HP & HT & V3 & V4 & V5 & V6 & V7 & HU & HL).
  set (sz := getAlignedSize a s) in *.
  set (L' := remove_block (ad, sz) L).
  assert (Hincl : incl L' L) by apply remove_block_incl.
  unfold free in Hf. rewrite Hp in Hf. fold sz in Hf.
  destruct (V5 _ Hb) as (A & B & C). simpl in A, B, C.
  assert (H0 : merge_state a L' ad sz (map_insert ad sz (a_free a))).
  { unfold merge_state.
    split; [apply sorted_map_insert; exact Hs|].
    split; [apply In_map_insert; [exact Hs | left; reflexivity]|].
    split; [lia|]. split; [lia|].
    split; [destruct (Z.lt_ge_cases 0 sz) as [Hz|Hz]; [specialize (C Hz)|]; lia|].
    split; [exact C|].
    split.
    - intros e He Hne. apply (In_map_insert _ _ _ _ Hs) in He as [->|[He _]].
      + simpl in Hne. contradiction.
      + split; [exact He | apply (V7 _ _ Hb He)].
    - intros b' Hb'. destruct (FOP_remove_other disj _ _ V6 Hb b' Hb') as [H|H]; [exact H|].
      unfold disj in *. lia. }
  match type of Hf with
  | context [match ?M with (cur, fb) => _ end] =>
      destruct M as [cur fb2] eqn:E1
  end.
  pose proof (merge_next a L L' T ad sz _ cur fb2 Hinv Hincl H0 E1) as H1.
  destruct (match map_prev ad fb2 with
            | Some (pk, pv) =>
                if m64 (pk + pv) =? ad
                then (pk, m64 (pv + cur), map_erase ad (map_insert pk (m64 (pv + cur)) fb2))
                else (ad, cur, fb2)
            | None => (ad, cur, fb2)
            end) as [[itk its] fb3] eqn:E2.
  pose proof (merge_prev a L L' T ad cur fb2 itk its fb3 Hinv Hincl H1 E2) as H2.
  clear E1 E2 H0 H1.
  destruct H2 as (Ms & Min & Mk & Ms0 & Mw & Mp & Mf & Ml).
  assert (HU' : m64 (a_used a - sz) = sumsnd L').
  { rewrite HU. rewrite (remove_block_sum _ _ Hb). simpl.
    fold L'. replace (sz + sumsnd L' - sz) with (sumsnd L') by lia. apply m64_small.
    pose proof (remove_block_sum_nonneg L' (fun b' Hb' => proj1 (proj2 (V5 b' (Hincl b' Hb'))))).
    rewrite (remove_block_sum _ _ Hb) in HL. simpl in HL. fold L' in HL. lia. }
  assert (HLs : 0 <= sumsnd L' <= T).
  { pose proof (remove_block_sum_nonneg L' (fun b' Hb' => proj1 (proj2 (V5 b' (Hincl b' Hb'))))).
    rewrite (remove_block_sum _ _ Hb) in HL. simpl in HL. fold L' in HL. lia. }
  assert (V4' : forall fb, (forall e, In e fb ->
              (In e (a_free a) /\ disj (itk, its) e) \/ e = (itk, its)) ->
            forall e1 e2, In e1 fb -> In e2 fb -> fst e1 <> fst e2 -> disj e1 e2).
  { intros fb Hfb e1 e2 H1 H2 Hne.
    destruct (Hfb e1 H1) as [[H1' H1d]| ->], (Hfb e2 H2) as [[H2' H2d]| ->].
    - apply V4; assumption.
    - unfold disj in *. simpl in *. lia.
    - exact H2d.
    - simpl in Hne. contradiction. }
  destruct (m64 (itk + its) =? a_peak a) eqn:Et; injection Hf as <-.
  - apply Z.eqb_eq in Et. rewrite m64_small in Et by lia.
    assert (HP' : m64 (a_peak a - its) = itk) by (rewrite m64_small; lia).
    unfold alloc_inv; simpl. rewrite HU', HP'.
    split; [reflexivity|]. split; [exact Hal|]. split; [apply sorted_map_erase; exact Ms|].
    split; [lia|]. split; [exact HT|].
    split.
    { intros e He. apply In_map_erase in He as [He Hne].
      destruct (Mf e He Hne) as [HeF Hd]. destruct (V3 e HeF) as (A' & B' & C').
      split; [exact A'|]. split; [exact B'|]. intros Hpos. specialize (C' Hpos).
      unfold disj in Hd. simpl in Hd. lia. }
    split.
    { apply (V4' (map_erase itk fb3)). intros e He. apply In_map_erase in He as [He Hne].
      left. apply (Mf e He Hne). }
    split.
    { intros b' Hb'. destruct (V5 b' (Hincl b' Hb')) as (A' & B' & C').
      split; [exact A'|]. split; [exact B'|]. intros Hpos. specialize (C' Hpos).
      pose proof (Ml b' Hb'). unfold disj in *. simpl in *. lia. }
    split; [apply FOP_remove; exact V6|].
    split.
    { intros b' e Hb' He. apply In_map_erase in He as [He Hne].
      apply V7; [apply Hincl; exact Hb' | apply (Mf e He Hne)]. }
    split; [reflexivity | exact HLs].
  - unfold alloc_inv; simpl. rewrite HU'.
    split; [reflexivity|]. split; [exact Hal|]. split; [exact Ms|].
    split; [lia|]. split; [exact HT|].
    split.
    { intros e He. destruct (Z.eq_dec (fst e) itk) as [Hk|Hk].
      - assert (e = (itk, its))
        by (apply (keys_sorted_unique fb3); assumption).
        subst e. simpl. lia.
      - apply V3. apply (Mf e He Hk). }
    split.
    { apply (V4' fb3). intros e He. destruct (Z.eq_dec (fst e) itk) as [Hk|Hk].
      - right. apply (keys_sorted_unique fb3); assumption.
      - left. apply (Mf e He Hk). }
    split.
    { intros b' Hb'. apply V5. apply Hincl. exact Hb'. }
    split; [apply FOP_remove; exact V6|].
    split.
    { intros b' e Hb' He. destruct (Z.eq_dec (fst e) itk) as [Hk|Hk].
      - assert (e = (itk, its))
        by (apply (keys_sorted_unique fb3); assumption).
        subst e. pose proof (Ml b' Hb'). unfold disj in *. simpl in *. lia.
      - apply V7; [apply Hincl; exact Hb' | apply (Mf e He Hk)]. }
    split; [reflexivity | exact HLs].
Qed.

Lemma getAlignedSize_align8 (a : Allocator) (s : Z) :
  a_alignment a = 8 -> getAlignedSize a s = getAlignedSize new_allocator s.
Proof. intros H. unfold getAlignedSize. rewrite H. reflexivity. Qed.

Lemma client_total_nonneg (cs : list AllocCall) : 0 <= client_total cs.
Proof.
  induction cs as [|[s|ad s] r IH]; simpl; [lia| |exact IH].
  pose proof (getAlignedSize_range' new_allocator s). lia.
Qed.

Lemma client_total_alloc (s : Z) (r : list AllocCall) :
  client_total (CAlloc s :: r) = getAlignedSize new_allocator s + client_total r.
Proof. reflexivity. Qed.

Lemma client_total_free (ad s : Z) (r : list AllocCall) :
  client_total (CFree ad s :: r) = client_total r.
Proof. reflexivity. Qed.

Lemma client_run_inv (cs : list AllocCall) :
  forall a L T a' L', alloc_inv a L T -> T + client_total cs < W64 ->
  client_run a L cs = Some (a', L') -> alloc_inv a' L' (T + client_total cs).
Proof.
  induction cs as [|[s|ad s] r IH]; intros a L T a' L' Hinv HT Hr;
    rewrite ?client_total_alloc, ?client_total_free in HT |- *; simpl in Hr.
  - injection Hr as <- <-. rewrite Z.add_0_r. exact Hinv.
  - pose proof (client_total_nonneg r) as Hr0.
    assert (Hal : a_alignment a = 8) by apply Hinv.
    destruct (alloc a s) as [[off a1]|] eqn:Ea; [|discriminate].
    rewrite <- (getAlignedSize_align8 a s Hal) in HT |- *.
    rewrite Z.add_assoc. apply (IH a1 ((off, getAlignedSize a s) :: L) _ a' L'); [| lia | exact Hr].
    apply (inv_alloc a L T s off a1 Hinv); [lia | exact Ea].
  - destruct (existsb (block_eqb (ad, getAlignedSize a s)) L) eqn:Eb; [|discriminate].
    destruct (free a ad s) as [a1|] eqn:Ef; [|discriminate].
    apply (IH a1 (remove_block (ad, getAlignedSize a s) L) _ a' L'); [| exact HT | exact Hr].
    apply (inv_free a L T ad s a1 Hinv); [apply existsb_block; exact Eb | exact Ef].
Qed.

Lemma FOP_disj_no_overlap (L : list (Z * Z)) :
  ForallOrdPairs disj L ->
  ForallOrdPairs (fun b1 b2 => forall x, ~ (in_block b1 x /\ in_block b2 x)) L.
Proof.
  induction 1 as [|b r Hf _ IH]; constructor; [|exact IH].
  rewrite Forall_forall in Hf |- *. intros b2 Hb2 x [H1 H2].
  specialize (Hf _ Hb2). unfold disj, in_block in *. lia.
Qed.

(** Allocator safety under a well-behaved client: starting from a fresh
    allocator, run any sequence of [alloc]/[free] calls in which every
    [free] hands back a currently live block with its aligned size, and in
    which the aligned sizes requested add up to less than 2^64.  At the end
    the live blocks are pairwise disjoint, every byte of a live block lies
    in [0, peak), no live byte is in a free block, free blocks with
    different keys do not overlap, [used] is the sum of the live sizes and
    [peak] is at most the total requested. *)
Theorem alloc_free_safety (cs : list AllocCall) (a : Allocator) (L : list (Z * Z)) :
  client_total cs < W64 -> client_run new_allocator [] cs = Some (a, L) ->
  ForallOrdPairs (fun b1 b2 => forall x, ~ (in_block b1 x /\ in_block b2 x)) L
  /\ (forall b x, In b L -> in_block b x -> 0 <= x < a_peak a)
  /\ (forall b e x, In b L -> In e (a_free a) -> ~ (in_block b x /\ in_block e x))
  /\ (forall e1 e2 x, In e1 (a_free a) -> In e2 (a_free a) -> e1 <> e2 ->
        ~ (in_block e1 x /\ in_block e2 x))
  /\ a_used a = sumsnd L /\ a_peak a <= client_total cs.
Proof.
  intros HT Hr.
  assert (H0 : alloc_inv new_allocator [] 0).
  { unfold alloc_inv; simpl. unfold W64.
    repeat split; try lia; try tauto; try apply FOP_nil; unfold sumsnd; simpl; lia. }
  pose proof (client_run_inv cs _ _ _ _ _ H0 ltac:(lia) Hr)
    as (Hp & Hal & Hs & HP & _ & V3 & V4 & V5 & V6 & V7 & HU & HL).
  split; [apply FOP_disj_no_overlap; exact V6|].
  split; [intros b x Hb Hx; destruct (V5 _ Hb) as (A & B & C); unfold in_block in Hx; lia|].
  split; [intros b e x Hb He [H1 H2]; specialize (V7 _ _ Hb He); unfold disj, in_block in *; lia|].
  split; [|split; [exact HU | lia]].
  intros e1 e2 x H1 H2 Hne [X1 X2].
  destruct (Z.eq_dec (fst e1) (fst e2)) as [Hk|Hk].
  - apply Hne. apply (keys_sorted_unique (a_free a)); assumption.
  - specialize (V4 _ _ H1 H2 Hk). unfold disj, in_block in *. lia.
Qed.

Lemma alloc_free_safety_witness :
  client_total [CAlloc 8; CAlloc 8; CFree 0 8; CAlloc 4] < W64
  /\ client_run new_allocator [] [CAlloc 8; CAlloc 8; CFree 0 8; CAlloc 4]
       = Some (mkAllocator 16 16 8 None [(8, 0)], [(0, 8); (8, 8)])
  /\ (ForallOrdPairs (fun b1 b2 => forall x, ~ (in_block b1 x /\ in_block b2 x)) [(0, 8); (8, 8)]
  /\ (forall b x, In b [(0, 8); (8, 8)] -> in_block b x -> 0 <= x < 16)
  /\ (forall b e x, In b [(0, 8); (8, 8)] -> In e [(8, 0)] -> ~ (in_block b x /\ in_block e x))
  /\ (forall e1 e2 x, In e1 [(8, 0)] -> In e2 [(8, 0)] -> e1 <> e2 ->
        ~ (in_block e1 x /\ in_block e2 x))
  /\ 16 = sumsnd [(0, 8); (8, 8)] /\ 16 <= client_total [CAlloc 8; CAlloc 8; CFree 0 8; CAlloc 4]).
Proof.
  assert (HT : client_total [CAlloc 8; CAlloc 8; CFree 0 8; CAlloc 4] < W64)
    by (vm_compute; reflexivity).
  assert (Hr : client_run new_allocator [] [CAlloc 8; CAlloc 8; CFree 0 8; CAlloc 4]
       = Some (mkAllocator 16 16 8 None [(8, 0)], [(0, 8); (8, 8)])) by (vm_compute; reflexivity).
  split; [exact HT|]. split; [exact Hr|].
  exact (alloc_free_safety _ _ _ HT Hr).
Defined.
